(** * cf_pick: a verification development for the problem picker

    The development embeds [src/cf_pick.py] shallowly:

    - Python text is [string], one character per code below 256; the case
      conversion and the whitespace tests are those of the ASCII range;
    - Python integers are [Z], floats are binary64 values ([spec_float]);
    - [set] objects are [gset], the [tag_counts] dictionary is a [gmap];
      dictionaries whose insertion order matters ([buckets], the
      [tag_caps] argument, JSON objects) are lists of items;
    - the process-wide random generator and the text conversions of the
      interpreter are interfaces (type classes), the remote API is a
      function from the requests made to their outcomes: their code is
      not part of the repository;
    - a function that raises returns a value that says so.

    The selector comes first, then the fetcher, then the loader of the
    configuration; the properties follow in the same order. *)

From Stdlib Require Import ZArith String Ascii List Bool Lia.
From Stdlib Require Import Floats.SpecFloat.
From stdpp Require Import base gmap strings pretty list fin_maps.

Local Open Scope string_scope.
Local Open Scope list_scope.
Local Open Scope Z_scope.

(** ** Text helpers (str.lower, str.lstrip, str.strip, startswith, in) *)

Module PyStr.

(** [str.lower] on one character. *)
Definition lower_ascii (c : ascii) : ascii :=
  let n := nat_of_ascii c in
  if ((65 <=? n) && (n <=? 90))%nat then ascii_of_nat (n + 32) else c.

Fixpoint lower (s : string) : string :=
  match s with
  | EmptyString => EmptyString
  | String c s' => String (lower_ascii c) (lower s')
  end.

(** [str.isspace] on one character: TAB, LF, VT, FF, CR, the four
    separators FS..US and the blank. *)
Definition is_space (c : ascii) : bool :=
  let n := nat_of_ascii c in
  (((9 <=? n) && (n <=? 13)) || ((28 <=? n) && (n <=? 32)))%nat.

Fixpoint lstrip (s : string) : string :=
  match s with
  | EmptyString => EmptyString
  | String c s' => if is_space c then lstrip s' else s
  end.

Definition rstrip (s : string) : string :=
  String.rev (lstrip (String.rev s)).

Definition strip (s : string) : string := rstrip (lstrip s).

(** [t.startswith(p)] *)
Fixpoint startswith (p t : string) : bool :=
  match p, t with
  | EmptyString, _ => true
  | String a p', String b t' => if Ascii.eqb a b then startswith p' t' else false
  | String _ _, EmptyString => false
  end.

(** [p in t] for two texts. *)
Fixpoint contains (p t : string) : bool :=
  startswith p t ||
  match t with
  | EmptyString => false
  | String _ t' => contains p t'
  end.

End PyStr.

(** ** The constrained selector: data *)

(** A problem as the catalogue filter hands it to the selector: the keys
    [contestId], [index] and [rating] are present (the filter drops every
    record that lacks one of them), [tags] may be missing. *)
Record Problem := mkProblem {
  contestId : Z;
  index : string;
  rating : Z;
  name : string;
  tags : option (list string)
}.

(** [(p["contestId"], p["index"])] *)
Definition key (p : Problem) : Z * string := (contestId p, index p).

(** [set(map(str.lower, cand.get("tags", [])))], kept as a duplicate-free
    list. *)
Definition tags_lower (p : Problem) : list string :=
  remove_dups (map PyStr.lower (default [] (tags p))).

(** The process-wide generator of the [random] module.  [random_seed s]
    is the state after [random.seed(s)], which depends on [s] alone;
    [random_shuffle] is [random.shuffle], returning the rearranged list
    with the next state. *)
Class PyRandom (G : Type) := {
  random_seed : Z → G;
  random_shuffle : G → list Problem → list Problem * G;
  random_shuffle_perm : ∀ g l, (random_shuffle g l).1 ≡ₚ l
}.

(** The names put in the [detail] list of the failure message. *)
Inductive constraint_name :=
  | DistinctContest                       (* "distinct contest" *)
  | NoTagRepetition                       (* "no tag repetition" *)
  | TagCaps (caps : gmap string Z).       (* f"tag caps={tag_caps}" *)

Definition constraint_text (c : constraint_name) : string :=
  match c with
  | DistinctContest => "distinct contest"
  | NoTagRepetition => "no tag repetition"
  | TagCaps _ => "tag caps="
  end.

(** What a call of the selector ends with: the list it returns, or the
    [RuntimeError] "No available problem for rating r under constraints:
    ..." it raises. *)
Inductive pick_result :=
  | Picked (picks : list Problem)
  | NoAvailable (r : Z) (detail : list constraint_name).

(** Line 191: keys lowercased, entries below 1 dropped, a later entry
    replacing an earlier one with the same lowercased key. *)
Definition normalize_caps (tag_caps : option (list (string * Z))) : gmap string Z :=
  foldl (λ (m : gmap string Z) (kv : string * Z),
           if (1 <=? kv.2)%Z then <[PyStr.lower kv.1 := kv.2]> m else m)
        ∅ (default [] tag_caps).

(** [buckets.setdefault(r, []).append(p)] on an insertion-ordered
    dictionary. *)
Fixpoint setdefault_append (r : Z) (p : Problem) (bs : list (Z * list Problem))
  : list (Z * list Problem) :=
  match bs with
  | [] => [(r, [p])]
  | (k, b) :: rest =>
      if decide (k = r) then (k, b ++ [p]) :: rest
      else (k, b) :: setdefault_append r p rest
  end.

Definition make_buckets (fresh : list Problem) : list (Z * list Problem) :=
  foldl (λ bs p, setdefault_append (rating p) p bs) [] fresh.

(** [buckets.get(r)] and the write-back of the pool popped in place. *)
Fixpoint bucket_get (r : Z) (bs : list (Z * list Problem)) : option (list Problem) :=
  match bs with
  | [] => None
  | (k, b) :: rest => if decide (k = r) then Some b else bucket_get r rest
  end.

Fixpoint bucket_put (r : Z) (b' : list Problem) (bs : list (Z * list Problem))
  : list (Z * list Problem) :=
  match bs with
  | [] => []
  | (k, b) :: rest =>
      if decide (k = r) then (k, b') :: rest else (k, b) :: bucket_put r b' rest
  end.

(** ** The constrained selector: the loop of [pick_strict_order] *)

(** The running state of the loop over [ratings_ordered]: the (mutated)
    buckets and the four accumulators of lines 200-203. *)
Record sel_state := mkState {
  buckets : list (Z * list Problem);
  picked : list Problem;
  used_keys : gset (Z * string);
  used_contests : gset Z;
  tag_counts : gmap string Z
}.

(** [tag_counts.get(t, 0)] *)
Definition count_of (tc : gmap string Z) (t : string) : Z := default 0 (tc !! t).

(** Lines 231-232: one more occurrence for every tag of the accepted
    candidate. *)
Definition bump (tl : list string) (tc : gmap string Z) : gmap string Z :=
  foldl (λ (m : gmap string Z) t, <[t := count_of m t + 1]> m) tc tl.

Section Selector.
Context (distinct_contest distinct_tags : bool) (tag_caps : gmap string Z).

(** Lines 205-212. *)
Definition violates_tag_rules (tc : gmap string Z) (tl : list string) : bool :=
  if distinct_tags && existsb (λ t, 1 <=? count_of tc t) tl then true
  else existsb (λ t, match tag_caps !! t with
                     | Some cap => cap <=? count_of tc t
                     | None => false
                     end) tl.

(** The three [continue] tests of lines 220-226. *)
Definition rejects (st : sel_state) (cand : Problem) : bool :=
  bool_decide (key cand ∈ used_keys st)
  || (distinct_contest && bool_decide (contestId cand ∈ used_contests st))
  || violates_tag_rules (tag_counts st) (tags_lower cand).

(** The [while pool: cand = pool.pop()] loop, on the pool read from its
    end: the first candidate that is not rejected, and what is left
    below it. *)
Fixpoint scan (st : sel_state) (stack : list Problem)
  : option Problem * list Problem :=
  match stack with
  | [] => (None, [])
  | cand :: below =>
      if rejects st cand then scan st below else (Some cand, below)
  end.

Definition pop_until (st : sel_state) (pool : list Problem)
  : option Problem * list Problem :=
  let '(chosen, below) := scan st (rev pool) in (chosen, rev below).

(** Lines 235-238. *)
Definition detail : list constraint_name :=
  (if distinct_contest then [DistinctContest] else [])
  ++ (if distinct_tags then [NoTagRepetition] else [])
  ++ (if bool_decide (tag_caps ≠ ∅) then [TagCaps tag_caps] else []).

(** One iteration of [for r in ratings_ordered]; [None] is the raise of
    line 239. *)
Definition step (st : sel_state) (r : Z) : option sel_state :=
  let pool := default [] (bucket_get r (buckets st)) in
  match pop_until st pool with
  | (None, _) => None
  | (Some cand, pool') =>
      Some {| buckets := bucket_put r pool' (buckets st);
              picked := picked st ++ [cand];
              used_keys := used_keys st ∪ {[ key cand ]};
              used_contests :=
                if distinct_contest
                then used_contests st ∪ {[ contestId cand ]}
                else used_contests st;
              tag_counts := bump (tags_lower cand) (tag_counts st) |}
  end.

Fixpoint run (st : sel_state) (ratings : list Z) : pick_result :=
  match ratings with
  | [] => Picked (picked st)
  | r :: rest =>
      match step st r with
      | None => NoAvailable r detail
      | Some st' => run st' rest
      end
  end.

(** The state after a prefix of the ratings, when every one of them
    found its problem. *)
Fixpoint run_state (st : sel_state) (ratings : list Z) : option sel_state :=
  match ratings with
  | [] => Some st
  | r :: rest =>
      match step st r with
      | None => None
      | Some st' => run_state st' rest
      end
  end.

End Selector.

(** ** The constrained selector: [pick_strict_order] *)

(** Line 193. *)
Definition fresh_of (candidates : list Problem) (attempted_set : gset (Z * string))
  : list Problem :=
  filter (λ p, key p ∉ attempted_set) candidates.

(** Lines 197-198: every bucket shuffled, in the order of [buckets.values()]. *)
Fixpoint shuffle_all {G} `{PyRandom G} (g : G) (bs : list (Z * list Problem))
  : list (Z * list Problem) * G :=
  match bs with
  | [] => ([], g)
  | (k, b) :: rest =>
      let '(b', g') := random_shuffle g b in
      let '(rest', g'') := shuffle_all g' rest in
      ((k, b') :: rest', g'')
  end.

Definition init_state (bs : list (Z * list Problem)) : sel_state :=
  {| buckets := bs; picked := []; used_keys := ∅; used_contests := ∅;
     tag_counts := ∅ |}.

(** Lines 188-198: the generator after the optional seeding, and the
    shuffled buckets. *)
Definition prepare {G} `{PyRandom G} (g : G) (candidates : list Problem)
    (attempted_set : gset (Z * string)) (seed : option Z)
  : sel_state * G :=
  let g1 := match seed with Some s => random_seed s | None => g end in
  let '(bs, g2) := shuffle_all g1 (make_buckets (fresh_of candidates attempted_set)) in
  (init_state bs, g2).

(** [pick_strict_order], from the state [g] of the generator at the call
    to the result and the state it leaves behind. *)
Definition pick_strict_order {G} `{PyRandom G} (g : G)
    (candidates : list Problem) (attempted_set : gset (Z * string))
    (ratings_ordered : list Z) (distinct_contest distinct_tags : bool)
    (tag_caps : option (list (string * Z))) (seed : option Z)
  : pick_result * G :=
  let '(st0, g2) := prepare g candidates attempted_set seed in
  (run distinct_contest distinct_tags (normalize_caps tag_caps) st0 ratings_ordered, g2).


(** ** JSON values *)

(** What [json.load] and [r.json()] produce: [None], [bool], [int],
    [float], [str], [list] and [dict] (in insertion order). *)
#[local] Unset Elimination Schemes.
Inductive json :=
  | JNull
  | JBool (b : bool)
  | JInt (z : Z)
  | JFloat (f : spec_float)
  | JStr (s : string)
  | JArr (l : list json)
  | JObj (d : list (string * json)).
#[local] Set Elimination Schemes.

(** [d.get(k)] on a dictionary kept as a list of items. *)
Fixpoint dict_get {V} (k : string) (d : list (string * V)) : option V :=
  match d with
  | [] => None
  | (k', v) :: rest => if String.eqb k' k then Some v else dict_get k rest
  end.

(** Truth value of an object, as [or], [not] and [bool()] take it. *)
Definition truthy (v : json) : bool :=
  match v with
  | JNull => false
  | JBool b => b
  | JInt z => negb (z =? 0)
  | JFloat (S754_zero _) => false
  | JFloat _ => true
  | JStr s => negb (String.eqb s "")
  | JArr l => match l with [] => false | _ => true end
  | JObj d => match d with [] => false | _ => true end
  end.

(** ** The fetcher: one response *)

(** Lines 48-50. *)
Definition _looks_like_html (text : string) : bool :=
  let t := PyStr.lower (PyStr.lstrip text) in
  PyStr.startswith "<!doctype html" t || PyStr.startswith "<html" t.

(** What [S.get] hands back: the [content-type] header if there is one,
    the body as text, and what [r.json()] makes of the body ([None] when
    it raises its decoding error). *)
Record Response := mkResponse {
  content_type : option string;
  text : string;
  body_json : option json
}.

(** [S.get] either raises a [requests.RequestException] or returns. *)
Inductive http_result :=
  | HttpError
  | HttpResponse (r : Response).

(** The exceptions met in [cf_get]: the three classes handled at line 75,
    and two that are not. *)
Inductive exn :=
  | RequestException
  | JSONDecodeError
  | RuntimeError (msg : string)
  | AttributeError
  | KeyError (k : string).

(** How the [try] block of lines 61-74 ends for one host. *)
Inductive attempt :=
  | Accept (v : json)      (* line 68: return j["result"] *)
  | Caught (e : exn)       (* raised and handled at line 75 *)
  | Transient              (* line 73 not taken: on to the next host *)
  | Escapes (e : exn).     (* raised and not handled at line 75 *)

(** Line 63 and the first half of line 64. *)
Definition declares_json (r : Response) : bool :=
  PyStr.contains "application/json" (PyStr.lower (default "" (content_type r))).

(** Line 69: [(j.get("comment") or "").strip()]; [None] when the comment
    is a true value without a [strip] method. *)
Definition comment_of (d : list (string * json)) : option string :=
  match dict_get "comment" d with
  | Some (JStr s) => Some (PyStr.strip s)
  | Some v => if truthy v then None else Some ""
  | None => Some ""
  end.

(** Lines 70-72. *)
Definition transient (comment : string) : bool :=
  existsb (λ x, PyStr.contains x (PyStr.lower comment))
          ["limit exceeded"; "service unavailable"; "please try again later"].

(** Line 67: [j.get("status") == "OK"]. *)
Definition status_ok (d : list (string * json)) : bool :=
  match dict_get "status" d with
  | Some (JStr s) => String.eqb s "OK"
  | _ => false
  end.

(** Lines 62-74 for the outcome [res] of [S.get]. *)
Definition handle_response (path : string) (res : http_result) : attempt :=
  match res with
  | HttpError => Caught RequestException
  | HttpResponse r =>
      if negb (declares_json r) && _looks_like_html (text r)
      then Caught (RuntimeError "Non-JSON HTML from CF (likely WAF/challenge).")
      else
        match body_json r with
        | None => Caught JSONDecodeError
        | Some (JObj d) =>
            if status_ok d then
              match dict_get "result" d with
              | Some v => Accept v
              | None => Escapes (KeyError "result")
              end
            else
              match comment_of d with
              | None => Escapes AttributeError
              | Some comment =>
                  if transient comment then Transient
                  else Caught (RuntimeError
                         (path +:+ ": " +:+
                          (if String.eqb comment "" then "FAILED" else comment)))
              end
        | Some _ => Escapes AttributeError
        end
  end.

(** ** The fetcher: [cf_get] *)

(** What the process does to the outside, in order. *)
Inductive event :=
  | Throttle                    (* _throttle() *)
  | Get (url : string)          (* S.get(url, ...) *)
  | Sleep (attempt_index : nat).  (* time.sleep(backoff * 2 ** i) *)

(** The number of requests made so far and the events so far. *)
Record world := mkWorld {
  calls : nat;
  trace : list event
}.

Definition emit (e : event) (w : world) : world :=
  {| calls := calls w; trace := trace w ++ [e] |}.

(** How a call of [cf_get] ends: a returned payload, an exception that
    left the [try] block unhandled, or the [RuntimeError] of line 81,
    "path: exhausted retries; last error: last_err". *)
Inductive cf_outcome :=
  | Returned (v : json)
  | Raised (e : exn)
  | Exhausted (path : string) (last_err : option exn).

(** How the loop over the hosts ends. *)
Inductive hosts_result :=
  | HostsReturn (v : json) (w : world)
  | HostsRaise (e : exn) (w : world)
  | HostsDone (last_err : option exn) (w : world).

(** Line 8: the hosts, unless the configuration names others. *)
Definition API_HOSTS : list string :=
  ["https://codeforces.com/api"; "https://www.codeforces.com/api"].

Section Fetcher.
(** The network: what the [n]-th request of the process, sent to [url],
    comes back with; and the list of hosts in force at the call. *)
Context (server : nat → string → http_result) (api_hosts : list string).

(** Lines 59-79. *)
Fixpoint try_hosts (path : string) (hosts : list string) (w : world)
    (last_err : option exn) : hosts_result :=
  match hosts with
  | [] => HostsDone last_err w
  | base :: rest =>
      let url := base +:+ "/" +:+ path in
      let w' := {| calls := S (calls w); trace := trace w ++ [Get url] |} in
      match handle_response path (server (calls w) url) with
      | Accept v => HostsReturn v w'
      | Escapes e => HostsRaise e w'
      | Caught e => try_hosts path rest w' (Some e)
      | Transient => try_hosts path rest w' last_err
      end
  end.

(** Lines 57-81, over the values [i] of [range(retries)] still to come. *)
Fixpoint rounds (path : string) (attempts : list nat) (w : world)
    (last_err : option exn) : cf_outcome * world :=
  match attempts with
  | [] => (Exhausted path last_err, w)
  | i :: rest =>
      match try_hosts path api_hosts (emit Throttle w) last_err with
      | HostsReturn v w' => (Returned v, w')
      | HostsRaise e w' => (Raised e, w')
      | HostsDone last_err' w' => rounds path rest (emit (Sleep i) w') last_err'
      end
  end.

Definition cf_get (path : string) (retries : nat) (w : world) : cf_outcome * world :=
  rounds path (seq 0 retries) w None.

End Fetcher.

(** The body is HTML, as the wording of the specification has it: after
    trimming leading whitespace and lowercasing it starts with
    "<!doctype html" or with "<html>". *)
Definition looks_like_html_as_specified (text : string) : bool :=
  let t := PyStr.lower (PyStr.lstrip text) in
  PyStr.startswith "<!doctype html" t || PyStr.startswith "<html>" t.

(** ** The configuration: conversions of the interpreter *)

(** [int(s)] and [float(s)] for a text ([None] when they raise) and
    [str(x)] for an object that is not a text. *)
Class PyText := {
  int_of_str : string → option Z;
  float_of_str : string → option spec_float;
  str_of : json → string
}.

(** The floats are binary64 values in canonical form. *)
Definition float_zero : spec_float := S754_zero false.
Definition float_one : spec_float := S754_finite false 4503599627370496 (-52).

(** [int(f)] for a float: truncation towards zero; [None] for the
    [ValueError] of a NaN and the [OverflowError] of an infinity. *)
Definition int_of_float (f : spec_float) : option Z :=
  match f with
  | S754_zero _ => Some 0
  | S754_finite s m e =>
      let a := if 0 <=? e then Z.shiftl (Z.pos m) e else Z.shiftr (Z.pos m) (- e) in
      Some (if s then - a else a)
  | S754_infinity _ | S754_nan => None
  end.

(** [float(z)] for an integer: rounding to nearest even; [None] for the
    [OverflowError] of an integer beyond the range. *)
Definition float_of_int (z : Z) : option spec_float :=
  match binary_normalize 53 1024 z 0 false with
  | S754_infinity _ => None
  | f => Some f
  end.

Section Conversions.
Context `{PyText}.

(** [int(v)]; [None] when it raises. *)
Definition py_int (v : json) : option Z :=
  match v with
  | JInt z => Some z
  | JBool b => Some (if b then 1 else 0)
  | JFloat f => int_of_float f
  | JStr s => int_of_str s
  | JNull | JArr _ | JObj _ => None
  end.

(** [float(v)]; [None] when it raises. *)
Definition py_float (v : json) : option spec_float :=
  match v with
  | JFloat f => Some f
  | JInt z => float_of_int z
  | JBool b => Some (if b then float_one else float_zero)
  | JStr s => float_of_str s
  | JNull | JArr _ | JObj _ => None
  end.

(** [str(v)] *)
Definition py_str (v : json) : string :=
  match v with
  | JStr s => s
  | _ => str_of v
  end.

End Conversions.

(** [max(a, b)] on floats: [b] when [b > a], else [a]. *)
Definition py_max_float (a b : spec_float) : spec_float :=
  if SFltb a b then b else a.

(** [isinstance(v, int)]: an [int] or a [bool]; with its value. *)
Definition as_int (v : json) : option Z :=
  match v with
  | JInt z => Some z
  | JBool b => Some (if b then 1 else 0)
  | _ => None
  end.

(** [d[k] = v] on a dictionary kept as a list of items. *)
Fixpoint dict_set {V} (k : string) (v : V) (d : list (string * V))
  : list (string * V) :=
  match d with
  | [] => [(k, v)]
  | (k', v') :: rest =>
      if String.eqb k' k then (k', v) :: rest else (k', v') :: dict_set k v rest
  end.

(** [cfg.get(k, dflt)]; [cfg.get(k)] is [get_or k JNull]. *)
Definition get_or (k : string) (dflt : json) (cfg : list (string * json)) : json :=
  default dflt (dict_get k cfg).

(** ** The configuration: [load_config] *)

(** Lines 9-11: the defaults, as they stand when [load_config] runs. *)
Definition TIMEOUT : Z := 45.
Definition PAGE_SIZE : Z := 500.
Definition RATE_MIN_INTERVAL : spec_float :=
  S754_finite false 4953959590107546 (-51).

(** How [load_config] ends: with the dictionary it returns, with
    [die(msg, code)], or with an exception nobody handles. *)
Inductive outcome (A : Type) :=
  | Ok (a : A)
  | Die (code : Z) (msg : string)
  | Uncaught.
Arguments Ok {A} a.
Arguments Die {A} code msg.
Arguments Uncaught {A}.

(** Statements in sequence: the first [die] or exception ends the call. *)
#[export] Instance outcome_bind : MBind outcome := λ A B k c,
  match c with
  | Ok a => k a
  | Die code msg => Die code msg
  | Uncaught => Uncaught
  end.

(** What the file gave: [open] or [json.load] raised, or a document. *)
Inductive config_file :=
  | Unreadable (why : string)
  | Parsed (doc : json).

(** The values read at lines 254-284. *)
Record settings := mkSettings {
  raw_handles : list json;
  raw_ratings : list json;
  raw_year_min : json;
  raw_year_max : json;
  raw_distinct_contest : bool;
  raw_distinct_tags : bool;
  raw_tag_caps : json;
  raw_seed : json;
  raw_prefer_v4 : bool;
  raw_cookie_file : json;
  raw_min_interval : spec_float;
  raw_verbose : bool;
  raw_user_agent : json;
  raw_timeout : Z;
  raw_page_size : Z;
  raw_api_hosts : json;
  raw_max_pages_per_user : json;
  raw_exclude_name_patterns : json;
  raw_exclude_contest_ids : json
}.

(** The dictionary returned at lines 322-341. *)
Record Config := mkConfig {
  cfg_handles : list string;
  cfg_ratings_list : list Z;
  cfg_year_min : json;
  cfg_year_max : json;
  cfg_distinct_contest : bool;
  cfg_distinct_tags : bool;
  cfg_tag_caps : list (string * Z);
  cfg_seed : json;
  cfg_prefer_ipv4 : bool;
  cfg_cookie_file : json;
  cfg_min_interval : spec_float;
  cfg_verbose : bool;
  cfg_timeout : Z;
  cfg_page_size : Z;
  cfg_api_hosts : json;
  cfg_max_pages_per_user : option Z;
  cfg_exclude_name_patterns : list string;
  cfg_exclude_contest_ids : list Z
}.

(** The headers of the session [S], as far as [load_config] writes them. *)
Record session := mkSession {
  user_agent_header : json
}.

Definition S_initial : session :=
  {| user_agent_header := JStr "cf-picker/1.4 (+no-key-required)" |}.

Definition msg_cap_not_int (k : string) : string :=
  "Config: tag_caps['" +:+ k +:+ "'] must be an integer >= 1.".
Definition msg_cap_below_one (k : string) : string :=
  "Config: tag_caps['" +:+ k +:+ "'] must be >= 1.".

Section LoadConfig.
Context `{PyText}.

(** [int(x)] outside any [try]. *)
Definition int_or_raise (v : json) : outcome Z :=
  match py_int v with Some z => Ok z | None => Uncaught end.

Definition float_or_raise (v : json) : outcome spec_float :=
  match py_float v with Some f => Ok f | None => Uncaught end.

(** Lines 247-284. *)
Definition read_settings (path : string) (file : config_file) : outcome settings :=
  match file with
  | Unreadable why =>
      Die 2 ("Failed to read config '" +:+ path +:+ "': " +:+ why)
  | Parsed (JObj cfg) =>
      let handles := get_or "handles" JNull cfg in
      let ratings_list := get_or "ratings" JNull cfg in
      let year_min := get_or "year_min" JNull cfg in
      let year_max := get_or "year_max" JNull cfg in
      match handles with
      | JArr (h :: hs) =>
          match ratings_list with
          | JArr (x :: xs) =>
              match as_int year_min, as_int year_max with
              | Some lo, Some hi =>
                  if hi <? lo
                  then Die 2 "Config: 'year_min' cannot be greater than 'year_max'."
                  else
                  min_interval ←
                    float_or_raise (get_or "min_interval" (JFloat RATE_MIN_INTERVAL) cfg);
                  timeout ← int_or_raise (get_or "timeout" (JInt TIMEOUT) cfg);
                  page_size ← int_or_raise (get_or "page_size" (JInt PAGE_SIZE) cfg);
                  Ok {| raw_handles := h :: hs;
                        raw_ratings := x :: xs;
                        raw_year_min := year_min;
                        raw_year_max := year_max;
                        raw_distinct_contest :=
                          truthy (get_or "distinct_contest" (JBool false) cfg);
                        raw_distinct_tags :=
                          truthy (get_or "distinct_tags" (JBool false) cfg);
                        raw_tag_caps := get_or "tag_caps" (JObj []) cfg;
                        raw_seed := get_or "seed" JNull cfg;
                        raw_prefer_v4 := truthy (get_or "prefer_ipv4" (JBool false) cfg);
                        raw_cookie_file := get_or "cookie_file" JNull cfg;
                        raw_min_interval := min_interval;
                        raw_verbose := truthy (get_or "verbose" (JBool false) cfg);
                        raw_user_agent := get_or "user_agent" JNull cfg;
                        raw_timeout := timeout;
                        raw_page_size := page_size;
                        raw_api_hosts := get_or "api_hosts" JNull cfg;
                        raw_max_pages_per_user := get_or "max_pages_per_user" JNull cfg;
                        raw_exclude_name_patterns :=
                          get_or "exclude_contest_name_patterns" (JArr []) cfg;
                        raw_exclude_contest_ids :=
                          get_or "exclude_contest_ids" (JArr []) cfg |}
              | _, _ => Die 2 "Config: 'year_min' and 'year_max' must be integers."
              end
          | _ => Die 2 "Config: 'ratings' must be a non-empty list of ints."
          end
      | _ => Die 2 "Config: 'handles' must be a non-empty list."
      end
  | Parsed _ => Uncaught
  end.

(** Lines 292-300, with [_caps] as it stands. *)
Fixpoint validate_caps (items : list (string * json)) (_caps : list (string * Z))
  : outcome (list (string * Z)) :=
  match items with
  | [] => Ok _caps
  | (k, v) :: rest =>
      match py_int v with
      | None => Die 2 (msg_cap_not_int k)
      | Some cap =>
          if cap <? 1 then Die 2 (msg_cap_below_one k)
          else validate_caps rest (dict_set (PyStr.lower k) cap _caps)
      end
  end.

(** Lines 302-308. *)
Definition validate_max_pages (v : json) : outcome (option Z) :=
  match v with
  | JNull => Ok None
  | _ =>
      match py_int v with
      | None => Die 2 "Config: 'max_pages_per_user' must be an integer."
      | Some n =>
          if n <? 1 then Die 2 "Config: 'max_pages_per_user' must be >= 1."
          else Ok (Some n)
      end
  end.

(** [[str(s).strip() for s in l if str(s).strip()]] *)
Definition stripped_texts (l : list json) : list string :=
  filter (λ s, s ≠ "") (map (λ v, PyStr.strip (py_str v)) l).

(** Lines 317-320. *)
Fixpoint validate_ids (l : list json) : outcome (list Z) :=
  match l with
  | [] => Ok []
  | x :: rest =>
      match py_int x with
      | None => Die 2 "Config: 'exclude_contest_ids' must contain integers."
      | Some z => ids ← validate_ids rest; Ok (z :: ids)
      end
  end.

(** [[int(x) for x in ratings_list]] *)
Fixpoint ints_or_raise (l : list json) : outcome (list Z) :=
  match l with
  | [] => Ok []
  | x :: rest => z ← int_or_raise x; zs ← ints_or_raise rest; Ok (z :: zs)
  end.

(** Lines 289-341. *)
Definition validate (raw : settings) : outcome Config :=
  match raw_tag_caps raw with
  | JObj items =>
      _caps ← validate_caps items [];
      max_pages_per_user ← validate_max_pages (raw_max_pages_per_user raw);
      match raw_exclude_name_patterns raw with
      | JArr patterns =>
          match raw_exclude_contest_ids raw with
          | JArr ids =>
              _ids ← validate_ids ids;
              ratings ← ints_or_raise (raw_ratings raw);
              Ok {| cfg_handles := stripped_texts (raw_handles raw);
                    cfg_ratings_list := ratings;
                    cfg_year_min := raw_year_min raw;
                    cfg_year_max := raw_year_max raw;
                    cfg_distinct_contest := raw_distinct_contest raw;
                    cfg_distinct_tags := raw_distinct_tags raw;
                    cfg_tag_caps := _caps;
                    cfg_seed := raw_seed raw;
                    cfg_prefer_ipv4 := raw_prefer_v4 raw;
                    cfg_cookie_file := raw_cookie_file raw;
                    cfg_min_interval := py_max_float float_zero (raw_min_interval raw);
                    cfg_verbose := raw_verbose raw;
                    cfg_timeout := Z.max 5 (raw_timeout raw);
                    cfg_page_size := Z.max 100 (Z.min 1000 (raw_page_size raw));
                    cfg_api_hosts :=
                      match raw_api_hosts raw with
                      | JArr (a :: l) => JArr (a :: l)
                      | _ => JNull
                      end;
                    cfg_max_pages_per_user := max_pages_per_user;
                    cfg_exclude_name_patterns := stripped_texts patterns;
                    cfg_exclude_contest_ids := _ids |}
          | _ => Die 2 "Config: 'exclude_contest_ids' must be a list of integers."
          end
      | _ => Die 2 "Config: 'exclude_contest_name_patterns' must be a list of strings."
      end
  | _ => Die 2 "Config: 'tag_caps' must be an object/dict of {tag: max_allowed}."
  end.

(** [load_config(path)], for what the file at [path] gives, from the
    session headers before the call to the headers after it and the way
    the call ends. *)
Definition load_config (S : session) (path : string) (file : config_file)
  : session * outcome Config :=
  match read_settings path file with
  | Ok raw =>
      let S' := if truthy (raw_user_agent raw)
                then {| user_agent_header := raw_user_agent raw |} else S in
      (S', validate raw)
  | Die code msg => (S, Die code msg)
  | Uncaught => (S, Uncaught)
  end.

End LoadConfig.

(** ** The catalogue: contest metadata and the filter *)

(** The objects of the remote API carry the fields, and the types of
    fields, that the API documents; a field read with [.get] may be
    missing.  The functions below are given on the lists the two calls of
    [cf_get] return, seen through that schema. *)

(** An entry of [contest.list], as far as line 126-130 read it. *)
Record Contest := mkContest {
  c_gym : option bool;
  c_id : option Z;
  c_startTimeSeconds : option Z;
  c_name : option string
}.

(** An entry of [problemset.problems]. *)
Record ApiProblem := mkApiProblem {
  ap_contestId : option Z;
  ap_index : option string;
  ap_rating : option Z;
  ap_name : string;
  ap_tags : option (list string)
}.

(** The value kept per contest: [{"year": ..., "name": ...}]. *)
Record ContestMeta := mkMeta {
  meta_year : Z;
  meta_name : string
}.

(** [datetime.fromtimestamp(ts, tz=timezone.utc).year]; [None] when the
    library raises (a time outside its range). *)
Class PyClock := {
  utc_year : Z → option Z
}.

Section Catalogue.
Context `{PyClock}.

(** Lines 124-136: the loop over the contests, with [meta] as it
    stands; [None] when computing a year raises. *)
Fixpoint contests_meta_from (contests : list Contest) (meta : gmap Z ContestMeta)
  : option (gmap Z ContestMeta) :=
  match contests with
  | [] => Some meta
  | c :: rest =>
      if default false (c_gym c) then contests_meta_from rest meta
      else
        match c_id c, c_startTimeSeconds c with
        | Some cid, Some ts =>
            if negb (cid =? 0) && negb (ts =? 0) then
              match utc_year ts with
              | Some y =>
                  contests_meta_from rest
                    (<[cid := {| meta_year := y; meta_name := default "" (c_name c) |}]> meta)
              | None => None
              end
            else contests_meta_from rest meta
        | _, _ => contests_meta_from rest meta
        end
  end.

Definition load_contests_meta (contests : list Contest) : option (gmap Z ContestMeta) :=
  contests_meta_from contests ∅.

End Catalogue.

(** Line 151: the patterns, lowercased, the empty ones dropped. *)
Definition name_patterns (exclude_name_patterns : list string) : list string :=
  PyStr.lower <$> filter (λ p, p ≠ "") exclude_name_patterns.

(** Line 156: some pattern occurs in the lowercased name. *)
Definition name_matches (pats : list string) (m : ContestMeta) : bool :=
  existsb (λ p, PyStr.contains p (PyStr.lower (meta_name m))) pats.

(** Lines 150-157: the contests left out, by id or by name. *)
Definition excluded_ids (meta : gmap Z ContestMeta)
    (exclude_name_patterns : list string) (exclude_contest_ids : list Z) : gset Z :=
  list_to_set exclude_contest_ids
  ∪ dom (filter (λ kv, name_matches (name_patterns exclude_name_patterns) kv.2 = true) meta).

(** Lines 163-175 for one problem: the problem as the selector reads it
    when the problem is kept, [None] for a [continue]. *)
Definition keep_problem (meta : gmap Z ContestMeta) (excl_ids : gset Z)
    (ratings_set : gset Z) (year_min year_max : Z) (p : ApiProblem)
  : option Problem :=
  match ap_contestId p, ap_index p, ap_rating p with
  | Some cid, Some idx, Some r =>
      if (cid =? 0) || String.eqb idx "" then None
      else if negb (bool_decide (r ∈ ratings_set)) then None
      else
        match meta !! cid with
        | None => None
        | Some m =>
            if (meta_year m <? year_min) || (year_max <? meta_year m) then None
            else if bool_decide (cid ∈ excl_ids) then None
            else Some {| contestId := cid; index := idx; rating := r;
                         name := ap_name p; tags := ap_tags p |}
        end
  | _, _, _ => None
  end.

(** Lines 138-176, from the catalogue and the metadata. *)
Definition load_problemset_filtered (problems : list ApiProblem)
    (meta : gmap Z ContestMeta) (ratings_set : gset Z) (year_min year_max : Z)
    (exclude_name_patterns : list string) (exclude_contest_ids : list Z)
  : list Problem :=
  let excl_ids := excluded_ids meta exclude_name_patterns exclude_contest_ids in
  foldl (λ out p,
           match keep_problem meta excl_ids ratings_set year_min year_max p with
           | Some q => out ++ [q]
           | None => out
           end) [] problems.

(** ** The link of a problem *)

(** Line 244. *)
Definition to_url (p : Problem) : string :=
  "https://codeforces.com/problemset/problem/" +:+ pretty (contestId p)
  +:+ "/" +:+ index p.

(** ** The resolver that prefers IPv4 *)

(** What [getaddrinfo] returns per address: the family first. *)
Record addrinfo := mkAddrinfo {
  ai_family : Z;
  ai_rest : string
}.

(** [socket.AF_INET] *)
Definition AF_INET : Z := 2.

(** Line 38: the IPv4 entries of [res], or all of [res] when it has
    none. *)
Definition gai_filter (res : list addrinfo) : list addrinfo :=
  match filter (λ x, ai_family x = AF_INET) res with
  | [] => res
  | l => l
  end.

(** ** The submission history *)

(** An entry of [user.status], as lines 107-108 read it: the contest id
    and the index of its problem, when they are there (a submission
    without [problem] has neither). *)
Record Submission := mkSubmission {
  sub_contestId : option Z;
  sub_index : option string
}.

(** What the call of [cf_get] at line 96 comes to: the batch it returns,
    or an exception [e], with [str(e)]. *)
Inductive page_result :=
  | Batch (subs : list Submission)
  | Failed (msg : string).

(** A call of [cf_get] made by [load_user_attempted], with what came of
    it: the handle, the [from] parameter, the outcome. *)
Record page_request := mkRequest {
  req_handle : string;
  req_from : Z;
  req_result : page_result
}.

(** How [load_user_attempted] ends: the set it returns, the
    [die("Handle 'h' is invalid: msg")] of line 102 (exit code 1), or the
    exception raised again at line 103. *)
Inductive attempted_result :=
  | Attempted (attempted : gset (Z * string))
  | InvalidHandle (h msg : string)
  | Reraised (msg : string).

(** Line 101. *)
Definition names_bad_handle (msg : string) : bool :=
  PyStr.contains "not found" (PyStr.lower msg)
  || PyStr.contains "handles:" (PyStr.lower msg).

(** Lines 106-110 for one submission. *)
Definition add_submission (attempted : gset (Z * string)) (sub : Submission)
  : gset (Z * string) :=
  match sub_contestId sub, sub_index sub with
  | Some cid, Some idx =>
      if negb (cid =? 0) && negb (String.eqb idx "")
      then attempted ∪ {[ (cid, idx) ]} else attempted
  | _, _ => attempted
  end.

Definition add_batch (attempted : gset (Z * string)) (batch : list Submission)
  : gset (Z * string) :=
  foldl add_submission attempted batch.

Section Aggregator.
(** The remote, as [load_user_attempted] meets it through [cf_get]: what
    the request for [count] submissions of [handle] from position [from]
    comes to in the world [w]; the pause of line 118; the page size and
    the page limit in force. *)
Context {W : Type}
        (fetch : string → Z → Z → W → page_result * W)
        (pause : W → W)
        (page_size : Z)
        (max_pages_per_user : option Z).

(** Line 113: [max_pages_per_user and page >= max_pages_per_user]. *)
Definition page_limit_reached (page : Z) : bool :=
  match max_pages_per_user with
  | Some n => negb (n =? 0) && (n <=? page)
  | None => false
  end.

(** The [while True] loop of lines 91-118 for the handle [h]: at most
    [fuel] turns; [None] when they do not suffice.  [page] counts the
    turns made before, [log] collects the requests. *)
Fixpoint pages (fuel : nat) (h : string) (start page : Z)
    (attempted : gset (Z * string)) (log : list page_request) (w : W)
  : option (attempted_result * list page_request * W) :=
  match fuel with
  | O => None
  | S fuel' =>
      let page := page + 1 in
      let '(res, w') := fetch h start page_size w in
      let log' := log ++ [mkRequest h start res] in
      match res with
      | Failed msg =>
          Some (if names_bad_handle msg then InvalidHandle h msg else Reraised msg,
                log', w')
      | Batch [] => Some (Attempted attempted, log', w')
      | Batch batch =>
          let attempted' := add_batch attempted batch in
          if Z.of_nat (length batch) <? page_size
          then Some (Attempted attempted', log', w')
          else if page_limit_reached page
          then Some (Attempted attempted', log', w')
          else pages fuel' h (start + page_size) page attempted' log' (pause w')
      end
  end.

(** Lines 86-119: the loop over the handles. *)
Fixpoint handles_loop (fuel : nat) (handles : list string)
    (attempted : gset (Z * string)) (log : list page_request) (w : W)
  : option (attempted_result * list page_request * W) :=
  match handles with
  | [] => Some (Attempted attempted, log, w)
  | h :: rest =>
      match pages fuel h 1 0 attempted log w with
      | Some (Attempted attempted', log', w') => handles_loop fuel rest attempted' log' w'
      | other => other
      end
  end.

(** [load_user_attempted(handles, max_pages_per_user)], with at most
    [fuel] pages per handle. *)
Definition load_user_attempted (fuel : nat) (handles : list string) (w : W)
  : option (attempted_result * list page_request * W) :=
  handles_loop fuel handles ∅ [] w.

End Aggregator.

(** * Notions used to state the properties *)

(** Number of picked problems that carry the (lowercase) tag [t]. *)
Definition tag_occurrences (t : string) (picks : list Problem) : Z :=
  Z.of_nat (length (filter (λ p, t ∈ tags_lower p) picks)).

(** A property of every problem of every bucket, relative to the
    bucket's rating. *)
Definition bucket_inv (P : Z → Problem → Prop) (bs : list (Z * list Problem)) : Prop :=
  Forall (λ kb, Forall (P kb.1) kb.2) bs.

(** What the accumulators of lines 200-203 say about the picks so far. *)
Record sel_inv (distinct_contest distinct_tags : bool) (tag_caps : gmap string Z)
    (st : sel_state) : Prop := {
  inv_keys_nodup : NoDup (key <$> picked st);
  inv_used_keys : ∀ k, k ∈ used_keys st ↔ k ∈ key <$> picked st;
  inv_contests :
    distinct_contest = true →
    NoDup (contestId <$> picked st)
    ∧ ∀ c, c ∈ used_contests st ↔ c ∈ contestId <$> picked st;
  inv_counts : ∀ t, count_of (tag_counts st) t = tag_occurrences t (picked st);
  inv_caps : ∀ t c, tag_caps !! t = Some c → tag_occurrences t (picked st) ≤ c;
  inv_distinct_tags :
    distinct_tags = true → ∀ t, tag_occurrences t (picked st) ≤ 1
}.

Section ConfigNotions.
Context `{PyText}.

(** An entry of [tag_caps] that line 295 or line 298 turns down. *)
Definition bad_cap (v : json) : Prop :=
  match py_int v with
  | None => True
  | Some cap => cap < 1
  end.

(** The message [die] is called with for the entry [(k, v)]. *)
Definition bad_cap_message (k : string) (v : json) : string :=
  match py_int v with
  | None => msg_cap_not_int k
  | Some _ => msg_cap_below_one k
  end.

End ConfigNotions.

(** The settings with the three numbers replaced. *)
Definition with_numbers (raw : settings) (t p : Z) (m : spec_float) : settings :=
  {| raw_handles := raw_handles raw;
     raw_ratings := raw_ratings raw;
     raw_year_min := raw_year_min raw;
     raw_year_max := raw_year_max raw;
     raw_distinct_contest := raw_distinct_contest raw;
     raw_distinct_tags := raw_distinct_tags raw;
     raw_tag_caps := raw_tag_caps raw;
     raw_seed := raw_seed raw;
     raw_prefer_v4 := raw_prefer_v4 raw;
     raw_cookie_file := raw_cookie_file raw;
     raw_min_interval := m;
     raw_verbose := raw_verbose raw;
     raw_user_agent := raw_user_agent raw;
     raw_timeout := t;
     raw_page_size := p;
     raw_api_hosts := raw_api_hosts raw;
     raw_max_pages_per_user := raw_max_pages_per_user raw;
     raw_exclude_name_patterns := raw_exclude_name_patterns raw;
     raw_exclude_contest_ids := raw_exclude_contest_ids raw |}.

(** The document with the three numbers replaced. *)
Definition set_numbers (cfg : list (string * json)) (t p : Z) (m : spec_float)
  : list (string * json) :=
  dict_set "timeout" (JInt t)
    (dict_set "page_size" (JInt p) (dict_set "min_interval" (JFloat m) cfg)).


(** The problems of rating [r] among [l], in the order of [l]. *)
Definition rated (r : Z) (l : list Problem) : list Problem :=
  filter (λ p, rating p = r) l.

(** Everything the buckets hold. *)
Definition all_pools (bs : list (Z * list Problem)) : list Problem :=
  concat (bs.*2).

(** How many candidates the bucket of [r] still holds. *)
Definition supply (r : Z) (bs : list (Z * list Problem)) : nat :=
  length (default [] (bucket_get r bs)).

(** How many times [r] is asked for. *)
Definition demand (r : Z) (ratings : list Z) : nat :=
  length (filter (λ x, x = r) ratings).

(** No problem waiting in a bucket has been picked, and no two of them
    share a key. *)
Definition pools_unused (st : sel_state) : Prop :=
  NoDup (key <$> all_pools (buckets st))
  ∧ ∀ p, p ∈ all_pools (buckets st) → key p ∉ used_keys st.

(** The address asked for [path] at the host [base] (line 60). *)
Definition url_of (path base : string) : string := base +:+ "/" +:+ path.

(** What one full round over the hosts does: the throttle, one request
    per host, the backoff sleep. *)
Definition round_events (path : string) (hosts : list string) (i : nat) : list event :=
  Throttle :: (Get ∘ url_of path <$> hosts) ++ [Sleep i].

(** A float that is neither a NaN nor below zero: its sign bit is off. *)
Definition float_nonnegative (f : spec_float) : Prop :=
  match f with
  | S754_zero s | S754_infinity s | S754_finite s _ _ => s = false
  | S754_nan => False
  end.

(** A contest that gets an entry in the metadata: not a gym contest,
    with an id and a start time that are there and not 0. *)
Definition listed (c : Contest) (cid ts : Z) : Prop :=
  c_gym c ≠ Some true ∧ c_id c = Some cid ∧ cid ≠ 0
  ∧ c_startTimeSeconds c = Some ts ∧ ts ≠ 0.

(** The problem [q] of the selector is the catalogue entry [p]. *)
Definition same_problem (p : ApiProblem) (q : Problem) : Prop :=
  ap_contestId p = Some (contestId q) ∧ ap_index p = Some (index q)
  ∧ ap_rating p = Some (rating q) ∧ ap_name p = name q ∧ ap_tags p = tags q.

(** What lines 164-174 ask of a problem that is kept. *)
Definition passes_filter (meta : gmap Z ContestMeta) (ratings_set : gset Z)
    (year_min year_max : Z) (exclude_name_patterns : list string)
    (exclude_contest_ids : list Z) (q : Problem) : Prop :=
  contestId q ≠ 0 ∧ index q ≠ "" ∧ rating q ∈ ratings_set
  ∧ (contestId q ∉ exclude_contest_ids)
  ∧ (∃ m, meta !! (contestId q) = Some m
          ∧ (year_min ≤ meta_year m ≤ year_max)
          ∧ (∀ pat, pat ∈ exclude_name_patterns → pat ≠ "" →
               PyStr.contains (PyStr.lower pat) (PyStr.lower (meta_name m)) = false)).

(** The text has the character [/] in it. *)
Fixpoint has_slash (s : string) : bool :=
  match s with
  | EmptyString => false
  | String c s' => Ascii.eqb c "/" || has_slash s'
  end.

(** The key [k] was seen in a batch of the log: some submission of some
    returned batch has the contest id [k.1] and the index [k.2], neither
    of them 0 or empty. *)
Definition seen_in (log : list page_request) (k : Z * string) : Prop :=
  ∃ req batch sub,
    req ∈ log ∧ req_result req = Batch batch ∧ sub ∈ batch
    ∧ sub_contestId sub = Some k.1 ∧ sub_index sub = Some k.2
    ∧ k.1 ≠ 0 ∧ k.2 ≠ "".

(** The request went through. *)
Definition answered (req : page_request) : Prop :=
  ∃ batch, req_result req = Batch batch.

(** How the loop over the pages of one handle ends. *)
Definition pages_outcome (h : string) (attempted : gset (Z * string))
    (new : list page_request) (res : attempted_result) : Prop :=
  match res with
  | Attempted attempted' =>
      Forall answered new
      ∧ ∀ k, k ∈ attempted' ↔ k ∈ attempted ∨ seen_in new k
  | InvalidHandle h' msg =>
      h' = h ∧ names_bad_handle msg = true
      ∧ ∃ earlier from,
          new = earlier ++ [mkRequest h from (Failed msg)] ∧ Forall answered earlier
  | Reraised msg =>
      names_bad_handle msg = false
      ∧ ∃ earlier from,
          new = earlier ++ [mkRequest h from (Failed msg)] ∧ Forall answered earlier
  end.

(** * Data for the examples *)

Definition pA1 := mkProblem 1 "A" 1200 "one" (Some ["dp"; "Math"]).
Definition pB1 := mkProblem 1 "B" 1200 "two" (Some ["greedy"]).
Definition pC1 := mkProblem 1 "C" 1200 "three" None.
Definition pA2 := mkProblem 2 "A" 1300 "four" (Some ["dp"]).


(** Conversions to run the configuration loader with: decimal integers
    are read from text (an optional minus sign, then digits, blanks
    around them ignored), a float is read from such a text too; [str] is
    given for the scalars. *)
Fixpoint digits_value (s : string) (acc : Z) : option Z :=
  match s with
  | EmptyString => Some acc
  | String c s' =>
      let n := nat_of_ascii c in
      if ((48 <=? n) && (n <=? 57))%nat
      then digits_value s' (10 * acc + (Z.of_nat n - 48))
      else None
  end.

Definition decimal_int (s : string) : option Z :=
  match PyStr.strip s with
  | EmptyString => None
  | String "-" EmptyString => None
  | String "-" d => Z.opp <$> digits_value d 0
  | d => digits_value d 0
  end.

Definition scalar_text (v : json) : string :=
  match v with
  | JNull => "None"
  | JBool true => "True"
  | JBool false => "False"
  | JInt z => pretty z
  | JStr s => s
  | JFloat _ => "<float>"
  | JArr _ => "<list>"
  | JObj _ => "<dict>"
  end.

#[export] Instance decimal_text : PyText := {|
  int_of_str := decimal_int;
  float_of_str s := decimal_int s ≫= float_of_int;
  str_of := scalar_text
|}.

(** A small configuration document. *)
Definition cfg_base : list (string * json) :=
  [("handles", JArr [JStr " tourist "; JStr "Petr"]);
   ("ratings", JArr [JInt 1200; JStr "1200"; JInt 1300]);
   ("year_min", JInt 2019);
   ("year_max", JInt 2024);
   ("distinct_contest", JBool true)].

(** What [load_config] returns for [cfg_base]. *)
Definition cfg_base_loaded : Config :=
  {| cfg_handles := ["tourist"; "Petr"];
     cfg_ratings_list := [1200; 1200; 1300];
     cfg_year_min := JInt 2019;
     cfg_year_max := JInt 2024;
     cfg_distinct_contest := true;
     cfg_distinct_tags := false;
     cfg_tag_caps := [];
     cfg_seed := JNull;
     cfg_prefer_ipv4 := false;
     cfg_cookie_file := JNull;
     cfg_min_interval := RATE_MIN_INTERVAL;
     cfg_verbose := false;
     cfg_timeout := 45;
     cfg_page_size := 500;
     cfg_api_hosts := JNull;
     cfg_max_pages_per_user := None;
     cfg_exclude_name_patterns := [];
     cfg_exclude_contest_ids := [] |}.

(** [cfg_base] with a cap of 2 on "DP" and a cap of 0 on "graphs". *)
Definition cfg_bad_cap : list (string * json) :=
  dict_set "tag_caps" (JObj [("DP", JInt 2); ("graphs", JInt 0)]) cfg_base.

(** A remote whose first answer is a challenge page and whose later
    answers are an empty contest list. *)
Definition challenge_then_ok (n : nat) (url : string) : http_result :=
  match n with
  | O => HttpResponse {| content_type := Some "text/html; charset=utf-8";
                         text := "  <!DOCTYPE html><html><body>Just a moment</body></html>";
                         body_json := None |}
  | _ => HttpResponse {| content_type := Some "application/json";
                         text := "";
                         body_json := Some (JObj [("status", JStr "OK");
                                                  ("result", JArr [])]) |}
  end.

(** The answer of the remote for a handle it does not know. *)
Definition unknown_handle_response : Response :=
  {| content_type := Some "application/json";
     text := "{}";
     body_json :=
       Some (JObj [("status", JStr "FAILED");
                   ("comment", JStr "handles: User with handle nosuchuser123 not found")]) |}.


(** The year of a time given in seconds since 1970, in the proleptic
    Gregorian calendar, within the years 1 to 9999 of the library. *)
Definition civil_year (ts : Z) : option Z :=
  let z := ts / 86400 + 719468 in
  let era := z / 146097 in
  let doe := z - era * 146097 in
  let yoe := (doe - doe / 1460 + doe / 36524 - doe / 146096) / 365 in
  let doy := doe - (365 * yoe + yoe / 4 - yoe / 100) in
  let mp := (5 * doy + 2) / 153 in
  let y := yoe + era * 400 + (if mp <? 10 then 0 else 1) in
  if (1 <=? y) && (y <=? 9999) then Some y else None.

#[export] Instance gregorian_clock : PyClock := {| utc_year := civil_year |}.

(** Four contests: two rounds, a gym contest, a round without start. *)
Definition contests_ex : list Contest :=
  [mkContest (Some false) (Some 1) (Some 1577880000) (Some "Good Bye 2019");
   mkContest None (Some 2) (Some 1700000000) (Some "Educational Round 157");
   mkContest (Some true) (Some 100001) (Some 1600000000) (Some "Gym Cup");
   mkContest (Some false) (Some 3) None (Some "Upcoming Round")].

Definition meta_ex : gmap Z ContestMeta :=
  <[2 := mkMeta 2023 "Educational Round 157"]>
    (<[1 := mkMeta 2020 "Good Bye 2019"]> ∅).

(** The catalogue the problems [pA1], [pB1], [pC1] and [pA2] come from,
    with an entry without rating. *)
Definition catalogue_ex : list ApiProblem :=
  [mkApiProblem (Some 1) (Some "A") (Some 1200) "one" (Some ["dp"; "Math"]);
   mkApiProblem (Some 1) (Some "B") (Some 1200) "two" (Some ["greedy"]);
   mkApiProblem (Some 2) (Some "Z") None "unrated" None;
   mkApiProblem (Some 1) (Some "C") (Some 1200) "three" None;
   mkApiProblem (Some 2) (Some "A") (Some 1300) "four" (Some ["dp"])].

(** A remote for the submission history: the requests made so far are
    counted; "tourist" has three submissions, served two to a page;
    any other handle is unknown. *)
Definition history_ex (h : string) (from count : Z) (w : nat) : page_result * nat :=
  (if String.eqb h "tourist" then
     if from =? 1 then Batch [mkSubmission (Some 1) (Some "C");
                              mkSubmission (Some 7) (Some "A")]
     else if from =? 3 then Batch [mkSubmission (Some 1) (Some "C")]
     else Batch []
   else Failed ("user.status: exhausted retries; last error: user.status: "
                +:+ "handles: User with handle " +:+ h +:+ " not found"),
   S w).

(** A remote that always has a full page of two submissions. *)
Definition history_full (h : string) (from count : Z) (w : nat) : page_result * nat :=
  (Batch [mkSubmission (Some 1) (Some "C"); mkSubmission (Some 7) (Some "A")], S w).

(** [cfg_base] with two caps that meet after lowercasing. *)
Definition cfg_caps : list (string * json) :=
  dict_set "tag_caps" (JObj [("DP", JInt 2); ("dp", JInt 3)]) cfg_base.

(** What [load_config] returns for [cfg_caps]. *)
Definition cfg_caps_loaded : Config :=
  {| cfg_handles := ["tourist"; "Petr"];
     cfg_ratings_list := [1200; 1200; 1300];
     cfg_year_min := JInt 2019;
     cfg_year_max := JInt 2024;
     cfg_distinct_contest := true;
     cfg_distinct_tags := false;
     cfg_tag_caps := [("dp", 3)];
     cfg_seed := JNull;
     cfg_prefer_ipv4 := false;
     cfg_cookie_file := JNull;
     cfg_min_interval := RATE_MIN_INTERVAL;
     cfg_verbose := false;
     cfg_timeout := 45;
     cfg_page_size := 500;
     cfg_api_hosts := JNull;
     cfg_max_pages_per_user := None;
     cfg_exclude_name_patterns := [];
     cfg_exclude_contest_ids := [] |}.

(** A remote that answers with a JSON list where an object is due. *)
Definition list_body_response : Response :=
  {| content_type := Some "application/json"; text := "[]";
     body_json := Some (JArr []) |}.

(** A remote that is busy. *)
Definition busy_response : Response :=
  {| content_type := Some "application/json"; text := "";
     body_json := Some (JObj [("status", JStr "FAILED");
                              ("comment", JStr "Call limit exceeded")]) |}.

(** A generator to run the selector with: the state is a counter,
    shuffling rotates the list by the counter and advances it. *)
Definition rotate_by (n : nat) (l : list Problem) : list Problem :=
  drop (n `mod` length l) l ++ take (n `mod` length l) l.

Lemma rotate_by_perm n l : rotate_by n l ≡ₚ l.
Proof.
  unfold rotate_by. rewrite Permutation_app_comm. by rewrite take_drop.
Qed.

#[export] Instance rotating_random : PyRandom nat := {|
  random_seed := Z.to_nat;
  random_shuffle g l := (rotate_by g l, S g);
  random_shuffle_perm g l := rotate_by_perm g l
|}.


(** * Properties of the constrained selector *)

Section BucketFacts.
Context (P : Z → Problem → Prop).

Lemma setdefault_append_inv r p bs :
  P r p → bucket_inv P bs → bucket_inv P (setdefault_append r p bs).
Proof.
  intros Hp. unfold bucket_inv. induction 1 as [|[k b] rest Hb Hrest IH]; simpl.
  - repeat constructor. exact Hp.
  - case_decide as Hk.
    + subst k. constructor; [|done]. simpl in *.
      apply Forall_app. split; [done|]. by constructor.
    + by constructor.
Qed.

Lemma make_buckets_inv fresh :
  Forall (λ p, P (rating p) p) fresh → bucket_inv P (make_buckets fresh).
Proof.
  unfold make_buckets.
  assert (Hgen : ∀ bs, bucket_inv P bs →
            Forall (λ p, P (rating p) p) fresh →
            bucket_inv P (foldl (λ bs p, setdefault_append (rating p) p bs) bs fresh)).
  { induction fresh as [|p fresh IH]; intros bs Hbs Hall; simpl; [done|].
    inversion Hall; subst. apply IH; [|done].
    by apply setdefault_append_inv. }
  apply Hgen. constructor.
Qed.

Lemma shuffle_all_inv {G} `{PyRandom G} (g : G) bs :
  bucket_inv P bs → bucket_inv P (shuffle_all g bs).1.
Proof.
  unfold bucket_inv. intros Hbs. revert g.
  induction Hbs as [|[k b] rest Hb Hrest IH]; intros g; simpl; [constructor|].
  pose proof (random_shuffle_perm g b) as Hperm.
  destruct (random_shuffle g b) as [b' g'] eqn:Hsh. simpl in Hperm.
  specialize (IH g'). destruct (shuffle_all g' rest) as [rest' g''].
  simpl in *. constructor; [|done]. simpl. by rewrite Hperm.
Qed.

Lemma bucket_get_inv r bs b :
  bucket_inv P bs → bucket_get r bs = Some b → Forall (P r) b.
Proof.
  unfold bucket_inv. induction 1 as [|[k b0] rest Hb Hrest IH]; simpl; [done|].
  case_decide as Hk; [|done]. intros [= <-]. by subst k.
Qed.

Lemma bucket_put_inv r b' bs :
  Forall (P r) b' → bucket_inv P bs → bucket_inv P (bucket_put r b' bs).
Proof.
  intros Hb'. unfold bucket_inv.
  induction 1 as [|[k b0] rest Hb Hrest IH]; simpl; [constructor|].
  case_decide as Hk; constructor; try done. by subst k.
Qed.
End BucketFacts.

Section SelectorFacts.
Context (distinct_contest distinct_tags : bool) (tag_caps : gmap string Z).

Abbreviation rejects := (rejects distinct_contest distinct_tags tag_caps).
Abbreviation scan := (scan distinct_contest distinct_tags tag_caps).
Abbreviation pop_until := (pop_until distinct_contest distinct_tags tag_caps).
Abbreviation step := (step distinct_contest distinct_tags tag_caps).
Abbreviation run := (run distinct_contest distinct_tags tag_caps).
Abbreviation run_state := (run_state distinct_contest distinct_tags tag_caps).
Abbreviation detail := (detail distinct_contest distinct_tags tag_caps).

Lemma scan_some st stack cand below :
  scan st stack = (Some cand, below) →
  rejects st cand = false ∧ ∃ skipped, stack = skipped ++ cand :: below.
Proof.
  revert cand below. induction stack as [|c stack IH]; intros cand below; simpl; [done|].
  destruct (rejects st c) eqn:Hrej.
  - intros Hs. destruct (IH _ _ Hs) as [? [sk ->]]. split; [done|].
    by exists (c :: sk).
  - intros [= <- <-]. split; [done|]. by exists [].
Qed.

Lemma scan_none st stack below :
  scan st stack = (None, below) →
  below = [] ∧ Forall (λ c, rejects st c = true) stack.
Proof.
  revert below. induction stack as [|c stack IH]; intros below; simpl.
  - intros [= <-]. by split.
  - destruct (rejects st c) eqn:Hrej; [|done].
    intros Hs. destruct (IH _ Hs) as [-> ?]. split; [done|]. by constructor.
Qed.

Lemma scan_all_rejected st stack :
  Forall (λ c, rejects st c = true) stack → scan st stack = (None, []).
Proof.
  induction 1 as [|c stack Hc _ IH]; simpl; [done|]. by rewrite Hc.
Qed.

(** The pool after the loop is a prefix of the pool before it, the
    chosen candidate stood right behind that prefix, and everything
    behind the chosen candidate was rejected and is gone. *)
Lemma pop_until_some st pool cand pool' :
  pop_until st pool = (Some cand, pool') →
  rejects st cand = false ∧ ∃ popped, pool = pool' ++ cand :: popped.
Proof.
  unfold pop_until. destruct (scan st (rev pool)) as [ch below] eqn:Hs.
  intros [= -> <-]. destruct (scan_some _ _ _ _ Hs) as [Hrej [sk Hrev]].
  split; [done|]. exists (rev sk).
  rewrite <- (rev_involutive pool), Hrev, rev_app_distr. simpl.
  by rewrite <- app_assoc.
Qed.

Lemma pop_until_none st pool pool' :
  pop_until st pool = (None, pool') ↔ pool' = [] ∧ Forall (λ c, rejects st c = true) pool.
Proof.
  unfold pop_until. destruct (scan st (rev pool)) as [ch below] eqn:Hs. split.
  - intros [= -> <-]. destruct (scan_none _ _ _ Hs) as [-> Hall]. split; [done|].
    rewrite <- (rev_involutive pool). by apply Forall_rev.
  - intros [-> Hall]. rewrite scan_all_rejected in Hs by (by apply Forall_rev).
    by injection Hs as <- <-.
Qed.

(** What one successful iteration does to the state. *)
Lemma step_some st r st' :
  step st r = Some st' →
  ∃ cand pool' popped,
    default [] (bucket_get r (buckets st)) = pool' ++ cand :: popped
    ∧ rejects st cand = false
    ∧ st' = {| buckets := bucket_put r pool' (buckets st);
               picked := picked st ++ [cand];
               used_keys := used_keys st ∪ {[ key cand ]};
               used_contests :=
                 if distinct_contest
                 then used_contests st ∪ {[ contestId cand ]}
                 else used_contests st;
               tag_counts := bump (tags_lower cand) (tag_counts st) |}.
Proof.
  unfold step.
  destruct (pop_until st (default [] (bucket_get r (buckets st))))
    as [[cand|] pool'] eqn:Hpop; [|done].
  intros [= <-]. destruct (pop_until_some _ _ _ _ Hpop) as [Hrej [popped Hpool]].
  by exists cand, pool', popped.
Qed.

Lemma step_none st r :
  step st r = None ↔
  Forall (λ c, rejects st c = true) (default [] (bucket_get r (buckets st))).
Proof.
  unfold step.
  destruct (pop_until st (default [] (bucket_get r (buckets st))))
    as [[cand|] pool'] eqn:Hpop.
  - split; [done|]. intros Hall.
    assert (pop_until st (default [] (bucket_get r (buckets st))) = (None, []))
      as Hn by (by apply pop_until_none).
    congruence.
  - split; [|done]. intros _. by apply pop_until_none in Hpop as [_ ?].
Qed.

(** Every pick comes out of the bucket of its own rating. *)
Lemma step_bucket_inv (P : Z → Problem → Prop) st r st' :
  bucket_inv P (buckets st) → step st r = Some st' →
  bucket_inv P (buckets st') ∧ ∃ cand, picked st' = picked st ++ [cand] ∧ P r cand.
Proof.
  intros Hinv Hstep.
  destruct (step_some _ _ _ Hstep) as (cand & pool' & popped & Hpool & _ & ->).
  simpl. destruct (bucket_get r (buckets st)) as [b|] eqn:Hget; simpl in Hpool.
  - pose proof (bucket_get_inv P _ _ _ Hinv Hget) as Hb. subst b.
    apply Forall_app in Hb as [Hpre Hrest]. inversion Hrest; subst.
    split; [by apply bucket_put_inv|]. by exists cand.
  - by destruct pool'.
Qed.

Lemma run_bucket_inv (P : Z → Problem → Prop) ratings : ∀ st picks,
  bucket_inv P (buckets st) → run st ratings = Picked picks →
  ∃ new, picks = picked st ++ new ∧ Forall2 P ratings new.
Proof.
  induction ratings as [|r ratings IH]; intros st picks Hinv; simpl.
  - intros [= <-]. exists []. rewrite app_nil_r. by split.
  - destruct (step st r) as [st'|] eqn:Hstep; [|done]. intros Hrun.
    destruct (step_bucket_inv P _ _ _ Hinv Hstep) as [Hinv' (cand & Hpicked & Hcand)].
    destruct (IH _ _ Hinv' Hrun) as (new & -> & Hnew).
    exists (cand :: new). rewrite Hpicked, <- app_assoc. split; [done|].
    by constructor.
Qed.

(** [run] on a list of ratings split in two. *)
Lemma run_app pre : ∀ st post,
  run st (pre ++ post) =
  match run_state st pre with
  | Some st' => run st' post
  | None => run st pre
  end.
Proof.
  induction pre as [|r pre IH]; intros st post; simpl; [done|].
  destruct (step st r) as [st'|]; [|done]. apply IH.
Qed.

End SelectorFacts.

(** Every pick is an unattempted candidate taken from the bucket of the
    rating it was picked for. *)
Lemma picks_from_buckets {G} `{PyRandom G} (g : G) candidates attempted_set
    ratings_ordered distinct_contest distinct_tags tag_caps seed picks g' :
  pick_strict_order g candidates attempted_set ratings_ordered
    distinct_contest distinct_tags tag_caps seed = (Picked picks, g') →
  Forall2 (λ r p, rating p = r ∧ p ∈ candidates ∧ key p ∉ attempted_set)
          ratings_ordered picks.
Proof.
  unfold pick_strict_order, prepare.
  set (g1 := match seed with Some s => random_seed s | None => g end).
  set (P := λ (r : Z) (p : Problem),
              rating p = r ∧ p ∈ candidates ∧ key p ∉ attempted_set).
  pose proof (shuffle_all_inv P g1 (make_buckets (fresh_of candidates attempted_set)))
    as Hsh.
  destruct (shuffle_all g1 (make_buckets (fresh_of candidates attempted_set)))
    as [bs g2]. simpl in Hsh.
  intros [= Hrun <-].
  assert (Hbs : bucket_inv P bs).
  { apply Hsh, make_buckets_inv. apply Forall_forall. intros p Hp.
    apply list_elem_of_filter in Hp as [Hfresh Hin]. by repeat split. }
  destruct (run_bucket_inv _ _ _ P _ (init_state bs) _ Hbs Hrun) as (new & -> & Hnew).
  done.
Qed.

(** ** Counting tags *)

Lemma count_of_insert (tc : gmap string Z) a v t :
  count_of (<[a := v]> tc) t = if decide (a = t) then v else count_of tc t.
Proof.
  unfold count_of. rewrite lookup_insert. by case_decide.
Qed.

Lemma count_of_bump tl : ∀ tc t,
  NoDup tl →
  count_of (bump tl tc) t = count_of tc t + (if decide (t ∈ tl) then 1 else 0).
Proof.
  unfold bump. induction tl as [|a tl IH]; intros tc t Hnd; cbn [foldl].
  - case_decide as Hin; [by apply not_elem_of_nil in Hin|lia].
  - apply NoDup_cons in Hnd as [Ha Hnd]. rewrite IH by done.
    rewrite count_of_insert.
    destruct (decide (a = t)) as [->|Hne].
    + destruct (decide (t ∈ tl)) as [|_]; [done|].
      destruct (decide (t ∈ t :: tl)) as [_|Hn]; [lia|].
      exfalso. apply Hn, list_elem_of_here.
    + destruct (decide (t ∈ tl)) as [Hin|Hnin].
      * destruct (decide (t ∈ a :: tl)) as [_|Hn]; [done|].
        exfalso. by apply Hn, list_elem_of_further.
      * destruct (decide (t ∈ a :: tl)) as [[->|?]%elem_of_cons|_]; done.
Qed.

Lemma tags_lower_NoDup p : NoDup (tags_lower p).
Proof. apply NoDup_remove_dups. Qed.

Lemma tag_occurrences_nil t : tag_occurrences t [] = 0.
Proof. done. Qed.

Lemma tag_occurrences_snoc t picks p :
  tag_occurrences t (picks ++ [p]) =
  tag_occurrences t picks + (if decide (t ∈ tags_lower p) then 1 else 0).
Proof.
  unfold tag_occurrences. rewrite filter_app, length_app, Nat2Z.inj_add.
  f_equal. rewrite filter_cons, filter_nil. by case_decide.
Qed.

(** The order in which the tags of a candidate are visited (the order of
    iteration of a Python [set]) changes neither the counts nor the
    verdict of [violates_tag_rules]. *)
Lemma bump_perm tl1 tl2 tc :
  NoDup tl1 → tl1 ≡ₚ tl2 → bump tl1 tc = bump tl2 tc.
Proof.
  intros Hnd Hperm. apply map_eq. intros t.
  assert (Hnd2 : NoDup tl2) by (by rewrite <- Hperm).
  pose proof (count_of_bump tl1 tc t Hnd) as H1.
  pose proof (count_of_bump tl2 tc t Hnd2) as H2.
  assert (Hdom : ∀ tl, bump tl tc !! t = None ↔ (tc !! t = None ∧ t ∉ tl)).
  { clear. unfold bump. intros tl. revert tc.
    induction tl as [|a tl IH]; intros tc; simpl.
    - split; [intros ?; split; [done|apply not_elem_of_nil]|by intros [? _]].
    - rewrite IH, lookup_insert, not_elem_of_cons.
      case_decide; [subst|]; intuition congruence. }
  destruct (bump tl1 tc !! t) as [v1|] eqn:E1, (bump tl2 tc !! t) as [v2|] eqn:E2.
  - unfold count_of in H1, H2. rewrite E1 in H1. rewrite E2 in H2. simpl in *.
    f_equal. rewrite H1, H2. f_equal.
    destruct (decide (t ∈ tl1)) as [Hin|Hnin].
    + rewrite decide_True; [done|]. by rewrite <- Hperm.
    + rewrite decide_False; [done|]. by rewrite <- Hperm.
  - apply Hdom in E2 as [Htc Hn]. rewrite <- Hperm in Hn.
    assert (bump tl1 tc !! t = None) by (by apply Hdom). congruence.
  - apply Hdom in E1 as [Htc Hn]. rewrite Hperm in Hn.
    assert (bump tl2 tc !! t = None) by (by apply Hdom). congruence.
  - done.
Qed.

Lemma violates_tag_rules_perm distinct_tags tag_caps tc tl1 tl2 :
  tl1 ≡ₚ tl2 →
  violates_tag_rules distinct_tags tag_caps tc tl1
  = violates_tag_rules distinct_tags tag_caps tc tl2.
Proof.
  intros Hperm. unfold violates_tag_rules.
  assert (Hex : ∀ f : string → bool, existsb f tl1 = existsb f tl2).
  { intros f. apply eq_true_iff_eq. rewrite !existsb_exists.
    split; intros (x & Hx & Hf); exists x; split; try done.
    - apply list_elem_of_In. rewrite <- Hperm. by apply list_elem_of_In.
    - apply list_elem_of_In. rewrite Hperm. by apply list_elem_of_In. }
  by rewrite !Hex.
Qed.

(** ** The invariant of the loop is kept *)

Lemma existsb_false {A} (f : A → bool) (l : list A) x :
  existsb f l = false → x ∈ l → f x = false.
Proof.
  intros Hex Hx. destruct (f x) eqn:Hfx; [|done].
  assert (existsb f l = true) as Ht; [|congruence].
  apply existsb_exists. exists x. split; [by apply list_elem_of_In|done].
Qed.

Lemma violates_tag_rules_false distinct_tags tag_caps tc tl :
  violates_tag_rules distinct_tags tag_caps tc tl = false →
  (distinct_tags = true → ∀ t, t ∈ tl → count_of tc t < 1)
  ∧ (∀ t c, t ∈ tl → tag_caps !! t = Some c → count_of tc t < c).
Proof.
  unfold violates_tag_rules.
  destruct (distinct_tags && existsb (λ t, 1 <=? count_of tc t) tl) eqn:Hdt; [done|].
  intros Hcaps. split.
  - intros ->. simpl in Hdt. intros t Ht.
    pose proof (existsb_false _ _ _ Hdt Ht) as Hf. simpl in Hf. lia.
  - intros t c Ht Hc.
    pose proof (existsb_false _ _ _ Hcaps Ht) as Hf. simpl in Hf.
    rewrite Hc in Hf. lia.
Qed.

Lemma init_state_inv distinct_contest distinct_tags tag_caps bs :
  (∀ t c, tag_caps !! t = Some c → 1 ≤ c) →
  sel_inv distinct_contest distinct_tags tag_caps (init_state bs).
Proof.
  intros Hcaps. split; simpl.
  - constructor.
  - intros k. rewrite elem_of_nil. set_solver.
  - intros _. split; [constructor|]. intros c. rewrite elem_of_nil. set_solver.
  - intros t. by rewrite tag_occurrences_nil.
  - intros t c Hc. rewrite tag_occurrences_nil. specialize (Hcaps _ _ Hc). lia.
  - intros _ t. rewrite tag_occurrences_nil. lia.
Qed.

Lemma NoDup_snoc_fresh {A} (l : list A) x : NoDup l → x ∉ l → NoDup (l ++ [x]).
Proof.
  intros Hnd Hx. apply NoDup_app. split; [done|]. split.
  - intros y Hy ->%list_elem_of_singleton. done.
  - apply NoDup_singleton.
Qed.

Lemma step_inv distinct_contest distinct_tags tag_caps st r st' :
  sel_inv distinct_contest distinct_tags tag_caps st →
  step distinct_contest distinct_tags tag_caps st r = Some st' →
  sel_inv distinct_contest distinct_tags tag_caps st'.
Proof.
  intros [Hnd Hkeys Hcon Hcnt Hcap Hdt] Hstep.
  destruct (step_some _ _ _ _ _ _ Hstep) as (cand & pool' & popped & _ & Hrej & ->).
  unfold rejects in Hrej.
  apply orb_false_iff in Hrej as [Hrej Hviol].
  apply orb_false_iff in Hrej as [Hkey Hcontest].
  apply bool_decide_eq_false in Hkey.
  apply violates_tag_rules_false in Hviol as [Hv1 Hv2].
  assert (Hocc : ∀ t, tag_occurrences t (picked st ++ [cand])
                      = count_of (tag_counts st) t
                        + (if decide (t ∈ tags_lower cand) then 1 else 0)).
  { intros t. by rewrite tag_occurrences_snoc, Hcnt. }
  split; simpl.
  - rewrite fmap_app. apply NoDup_snoc_fresh; [done|]. by rewrite <- Hkeys.
  - intros k. rewrite fmap_app, elem_of_app, elem_of_union, Hkeys. simpl.
    by rewrite elem_of_singleton, list_elem_of_singleton.
  - intros ->. destruct (Hcon eq_refl) as [Hndc Hused]. simpl in Hcontest.
    apply bool_decide_eq_false in Hcontest. split.
    + rewrite fmap_app. apply NoDup_snoc_fresh; [done|]. by rewrite <- Hused.
    + intros c. rewrite fmap_app, elem_of_app, elem_of_union, Hused. simpl.
      by rewrite elem_of_singleton, list_elem_of_singleton.
  - intros t. rewrite Hocc. apply count_of_bump, tags_lower_NoDup.
  - intros t c Hc. rewrite Hocc.
    destruct (decide (t ∈ tags_lower cand)) as [Hin|Hnin].
    + specialize (Hv2 _ _ Hin Hc). lia.
    + rewrite Hcnt. specialize (Hcap _ _ Hc). lia.
  - intros -> t. rewrite Hocc.
    destruct (decide (t ∈ tags_lower cand)) as [Hin|Hnin].
    + specialize (Hv1 eq_refl _ Hin). lia.
    + rewrite Hcnt. specialize (Hdt eq_refl t). lia.
Qed.

Lemma run_inv distinct_contest distinct_tags tag_caps ratings : ∀ st picks,
  sel_inv distinct_contest distinct_tags tag_caps st →
  run distinct_contest distinct_tags tag_caps st ratings = Picked picks →
  ∃ st', picked st' = picks ∧ sel_inv distinct_contest distinct_tags tag_caps st'.
Proof.
  induction ratings as [|r ratings IH]; intros st picks Hinv; simpl.
  - intros [= <-]. by exists st.
  - destruct (step distinct_contest distinct_tags tag_caps st r) as [st'|] eqn:Hstep;
      [|done].
    apply IH. by eapply step_inv.
Qed.

(** Every cap that survives line 191 is at least 1. *)
Lemma normalize_caps_ge_1 tag_caps t c :
  normalize_caps tag_caps !! t = Some c → 1 ≤ c.
Proof.
  unfold normalize_caps.
  assert (Hgen : ∀ (l : list (string * Z)) (m : gmap string Z),
            (∀ t c, m !! t = Some c → 1 ≤ c) →
            ∀ t c, foldl (λ (m : gmap string Z) (kv : string * Z),
                     if 1 <=? kv.2 then <[PyStr.lower kv.1 := kv.2]> m else m) m l
                   !! t = Some c → 1 ≤ c).
  { induction l as [|[k v] l IH]; intros m Hm; simpl; [done|].
    apply IH. destruct (1 <=? v) eqn:Hv; [|done].
    intros t' c'. rewrite lookup_insert. case_decide; [|by apply Hm].
    intros [= <-]. lia. }
  apply Hgen. intros t' c'. by rewrite lookup_empty.
Qed.

(** * The selector: the properties claimed of [pick_strict_order] *)

Lemma Forall2_Forall_right {A B} (P : A → B → Prop) (Q : B → Prop) l k :
  (∀ x y, P x y → Q y) → Forall2 P l k → Forall Q k.
Proof. intros HPQ. induction 1; constructor; eauto. Qed.

(** The cap table of line 191 holds every entry of the argument whose
    value is at least 1, under its lowercased key, when no two keys of
    the argument collide after lowercasing. *)
Lemma normalize_caps_lookup (l : list (string * Z)) k c :
  NoDup (PyStr.lower <$> l.*1) → (k, c) ∈ l → 1 ≤ c →
  normalize_caps (Some l) !! PyStr.lower k = Some c.
Proof.
  unfold normalize_caps. simpl.
  set (f := λ (m : gmap string Z) (kv : string * Z),
              if 1 <=? kv.2 then <[PyStr.lower kv.1 := kv.2]> m else m).
  assert (Hkeep : ∀ (l : list (string * Z)) (m : gmap string Z) t,
            t ∉ PyStr.lower <$> l.*1 → foldl f m l !! t = m !! t).
  { clear. intros l. induction l as [|[k v] l IH]; intros m t Ht; simpl; [done|].
    simpl in Ht. apply not_elem_of_cons in Ht as [Hne Ht].
    rewrite IH by done. unfold f. simpl. destruct (1 <=? v); [|done].
    by rewrite lookup_insert_ne. }
  intros Hnd Hin Hc. generalize (∅ : gmap string Z) as m.
  induction l as [|[k0 v0] l IH]; intros m; simpl.
  - by apply elem_of_nil in Hin.
  - simpl in Hnd. apply NoDup_cons in Hnd as [Hk0 Hnd].
    apply elem_of_cons in Hin as [[= <- <-]|Hin].
    + rewrite Hkeep by done. unfold f. simpl.
      replace (1 <=? c) with true by (symmetry; apply Z.leb_le; lia).
      apply lookup_insert_eq.
    + by apply IH.
Qed.

(** C1, the selection invariants of a successful run: no key is picked
    twice; under [distinct_contest] no contest is picked twice; under
    [distinct_tags] no lowercase tag is carried by two picks; and every
    cap in force -- an entry of [tag_caps] with a value of at least 1,
    under its lowercased key -- bounds the number of picks that carry its
    tag.  The last part is given for the cap table of line 191 and for the
    entries of the argument itself. *)
Theorem pick_strict_order_invariants {G} `{PyRandom G} (g : G) candidates
    attempted_set ratings_ordered distinct_contest distinct_tags tag_caps seed
    picks g' :
  pick_strict_order g candidates attempted_set ratings_ordered
    distinct_contest distinct_tags tag_caps seed = (Picked picks, g') →
  NoDup (key <$> picks)
  ∧ (distinct_contest = true → NoDup (contestId <$> picks))
  ∧ (distinct_tags = true → ∀ t, tag_occurrences t picks ≤ 1)
  ∧ (∀ t c, normalize_caps tag_caps !! t = Some c → tag_occurrences t picks ≤ c)
  ∧ (∀ l k c, tag_caps = Some l → NoDup (PyStr.lower <$> l.*1) →
       (k, c) ∈ l → 1 ≤ c → tag_occurrences (PyStr.lower k) picks ≤ c).
Proof.
  unfold pick_strict_order.
  destruct (prepare g candidates attempted_set seed) as [st0 g2] eqn:Hprep.
  intros [= Hrun <-].
  assert (Hst0 : ∃ bs, st0 = init_state bs).
  { unfold prepare in Hprep.
    destruct (shuffle_all _ _) as [bs g3] in Hprep. injection Hprep as <- _.
    by exists bs. }
  destruct Hst0 as [bs ->].
  pose proof (init_state_inv distinct_contest distinct_tags
                (normalize_caps tag_caps) bs (normalize_caps_ge_1 tag_caps)) as Hinit.
  destruct (run_inv _ _ _ _ _ _ Hinit Hrun) as (st' & <- & [Hnd _ Hcon _ Hcap Hdt]).
  split; [done|]. split; [by intros Hdc; apply Hcon|]. split; [done|].
  split; [done|].
  intros l k c -> Hl Hin Hc. apply Hcap. by apply normalize_caps_lookup.
Qed.

(** C2: no pick has its key in the attempted set. *)
Theorem picks_unattempted {G} `{PyRandom G} (g : G) candidates attempted_set
    ratings_ordered distinct_contest distinct_tags tag_caps seed picks g' :
  pick_strict_order g candidates attempted_set ratings_ordered
    distinct_contest distinct_tags tag_caps seed = (Picked picks, g') →
  Forall (λ p, key p ∉ attempted_set) picks.
Proof.
  intros Hpick. apply picks_from_buckets in Hpick.
  eapply Forall2_Forall_right; [|exact Hpick]. simpl. tauto.
Qed.

(** C3: with a seed, the outcome (the picks or the failure, and the state
    the generator is left in) is a function of the arguments alone: the
    state of the process-wide generator before the call plays no part. *)
Theorem pick_strict_order_seeded_deterministic {G} `{PyRandom G} (g1 g2 : G)
    candidates attempted_set ratings_ordered distinct_contest distinct_tags
    tag_caps (seed : Z) :
  pick_strict_order g1 candidates attempted_set ratings_ordered
    distinct_contest distinct_tags tag_caps (Some seed)
  = pick_strict_order g2 candidates attempted_set ratings_ordered
      distinct_contest distinct_tags tag_caps (Some seed).
Proof. reflexivity. Qed.

(** C4: when the ratings before [r] have found their problems and every
    candidate left in the bucket of [r] (none, for a bucket that is empty
    or missing) is rejected, the call fails at [r], whatever follows [r]
    in the list; the failure names [r] and exactly the constraints in
    force. *)
Theorem pick_fails_at_exhausted_rating {G} `{PyRandom G} (g : G) candidates
    attempted_set distinct_contest distinct_tags tag_caps seed
    pre r post st0 g2 st :
  prepare g candidates attempted_set seed = (st0, g2) →
  run_state distinct_contest distinct_tags (normalize_caps tag_caps) st0 pre = Some st →
  Forall (λ c, rejects distinct_contest distinct_tags (normalize_caps tag_caps) st c = true)
         (default [] (bucket_get r (buckets st))) →
  ∃ detail,
    pick_strict_order g candidates attempted_set (pre ++ r :: post)
      distinct_contest distinct_tags tag_caps seed = (NoAvailable r detail, g2)
    ∧ (DistinctContest ∈ detail ↔ distinct_contest = true)
    ∧ (NoTagRepetition ∈ detail ↔ distinct_tags = true)
    ∧ (∀ caps, TagCaps caps ∈ detail ↔
               caps = normalize_caps tag_caps ∧ normalize_caps tag_caps ≠ ∅).
Proof.
  intros Hprep Hpre Hall.
  exists (detail distinct_contest distinct_tags (normalize_caps tag_caps)).
  split.
  - unfold pick_strict_order. rewrite Hprep, run_app, Hpre. simpl.
    apply step_none in Hall. by rewrite Hall.
  - unfold detail.
    destruct distinct_contest, distinct_tags;
      (destruct (bool_decide (normalize_caps tag_caps ≠ ∅)) eqn:Hne;
       [apply bool_decide_eq_true in Hne | apply bool_decide_eq_false in Hne]);
      simpl; repeat split; intros;
      repeat match goal with
      | Hx : _ ∈ _ :: _ |- _ => apply elem_of_cons in Hx as [Hx|Hx]
      | Hx : _ ∈ [] |- _ => by apply elem_of_nil in Hx
      | Hx : _ ∧ _ |- _ => destruct Hx
      | Hx : TagCaps _ = TagCaps _ |- _ => injection Hx as ->
      end; subst; try done; try congruence;
      repeat constructor.
Qed.

(** C5: one pick per requested rating, in the order of the request. *)
Theorem picks_follow_ratings {G} `{PyRandom G} (g : G) candidates attempted_set
    ratings_ordered distinct_contest distinct_tags tag_caps seed picks g' :
  pick_strict_order g candidates attempted_set ratings_ordered
    distinct_contest distinct_tags tag_caps seed = (Picked picks, g') →
  length picks = length ratings_ordered
  ∧ rating <$> picks = ratings_ordered
  ∧ ∀ i r, ratings_ordered !! i = Some r →
           ∃ p, picks !! i = Some p ∧ rating p = r.
Proof.
  intros Hpick. apply picks_from_buckets in Hpick.
  split; [symmetry; by eapply Forall2_length|]. split.
  - induction Hpick as [|r p rs ps (Hr & _) _ IH]; [done|].
    by rewrite fmap_cons, Hr, IH.
  - intros i r Hi.
    destruct (Forall2_lookup_l _ _ _ _ _ Hpick Hi) as (p & Hp & Hr & _).
    by exists p.
Qed.

(** C9: entries of [tag_caps] below 1 are dropped without an error; the
    call does what it does without them. *)
Theorem pick_ignores_caps_below_one {G} `{PyRandom G} (g : G) candidates
    attempted_set ratings_ordered distinct_contest distinct_tags
    (caps : list (string * Z)) seed :
  pick_strict_order g candidates attempted_set ratings_ordered
    distinct_contest distinct_tags (Some caps) seed
  = pick_strict_order g candidates attempted_set ratings_ordered
      distinct_contest distinct_tags
      (Some (filter (λ kv, 1 ≤ kv.2) caps)) seed.
Proof.
  unfold pick_strict_order.
  replace (normalize_caps (Some (filter (λ kv, 1 ≤ kv.2) caps)))
    with (normalize_caps (Some caps)); [done|].
  unfold normalize_caps. simpl. generalize (∅ : gmap string Z) as m.
  induction caps as [|[k v] caps IH]; intros m; simpl; [done|].
  rewrite filter_cons. simpl. destruct (decide (1 ≤ v)) as [Hv|Hv].
  - simpl. replace (1 <=? v) with true by (symmetry; by apply Z.leb_le).
    apply IH.
  - replace (1 <=? v) with false by (symmetry; apply Z.leb_gt; lia).
    apply IH.
Qed.

(** ** The selector at work *)

(** C1 as worded fails for a cap below 1: the entry ["dp": 0] is dropped
    at line 191, the problem tagged [dp] is picked, and one pick carries
    a tag whose explicit cap is 0. *)
Lemma cap_below_one_is_exceeded :
  pick_strict_order 0%nat [pA1] ∅ [1200] false false (Some [("dp", 0)]) None
  = (Picked [pA1], 1%nat)
  ∧ ("dp", 0) ∈ [("dp", 0)]
  ∧ ¬ (tag_occurrences "dp" [pA1] ≤ 0).
Proof.
  split; [by vm_compute|]. split; [apply list_elem_of_here|].
  vm_compute. intros Hle. by apply Hle.
Qed.

Lemma pick_strict_order_invariants_witness :
  let picks := [pA2; pC1; pB1] in
  pick_strict_order 0%nat [pA1; pB1; pC1; pA2] ∅ [1300; 1200; 1200]
    false true (Some [("DP", 1)]) (Some 7) = (Picked picks, 9%nat)
  ∧ (NoDup (key <$> picks)
     ∧ (false = true → NoDup (contestId <$> picks))
     ∧ (true = true → ∀ t, tag_occurrences t picks ≤ 1)
     ∧ (∀ t c, normalize_caps (Some [("DP", 1)]) !! t = Some c →
               tag_occurrences t picks ≤ c)
     ∧ (∀ l k c, Some [("DP", 1)] = Some l → NoDup (PyStr.lower <$> l.*1) →
          (k, c) ∈ l → 1 ≤ c → tag_occurrences (PyStr.lower k) picks ≤ c)).
Proof.
  intros picks.
  assert (Hrun : pick_strict_order 0%nat [pA1; pB1; pC1; pA2] ∅ [1300; 1200; 1200]
                   false true (Some [("DP", 1)]) (Some 7) = (Picked picks, 9%nat))
    by (vm_compute; reflexivity).
  split; [exact Hrun|].
  exact (pick_strict_order_invariants _ _ _ _ _ _ _ _ _ _ Hrun).
Defined.

Lemma picks_unattempted_witness :
  let attempted : gset (Z * string) := {[ (1, "C") ]} in
  pick_strict_order 0%nat [pA1; pB1; pC1; pA2] attempted [1200; 1200; 1300]
    false false None (Some 7) = (Picked [pA1; pB1; pA2], 9%nat)
  ∧ Forall (λ p, key p ∉ attempted) [pA1; pB1; pA2].
Proof.
  intros attempted.
  assert (Hrun : pick_strict_order 0%nat [pA1; pB1; pC1; pA2] attempted
                   [1200; 1200; 1300] false false None (Some 7)
                 = (Picked [pA1; pB1; pA2], 9%nat))
    by (vm_compute; reflexivity).
  split; [exact Hrun|].
  exact (picks_unattempted _ _ _ _ _ _ _ _ _ _ Hrun).
Defined.

(** Without a seed the outcome does depend on the state of the generator. *)
Example unseeded_pick_depends_on_generator :
  pick_strict_order 0%nat [pA1; pB1; pC1] ∅ [1200] false false None None
  ≠ pick_strict_order 1%nat [pA1; pB1; pC1] ∅ [1200] false false None None.
Proof. vm_compute. discriminate. Qed.

(** Three problems of one contest at 1200, one problem at 1300, distinct
    contests asked for: the second 1200 slot fails, naming the rating and
    "distinct contest". *)
Lemma pick_fails_at_exhausted_rating_witness :
  ∃ detail,
    pick_strict_order 0%nat [pA1; pB1; pC1; pA2] ∅ ([1200] ++ 1200 :: [1300])
      true false None (Some 7) = (NoAvailable 1200 detail, 9%nat)
    ∧ (DistinctContest ∈ detail ↔ true = true)
    ∧ (NoTagRepetition ∈ detail ↔ false = true)
    ∧ (∀ caps, TagCaps caps ∈ detail ↔
               caps = normalize_caps None ∧ normalize_caps None ≠ ∅).
Proof.
  eapply (pick_fails_at_exhausted_rating 0%nat [pA1; pB1; pC1; pA2] ∅
            true false None (Some 7) [1200] 1200 [1300]).
  - vm_compute. reflexivity.
  - vm_compute. reflexivity.
  - vm_compute. repeat constructor.
Defined.

Lemma picks_follow_ratings_witness :
  let picks := [pA1; pC1; pA2] in
  pick_strict_order 0%nat [pA1; pB1; pC1; pA2] ∅ [1200; 1200; 1300]
    false false None (Some 7) = (Picked picks, 9%nat)
  ∧ (length picks = length [1200; 1200; 1300]
     ∧ rating <$> picks = [1200; 1200; 1300]
     ∧ ∀ i r, [1200; 1200; 1300] !! i = Some r →
              ∃ p, picks !! i = Some p ∧ rating p = r).
Proof.
  intros picks.
  assert (Hrun : pick_strict_order 0%nat [pA1; pB1; pC1; pA2] ∅ [1200; 1200; 1300]
                   false false None (Some 7) = (Picked picks, 9%nat))
    by (vm_compute; reflexivity).
  split; [exact Hrun|].
  exact (picks_follow_ratings _ _ _ _ _ _ _ _ _ _ Hrun).
Defined.

(** * The fetcher: the properties claimed of [cf_get] *)

Lemma handle_response_accept path res v :
  handle_response path res = Accept v →
  ∃ r d, res = HttpResponse r
         ∧ body_json r = Some (JObj d)
         ∧ (declares_json r = true ∨ _looks_like_html (text r) = false)
         ∧ status_ok d = true
         ∧ dict_get "result" d = Some v.
Proof.
  destruct res as [|r]; simpl; [done|].
  destruct (negb (declares_json r) && _looks_like_html (text r)) eqn:Hgate; [done|].
  destruct (body_json r) as [[| | | | | |d]|] eqn:Hbody; try done.
  destruct (status_ok d) eqn:Hok.
  - destruct (dict_get "result" d) as [v'|] eqn:Hres; [|done].
    intros [= <-]. exists r, d. repeat split; try done.
    apply andb_false_iff in Hgate as [Hj|Hh]; [left|by right].
    by apply negb_false_iff.
  - destruct (comment_of d) as [c|]; [|done]. by destruct (transient c).
Qed.

Lemma handle_response_html path r :
  declares_json r = false → _looks_like_html (text r) = true →
  handle_response path (HttpResponse r)
  = Caught (RuntimeError "Non-JSON HTML from CF (likely WAF/challenge).").
Proof. intros Hj Hh. simpl. by rewrite Hj, Hh. Qed.

Section FetcherFacts.
Context (server : nat → string → http_result) (api_hosts : list string).

Lemma try_hosts_return path hosts : ∀ w last_err v w',
  try_hosts server path hosts w last_err = HostsReturn v w' →
  ∃ n base, base ∈ hosts
            ∧ handle_response path (server n (base +:+ "/" +:+ path)) = Accept v.
Proof.
  induction hosts as [|base rest IH]; intros w last_err v w'; simpl; [done|].
  destruct (handle_response path (server (calls w) (base +:+ "/" +:+ path)))
    as [v0|e| |e] eqn:Hh.
  - intros [= <- <-]. exists (calls w), base. split; [apply list_elem_of_here|done].
  - intros (n & b & Hb & Hn)%IH. exists n, b. split; [by apply list_elem_of_further|done].
  - intros (n & b & Hb & Hn)%IH. exists n, b. split; [by apply list_elem_of_further|done].
  - done.
Qed.

Lemma rounds_return path attempts : ∀ w last_err v w',
  rounds server api_hosts path attempts w last_err = (Returned v, w') →
  ∃ n base, base ∈ api_hosts
            ∧ handle_response path (server n (base +:+ "/" +:+ path)) = Accept v.
Proof.
  induction attempts as [|i rest IH]; intros w last_err v w'; simpl; [done|].
  destruct (try_hosts server path api_hosts (emit Throttle w) last_err)
    as [v0 w0|e w0|le w0] eqn:Hth.
  - intros [= <- <-]. by eapply try_hosts_return.
  - done.
  - apply IH.
Qed.

(** A whole pass over the hosts in which every response ends in the
    handler of line 75. *)
Lemma try_hosts_all_caught path e hosts : ∀ w last_err,
  (∀ n url, handle_response path (server n url) = Caught e) →
  ∃ w', try_hosts server path hosts w last_err
        = HostsDone (if hosts is [] then last_err else Some e) w'
        ∧ calls w' = (calls w + length hosts)%nat.
Proof.
  intros w last_err Hall. revert w last_err.
  induction hosts as [|base rest IH]; intros w last_err; simpl.
  - exists w. split; [done|lia].
  - rewrite Hall. edestruct IH as (w' & -> & Hcalls).
    exists w'. split; [by destruct rest|]. simpl in Hcalls. lia.
Qed.

(** A failure that is not transient does not leave [cf_get] at once:
    every host of every round is asked, and the failure comes back only
    inside the error of line 81. *)
Lemma cf_get_caught_everywhere path e retries w :
  (∀ n url, handle_response path (server n url) = Caught e) →
  api_hosts ≠ [] → retries ≠ 0%nat →
  ∃ w', cf_get server api_hosts path retries w = (Exhausted path (Some e), w')
        ∧ calls w' = (calls w + retries * length api_hosts)%nat.
Proof.
  intros Hall Hhosts Hretries. unfold cf_get.
  assert (Hgen : ∀ attempts w last_err,
            ∃ w', rounds server api_hosts path attempts w last_err
                  = (Exhausted path (if attempts is [] then last_err else Some e), w')
                  ∧ calls w' = (calls w + length attempts * length api_hosts)%nat).
  { induction attempts as [|i rest IH]; intros w0 le; simpl.
    - exists w0. split; [done|lia].
    - destruct (try_hosts_all_caught path e api_hosts (emit Throttle w0) le Hall)
        as (w1 & -> & Hc1).
      destruct (IH (emit (Sleep i) w1) (if api_hosts is [] then le else Some e))
        as (w2 & -> & Hc2).
      exists w2. split.
      + destruct rest; [|done]. by destruct api_hosts.
      + simpl in *. lia. }
  destruct (Hgen (seq 0 retries) w None) as (w' & -> & Hc).
  exists w'. rewrite length_seq in Hc. split; [|done].
  by destruct retries.
Qed.

End FetcherFacts.

(** C6: a failure whose comment is not transient is raised inside the
    [try] block whose handler takes [RuntimeError], so it is not raised to
    the caller at once.  With the two default hosts and the default four
    rounds, a remote that answers every request with the unknown-handle
    comment is asked eight times and slept on four times before [cf_get]
    fails with the error of line 81. *)
Theorem cf_get_retries_non_transient_failure :
  transient "handles: User with handle nosuchuser123 not found" = false
  ∧ cf_get (λ _ _, HttpResponse unknown_handle_response) API_HOSTS "user.status" 4
           (mkWorld 0 [])
    = (Exhausted "user.status"
         (Some (RuntimeError
                  "user.status: handles: User with handle nosuchuser123 not found")),
       mkWorld 8
         [Throttle; Get "https://codeforces.com/api/user.status";
          Get "https://www.codeforces.com/api/user.status"; Sleep 0;
          Throttle; Get "https://codeforces.com/api/user.status";
          Get "https://www.codeforces.com/api/user.status"; Sleep 1;
          Throttle; Get "https://codeforces.com/api/user.status";
          Get "https://www.codeforces.com/api/user.status"; Sleep 2;
          Throttle; Get "https://codeforces.com/api/user.status";
          Get "https://www.codeforces.com/api/user.status"; Sleep 3]).
Proof. split; vm_compute; reflexivity. Qed.

(** The body [<html lang=en>] is taken for HTML by line 50, which asks
    for the prefix "<html"; it does not start with "<html>". *)
Lemma html_with_attributes_looks_like_html :
  _looks_like_html "<html lang=en><body>blocked</body></html>" = true
  ∧ looks_like_html_as_specified "<html lang=en><body>blocked</body></html>" = false
  ∧ handle_response "contest.list"
      (HttpResponse {| content_type := Some "text/html";
                       text := "<html lang=en><body>blocked</body></html>";
                       body_json := None |})
    = Caught (RuntimeError "Non-JSON HTML from CF (likely WAF/challenge).").
Proof. repeat split; vm_compute; reflexivity. Qed.

(** C7: [cf_get] returns a payload only from a response whose body parses
    as JSON and which either declares JSON or does not look like HTML;
    a body looks like HTML exactly when, leading whitespace trimmed and
    lowercased, it starts with "<!doctype html" or with "<html"; and a
    response that does not declare JSON and looks like HTML is handled
    like any failed request: the next host is tried. *)
Theorem cf_get_response_validation server api_hosts path :
  (∀ body, _looks_like_html body = true ↔
           PyStr.startswith "<!doctype html" (PyStr.lower (PyStr.lstrip body)) = true
           ∨ PyStr.startswith "<html" (PyStr.lower (PyStr.lstrip body)) = true)
  ∧ (∀ retries w v w',
       cf_get server api_hosts path retries w = (Returned v, w') →
       ∃ n base r j,
         base ∈ api_hosts
         ∧ server n (base +:+ "/" +:+ path) = HttpResponse r
         ∧ body_json r = Some j
         ∧ (declares_json r = true ∨ _looks_like_html (text r) = false))
  ∧ (∀ base rest w last_err r,
       server (calls w) (base +:+ "/" +:+ path) = HttpResponse r →
       declares_json r = false → _looks_like_html (text r) = true →
       try_hosts server path (base :: rest) w last_err
       = try_hosts server path rest
           {| calls := S (calls w);
              trace := trace w ++ [Get (base +:+ "/" +:+ path)] |}
           (Some (RuntimeError "Non-JSON HTML from CF (likely WAF/challenge)."))).
Proof.
  split; [|split].
  - intros body. unfold _looks_like_html. by rewrite orb_true_iff.
  - intros retries w v w' Hget. unfold cf_get in Hget.
    destruct (rounds_return _ _ _ _ _ _ _ _ Hget) as (n & base & Hbase & Hacc).
    destruct (handle_response_accept _ _ _ Hacc) as (r & d & Hr & Hj & Hgate & _).
    by exists n, base, r, (JObj d).
  - intros base rest w last_err r Hr Hj Hh. simpl.
    by rewrite Hr, (handle_response_html path r Hj Hh).
Qed.

(** * The configuration: the properties claimed of [load_config] *)

Lemma dict_get_set_eq {V} k (v : V) d : dict_get k (dict_set k v d) = Some v.
Proof.
  induction d as [|[k' v'] d IH]; simpl.
  - by rewrite String.eqb_refl.
  - destruct (String.eqb k' k) eqn:Hk; simpl; by rewrite Hk.
Qed.

Lemma dict_get_set_ne {V} k k' (v : V) d :
  k ≠ k' → dict_get k (dict_set k' v d) = dict_get k d.
Proof.
  intros Hne. induction d as [|[k0 v0] d IH]; simpl.
  - destruct (String.eqb k' k) eqn:Hk; [|done].
    apply String.eqb_eq in Hk. congruence.
  - destruct (String.eqb k0 k') eqn:Hk0; simpl.
    + apply String.eqb_eq in Hk0 as ->.
      destruct (String.eqb k' k) eqn:Hk; [|done].
      apply String.eqb_eq in Hk. congruence.
    + by rewrite IH.
Qed.

Section ConfigFacts.
Context `{PyText}.

(** The loop of lines 293-300 stops at the first entry it turns down. *)
Lemma validate_caps_bad items : ∀ _caps k v,
  (k, v) ∈ items → bad_cap v →
  ∃ k' v', (k', v') ∈ items ∧ bad_cap v'
           ∧ validate_caps items _caps = Die 2 (bad_cap_message k' v').
Proof.
  induction items as [|[k0 v0] items IH]; intros _caps k v Hin Hbad.
  - by apply elem_of_nil in Hin.
  - simpl. destruct (py_int v0) as [cap|] eqn:Hint.
    + destruct (cap <? 1) eqn:Hlt.
      * exists k0, v0. split; [apply list_elem_of_here|].
        unfold bad_cap, bad_cap_message. rewrite Hint. split; [lia|done].
      * apply elem_of_cons in Hin as [[= -> ->]|Hin].
        { unfold bad_cap in Hbad. rewrite Hint in Hbad. lia. }
        destruct (IH (dict_set (PyStr.lower k0) cap _caps) k v Hin Hbad)
          as (k' & v' & Hin' & Hbad' & ->).
        exists k', v'. split; [by apply list_elem_of_further|done].
    + exists k0, v0. split; [apply list_elem_of_here|].
      unfold bad_cap, bad_cap_message. by rewrite Hint.
Qed.

(** Every cap that passes the loop is at least 1. *)
Lemma validate_caps_ok items : ∀ _caps caps,
  validate_caps items _caps = Ok caps →
  Forall (λ kv, ¬ bad_cap kv.2) items.
Proof.
  induction items as [|[k0 v0] items IH]; intros _caps caps; simpl; [by constructor|].
  destruct (py_int v0) as [cap|] eqn:Hint; [|done].
  destruct (cap <? 1) eqn:Hlt; [done|]. intros Hok. constructor.
  - unfold bad_cap. simpl. rewrite Hint. lia.
  - by eapply IH.
Qed.

Lemma read_settings_tag_caps path cfg raw :
  read_settings path (Parsed (JObj cfg)) = Ok raw →
  raw_tag_caps raw = get_or "tag_caps" (JObj []) cfg.
Proof.
  unfold read_settings. repeat case_match; try done.
  unfold float_or_raise, int_or_raise. repeat case_match; try done.
  all: simpl; intros [= <-]; done.
Qed.

Lemma load_config_ok S path file S' r :
  load_config S path file = (S', Ok r) →
  ∃ raw, read_settings path file = Ok raw ∧ validate raw = Ok r.
Proof.
  unfold load_config. destruct (read_settings path file) as [raw| |]; [|done..].
  intros [= _ Hv]. by exists raw.
Qed.

(** C8: a document whose [tag_caps] holds an entry that is below 1, or
    that [int] turns down, is never accepted; once the settings have been
    read (lines 246-287 passed), [load_config] ends in [die(..., 2)] with
    the message that names the tag of the first such entry. *)
Theorem load_config_rejects_bad_cap S path cfg items k v :
  dict_get "tag_caps" cfg = Some (JObj items) →
  (k, v) ∈ items → bad_cap v →
  (∀ S' r, load_config S path (Parsed (JObj cfg)) ≠ (S', Ok r))
  ∧ (∀ raw, read_settings path (Parsed (JObj cfg)) = Ok raw →
       ∃ k' v', (k', v') ∈ items ∧ bad_cap v'
                ∧ (load_config S path (Parsed (JObj cfg))).2
                  = Die 2 (bad_cap_message k' v')
                ∧ (bad_cap_message k' v' = msg_cap_not_int k'
                   ∨ bad_cap_message k' v' = msg_cap_below_one k')).
Proof.
  intros Hcaps Hin Hbad.
  assert (Hdie : ∀ raw, read_settings path (Parsed (JObj cfg)) = Ok raw →
            ∃ k' v', (k', v') ∈ items ∧ bad_cap v'
                     ∧ validate raw = Die 2 (bad_cap_message k' v')).
  { intros raw Hraw. pose proof (read_settings_tag_caps _ _ _ Hraw) as Htc.
    unfold get_or in Htc. rewrite Hcaps in Htc. simpl in Htc.
    destruct (validate_caps_bad items [] k v Hin Hbad) as (k' & v' & ? & ? & Hv).
    exists k', v'. split; [done|]. split; [done|].
    unfold validate. rewrite Htc. by rewrite Hv. }
  split.
  - intros S' r Hok. apply load_config_ok in Hok as (raw & Hraw & Hval).
    destruct (Hdie raw Hraw) as (k' & v' & _ & _ & Hv). congruence.
  - intros raw Hraw. destruct (Hdie raw Hraw) as (k' & v' & Hin' & Hbad' & Hv).
    exists k', v'. split; [done|]. split; [done|]. split.
    + unfold load_config. by rewrite Hraw.
    + unfold bad_cap_message. destruct (py_int v'); [by right|by left].
Qed.

Lemma get_or_set_numbers k dflt cfg t p m :
  k ≠ "timeout" → k ≠ "page_size" → k ≠ "min_interval" →
  get_or k dflt (set_numbers cfg t p m) = get_or k dflt cfg.
Proof.
  intros. unfold get_or, set_numbers. by rewrite !dict_get_set_ne.
Qed.

Lemma read_settings_numbers path cfg raw :
  read_settings path (Parsed (JObj cfg)) = Ok raw →
  py_float (get_or "min_interval" (JFloat RATE_MIN_INTERVAL) cfg)
    = Some (raw_min_interval raw)
  ∧ py_int (get_or "timeout" (JInt TIMEOUT) cfg) = Some (raw_timeout raw)
  ∧ py_int (get_or "page_size" (JInt PAGE_SIZE) cfg) = Some (raw_page_size raw).
Proof.
  unfold read_settings. repeat case_match; try done.
  unfold float_or_raise, int_or_raise.
  destruct (py_float _) as [m|]; [|done].
  destruct (py_int (get_or "timeout" _ _)) as [t|]; [|done].
  destruct (py_int (get_or "page_size" _ _)) as [p|]; [|done].
  simpl. by intros [= <-].
Qed.

Lemma read_settings_set_numbers path cfg raw t p m :
  read_settings path (Parsed (JObj cfg)) = Ok raw →
  read_settings path (Parsed (JObj (set_numbers cfg t p m)))
  = Ok (with_numbers raw t p m).
Proof.
  unfold read_settings. rewrite !get_or_set_numbers by done.
  assert (get_or "min_interval" (JFloat RATE_MIN_INTERVAL) (set_numbers cfg t p m)
          = JFloat m) as ->.
  { unfold get_or, set_numbers.
    by rewrite !dict_get_set_ne, dict_get_set_eq by done. }
  assert (get_or "timeout" (JInt TIMEOUT) (set_numbers cfg t p m) = JInt t) as ->.
  { unfold get_or, set_numbers. by rewrite dict_get_set_eq. }
  assert (get_or "page_size" (JInt PAGE_SIZE) (set_numbers cfg t p m) = JInt p) as ->.
  { unfold get_or, set_numbers.
    by rewrite dict_get_set_ne, dict_get_set_eq by done. }
  repeat case_match; try done.
  unfold float_or_raise, int_or_raise.
  destruct (py_float (get_or "min_interval" _ cfg)) as [m0|]; [|done].
  destruct (py_int (get_or "timeout" _ cfg)) as [t0|]; [|done].
  destruct (py_int (get_or "page_size" _ cfg)) as [p0|]; [|done].
  simpl. by intros [= <-].
Qed.

Lemma validate_numbers raw r :
  validate raw = Ok r →
  cfg_timeout r = Z.max 5 (raw_timeout raw)
  ∧ cfg_page_size r = Z.max 100 (Z.min 1000 (raw_page_size raw))
  ∧ cfg_min_interval r = py_max_float float_zero (raw_min_interval raw).
Proof.
  unfold validate. destruct (raw_tag_caps raw); try done.
  destruct (validate_caps d []); try done. simpl.
  destruct (validate_max_pages _); try done. simpl.
  destruct (raw_exclude_name_patterns raw); try done.
  destruct (raw_exclude_contest_ids raw); try done.
  destruct (validate_ids _); try done. simpl.
  destruct (ints_or_raise _); try done. simpl.
  by intros [= <-].
Qed.

Lemma validate_with_numbers raw r t p m :
  validate raw = Ok r → ∃ r', validate (with_numbers raw t p m) = Ok r'.
Proof.
  unfold validate. simpl. destruct (raw_tag_caps raw); try done.
  destruct (validate_caps d []); try done. simpl.
  destruct (validate_max_pages _); try done. simpl.
  destruct (raw_exclude_name_patterns raw); try done.
  destruct (raw_exclude_contest_ids raw); try done.
  destruct (validate_ids _); try done. simpl.
  destruct (ints_or_raise _); try done. simpl.
  intros _. eauto.
Qed.

(** C10: the three numbers of the networking settings are clamped, never
    turned down.  In what [load_config] returns, [timeout] is
    [max(5, int(...))], [page_size] is [max(100, min(1000, int(...)))] and
    [min_interval] is [max(0.0, float(...))] of the configured values; and
    a document that is accepted stays accepted, with the same session
    headers, when the three settings are replaced by any integers [t] and
    [p] and any float [m]. *)
Theorem load_config_clamps S path cfg S' r (t p : Z) (m : spec_float) :
  load_config S path (Parsed (JObj cfg)) = (S', Ok r) →
  (∃ t0 p0 m0,
     py_int (get_or "timeout" (JInt TIMEOUT) cfg) = Some t0
     ∧ py_int (get_or "page_size" (JInt PAGE_SIZE) cfg) = Some p0
     ∧ py_float (get_or "min_interval" (JFloat RATE_MIN_INTERVAL) cfg) = Some m0
     ∧ cfg_timeout r = Z.max 5 t0
     ∧ cfg_page_size r = Z.max 100 (Z.min 1000 p0)
     ∧ cfg_min_interval r = py_max_float float_zero m0)
  ∧ (∃ r',
       load_config S path (Parsed (JObj (set_numbers cfg t p m))) = (S', Ok r')
       ∧ cfg_timeout r' = Z.max 5 t
       ∧ cfg_page_size r' = Z.max 100 (Z.min 1000 p)
       ∧ cfg_min_interval r' = py_max_float float_zero m
       ∧ 5 ≤ cfg_timeout r' ∧ 100 ≤ cfg_page_size r' ≤ 1000).
Proof.
  intros Hload. pose proof Hload as Hload0.
  apply load_config_ok in Hload as (raw & Hraw & Hval).
  split.
  - destruct (read_settings_numbers _ _ _ Hraw) as (Hm & Ht & Hp).
    destruct (validate_numbers _ _ Hval) as (? & ? & ?).
    by exists (raw_timeout raw), (raw_page_size raw), (raw_min_interval raw).
  - destruct (validate_with_numbers raw r t p m Hval) as [r' Hval'].
    destruct (validate_numbers _ _ Hval') as (Ht & Hp & Hm). simpl in Ht, Hp, Hm.
    exists r'. split.
    + unfold load_config in *.
      rewrite (read_settings_set_numbers _ _ _ t p m Hraw). rewrite Hraw in Hload0.
      simpl. injection Hload0 as <- _. by rewrite Hval'.
    + rewrite Ht, Hp, Hm. repeat split; lia.
Qed.

End ConfigFacts.

(** ** The fetcher and the loader at work *)

Lemma cf_get_response_validation_witness :
  cf_get challenge_then_ok API_HOSTS "contest.list" 4 (mkWorld 0 [])
  = (Returned (JArr []),
     mkWorld 2 [Throttle; Get "https://codeforces.com/api/contest.list";
                Get "https://www.codeforces.com/api/contest.list"])
  ∧ ∃ n base r j,
      base ∈ API_HOSTS
      ∧ challenge_then_ok n (base +:+ "/" +:+ "contest.list") = HttpResponse r
      ∧ body_json r = Some j
      ∧ (declares_json r = true ∨ _looks_like_html (text r) = false).
Proof.
  assert (Hget : cf_get challenge_then_ok API_HOSTS "contest.list" 4 (mkWorld 0 [])
                 = (Returned (JArr []),
                    mkWorld 2 [Throttle; Get "https://codeforces.com/api/contest.list";
                               Get "https://www.codeforces.com/api/contest.list"]))
    by (vm_compute; reflexivity).
  split; [exact Hget|].
  exact (proj1 (proj2 (cf_get_response_validation challenge_then_ok API_HOSTS
                         "contest.list")) 4%nat _ _ _ Hget).
Defined.

(** Three rounds of "service unavailable" from both hosts, then an
    answer: the payload is returned. *)
Example cf_get_rides_out_transient_failures :
  let busy := HttpResponse
                {| content_type := Some "application/json"; text := "";
                   body_json := Some (JObj [("status", JStr "FAILED");
                                            ("comment", JStr "Service Unavailable")]) |} in
  let ok := HttpResponse
              {| content_type := Some "application/json"; text := "";
                 body_json := Some (JObj [("status", JStr "OK");
                                          ("result", JInt 7)]) |} in
  (cf_get (λ n _, if (n <? 6)%nat then busy else ok) API_HOSTS "contest.list" 4
          (mkWorld 0 [])).1
  = Returned (JInt 7).
Proof. vm_compute. reflexivity. Qed.

Lemma load_config_rejects_bad_cap_witness :
  (∀ S' r, load_config S_initial "cf_pick.json" (Parsed (JObj cfg_bad_cap)) ≠ (S', Ok r))
  ∧ (∀ raw, read_settings "cf_pick.json" (Parsed (JObj cfg_bad_cap)) = Ok raw →
       ∃ k' v', (k', v') ∈ [("DP", JInt 2); ("graphs", JInt 0)] ∧ bad_cap v'
                ∧ (load_config S_initial "cf_pick.json" (Parsed (JObj cfg_bad_cap))).2
                  = Die 2 (bad_cap_message k' v')
                ∧ (bad_cap_message k' v' = msg_cap_not_int k'
                   ∨ bad_cap_message k' v' = msg_cap_below_one k')).
Proof.
  apply (load_config_rejects_bad_cap S_initial "cf_pick.json" cfg_bad_cap
           [("DP", JInt 2); ("graphs", JInt 0)] "graphs" (JInt 0)).
  - reflexivity.
  - apply list_elem_of_further, list_elem_of_here.
  - vm_compute. reflexivity.
Defined.

Example load_config_names_the_tag :
  load_config S_initial "cf_pick.json" (Parsed (JObj cfg_bad_cap))
  = (S_initial, Die 2 "Config: tag_caps['graphs'] must be >= 1.").
Proof. vm_compute. reflexivity. Qed.

Lemma load_config_clamps_witness :
  let m := S754_finite true 4503599627370496 (-52) in
  load_config S_initial "cf_pick.json" (Parsed (JObj cfg_base))
  = (S_initial, Ok cfg_base_loaded)
  ∧ ((∃ t0 p0 m0,
        py_int (get_or "timeout" (JInt TIMEOUT) cfg_base) = Some t0
        ∧ py_int (get_or "page_size" (JInt PAGE_SIZE) cfg_base) = Some p0
        ∧ py_float (get_or "min_interval" (JFloat RATE_MIN_INTERVAL) cfg_base) = Some m0
        ∧ cfg_timeout cfg_base_loaded = Z.max 5 t0
        ∧ cfg_page_size cfg_base_loaded = Z.max 100 (Z.min 1000 p0)
        ∧ cfg_min_interval cfg_base_loaded = py_max_float float_zero m0)
     ∧ (∃ r',
          load_config S_initial "cf_pick.json"
            (Parsed (JObj (set_numbers cfg_base (-3) 5000 m))) = (S_initial, Ok r')
          ∧ cfg_timeout r' = Z.max 5 (-3)
          ∧ cfg_page_size r' = Z.max 100 (Z.min 1000 5000)
          ∧ cfg_min_interval r' = py_max_float float_zero m
          ∧ 5 ≤ cfg_timeout r' ∧ 100 ≤ cfg_page_size r' ≤ 1000)).
Proof.
  intros m.
  assert (Hload : load_config S_initial "cf_pick.json" (Parsed (JObj cfg_base))
                  = (S_initial, Ok cfg_base_loaded))
    by (vm_compute; reflexivity).
  split; [exact Hload|].
  exact (load_config_clamps S_initial "cf_pick.json" cfg_base S_initial
           cfg_base_loaded (-3) 5000 m Hload).
Defined.

(** A timeout of -3, a page size of 5000 and an interval of -1.0 come
    back as 5, 1000 and 0.0. *)
Example load_config_out_of_range :
  let m := S754_finite true 4503599627370496 (-52) in
  match (load_config S_initial "cf_pick.json"
           (Parsed (JObj (set_numbers cfg_base (-3) 5000 m)))).2 with
  | Ok r => (cfg_timeout r, cfg_page_size r, cfg_min_interval r)
            = (5, 1000, S754_zero false)
  | _ => False
  end.
Proof. vm_compute. reflexivity. Qed.

(** * More on the selector *)

(** ** Buckets *)

Lemma bucket_get_setdefault_append r r' p bs :
  bucket_get r (setdefault_append r' p bs)
  = if decide (r' = r) then Some (default [] (bucket_get r bs) ++ [p])
    else bucket_get r bs.
Proof.
  induction bs as [|[k b] bs IH]; cbn [bucket_get setdefault_append].
  - repeat case_decide; simplify_eq; done.
  - repeat (case_decide; cbn [bucket_get]); simplify_eq; done.
Qed.

Lemma bucket_get_foldl_setdefault r l : ∀ bs,
  bucket_get r (foldl (λ bs p, setdefault_append (rating p) p bs) bs l)
  = match rated r l with
    | [] => bucket_get r bs
    | _ :: _ => Some (default [] (bucket_get r bs) ++ rated r l)
    end.
Proof.
  unfold rated. induction l as [|p l IH]; intros bs; simpl; [done|].
  rewrite IH, bucket_get_setdefault_append, filter_cons.
  destruct (decide (rating p = r)) as [Hp|Hp]; simpl.
  - destruct (filter _ l) as [|q qs]; [done|].
    by rewrite <- app_assoc.
  - done.
Qed.

(** X1: the buckets split the unattempted candidates by rating, each
    bucket in the order of the candidate list; a rating that no
    unattempted candidate has gets no bucket. *)
Theorem make_buckets_partition candidates attempted_set r :
  bucket_get r (make_buckets (fresh_of candidates attempted_set))
  = match rated r (fresh_of candidates attempted_set) with
    | [] => None
    | b => Some b
    end.
Proof.
  unfold make_buckets. rewrite bucket_get_foldl_setdefault. simpl.
  by destruct (rated r _).
Qed.

Lemma all_pools_setdefault_append r p bs :
  all_pools (setdefault_append r p bs) ≡ₚ all_pools bs ++ [p].
Proof.
  unfold all_pools. induction bs as [|[k b] bs IH]; cbn [setdefault_append]; [done|].
  case_decide; csimpl.
  - rewrite <- !app_assoc. f_equiv. apply Permutation_app_comm.
  - by rewrite IH, app_assoc.
Qed.

Lemma all_pools_make_buckets l : all_pools (make_buckets l) ≡ₚ l.
Proof.
  unfold make_buckets.
  assert (Hgen : ∀ bs, all_pools (foldl (λ bs p, setdefault_append (rating p) p bs) bs l)
                       ≡ₚ all_pools bs ++ l).
  { induction l as [|p l IH]; intros bs; simpl; [by rewrite app_nil_r|].
    by rewrite IH, all_pools_setdefault_append, <- app_assoc. }
  by rewrite Hgen.
Qed.

Lemma all_pools_shuffle_all {G} `{PyRandom G} (g : G) bs :
  all_pools (shuffle_all g bs).1 ≡ₚ all_pools bs.
Proof.
  unfold all_pools. revert g. induction bs as [|[k b] bs IH]; intros g; simpl; [done|].
  pose proof (random_shuffle_perm g b) as Hperm.
  destruct (random_shuffle g b) as [b' g'] eqn:Hsh. simpl in Hperm.
  specialize (IH g'). destruct (shuffle_all g' bs) as [bs' g''].
  csimpl in *. by rewrite Hperm, IH.
Qed.

(** Shuffling keeps the ratings of the buckets and the size of each. *)
Lemma supply_shuffle_all {G} `{PyRandom G} (g : G) bs r :
  supply r (shuffle_all g bs).1 = supply r bs.
Proof.
  unfold supply. revert g. induction bs as [|[k b] bs IH]; intros g; simpl; [done|].
  pose proof (random_shuffle_perm g b) as Hperm.
  destruct (random_shuffle g b) as [b' g'] eqn:Hsh. simpl in Hperm.
  specialize (IH g'). destruct (shuffle_all g' bs) as [bs' g''].
  cbn [fst bucket_get] in *. case_decide; [|done]. simpl. by rewrite Hperm.
Qed.

Lemma bucket_get_put_eq r b' bs :
  is_Some (bucket_get r bs) → bucket_get r (bucket_put r b' bs) = Some b'.
Proof.
  induction bs as [|[k b] bs IH]; cbn [bucket_get bucket_put].
  - by intros [? [=]].
  - intros Hs. case_decide; cbn [bucket_get]; [by rewrite decide_True|].
    rewrite decide_False by done. by apply IH.
Qed.

Lemma bucket_get_put_ne r r' b' bs :
  r ≠ r' → bucket_get r' (bucket_put r b' bs) = bucket_get r' bs.
Proof.
  intros Hne. induction bs as [|[k b] bs IH]; cbn [bucket_get bucket_put]; [done|].
  repeat (case_decide; cbn [bucket_get]); simplify_eq; done.
Qed.

Lemma all_pools_put r b' c bs :
  bucket_get r bs = Some (b' ++ [c]) →
  all_pools bs ≡ₚ c :: all_pools (bucket_put r b' bs).
Proof.
  unfold all_pools. induction bs as [|[k b] bs IH]; cbn [bucket_get bucket_put]; [done|].
  case_decide; csimpl.
  - intros [= ->]. rewrite <- app_assoc. simpl.
    by rewrite <- Permutation_middle.
  - intros Hget. rewrite (IH Hget). by rewrite <- Permutation_middle.
Qed.

(** ** Without constraints *)

Lemma violates_tag_rules_unconstrained tc tl :
  violates_tag_rules false ∅ tc tl = false.
Proof.
  unfold violates_tag_rules. simpl. induction tl as [|t tl IH]; simpl; [done|].
  by rewrite lookup_empty.
Qed.

Lemma rejects_unconstrained st c :
  rejects false false ∅ st c = bool_decide (key c ∈ used_keys st).
Proof.
  unfold rejects. simpl. rewrite violates_tag_rules_unconstrained.
  by rewrite !orb_false_r.
Qed.

Lemma step_unconstrained_empty st r :
  supply r (buckets st) = 0%nat → step false false ∅ st r = None.
Proof.
  unfold supply. intros Hlen. apply step_none.
  destruct (default [] (bucket_get r (buckets st))); [constructor|done].
Qed.

Lemma step_unconstrained_some st r b' c :
  pools_unused st →
  bucket_get r (buckets st) = Some (b' ++ [c]) →
  ∃ st', step false false ∅ st r = Some st'
         ∧ buckets st' = bucket_put r b' (buckets st)
         ∧ pools_unused st'.
Proof.
  intros [Hnd Hunused] Hget.
  assert (Hc : c ∈ all_pools (buckets st)).
  { rewrite (all_pools_put _ _ _ _ Hget). apply list_elem_of_here. }
  assert (Hrej : rejects false false ∅ st c = false).
  { rewrite rejects_unconstrained. apply bool_decide_eq_false. by apply Hunused. }
  unfold step. rewrite Hget. simpl. unfold pop_until.
  rewrite rev_app_distr. simpl. rewrite Hrej, rev_involutive.
  eexists. split; [done|]. split; [done|]. unfold pools_unused. simpl.
  pose proof (all_pools_put _ _ _ _ Hget) as Hperm.
  rewrite Hperm in Hnd. rewrite fmap_cons in Hnd.
  apply NoDup_cons in Hnd as [Hfresh Hnd']. split; [done|].
  intros p Hp. rewrite elem_of_union, elem_of_singleton. intros [Hused|Heq].
  - apply (Hunused p); [|done]. rewrite Hperm. by apply list_elem_of_further.
  - apply Hfresh. rewrite <- Heq. by apply list_elem_of_fmap_2.
Qed.

Lemma demand_cons r r0 ratings :
  demand r (r0 :: ratings)
  = ((if decide (r0 = r) then 1 else 0) + demand r ratings)%nat.
Proof. unfold demand. rewrite filter_cons. by case_decide. Qed.

Lemma supply_put r r' b' c bs :
  bucket_get r bs = Some (b' ++ [c]) →
  supply r' bs = ((if decide (r = r') then 1 else 0) + supply r' (bucket_put r b' bs))%nat.
Proof.
  intros Hget. unfold supply. case_decide as Hr.
  - subst r'. rewrite bucket_get_put_eq by (by rewrite Hget). rewrite Hget. simpl.
    rewrite length_app. simpl. lia.
  - by rewrite bucket_get_put_ne.
Qed.

Lemma nonempty_snoc {A} (l : list A) :
  l ≠ [] → ∃ l' x, l = l' ++ [x].
Proof.
  induction l as [|a l IH] using rev_ind; [done|]. intros _. by exists l, a.
Qed.

(** Without constraints, and with no key held twice by the buckets, the
    loop goes through exactly when no rating is asked for more often
    than its bucket has problems. *)
Lemma run_unconstrained ratings : ∀ st,
  pools_unused st →
  (∃ picks, run false false ∅ st ratings = Picked picks)
  ↔ ∀ r, (demand r ratings ≤ supply r (buckets st))%nat.
Proof.
  induction ratings as [|r0 ratings IH]; intros st Hst.
  - simpl. split; [intros _ r; unfold demand; simpl; lia|eauto].
  - cbn [run].
    destruct (decide (supply r0 (buckets st) = 0%nat)) as [Hz|Hnz].
    + rewrite (step_unconstrained_empty _ _ Hz). split; [by intros [? ?]|].
      intros Hall. specialize (Hall r0). rewrite demand_cons, decide_True in Hall by done.
      lia.
    + assert (∃ b' c, bucket_get r0 (buckets st) = Some (b' ++ [c])) as (b' & c & Hget).
      { unfold supply in Hnz. destruct (bucket_get r0 (buckets st)) as [b|]; [|done].
        destruct (nonempty_snoc b) as (b' & c & ->); [by intros ->|]. eauto. }
      destruct (step_unconstrained_some st r0 b' c Hst Hget) as (st' & -> & Hb & Hst').
      rewrite (IH st' Hst'), Hb.
      split; intros Hall r; specialize (Hall r);
        rewrite demand_cons, (supply_put r0 r b' c _ Hget) in *; lia.
Qed.

Lemma sublist_fmap_keys (l1 l2 : list Problem) :
  l1 `sublist_of` l2 → key <$> l1 `sublist_of` key <$> l2.
Proof. induction 1; csimpl; by constructor. Qed.

Lemma prepare_pools_unused {G} `{PyRandom G} (g : G) candidates attempted_set seed st0 g2 :
  NoDup (key <$> candidates) →
  prepare g candidates attempted_set seed = (st0, g2) →
  pools_unused st0
  ∧ ∀ r, supply r (buckets st0) = length (rated r (fresh_of candidates attempted_set)).
Proof.
  intros Hnd. unfold prepare.
  set (g1 := match seed with Some s => random_seed s | None => g end).
  pose proof (all_pools_shuffle_all g1 (make_buckets (fresh_of candidates attempted_set)))
    as Hperm.
  pose proof (supply_shuffle_all g1 (make_buckets (fresh_of candidates attempted_set)))
    as Hsup.
  destruct (shuffle_all g1 _) as [bs g3]. simpl in Hperm, Hsup.
  intros [= <- <-]. split.
  - split; simpl.
    + rewrite Hperm, all_pools_make_buckets.
      eapply sublist_NoDup; [exact Hnd|].
      apply sublist_fmap_keys, sublist_filter.
    + intros p _. apply not_elem_of_empty.
  - intros r. simpl. rewrite Hsup. unfold supply.
    rewrite make_buckets_partition. by destruct (rated r _).
Qed.

(** X2: without constraints, and when no two candidates share a key, the
    selection succeeds exactly when every rating is asked for no more
    often than there are unattempted candidates of that rating -- whatever
    the shuffle. *)
Theorem unconstrained_pick_succeeds_iff {G} `{PyRandom G} (g : G) candidates
    attempted_set ratings_ordered seed :
  NoDup (key <$> candidates) →
  (∃ picks g', pick_strict_order g candidates attempted_set ratings_ordered
                 false false None seed = (Picked picks, g'))
  ↔ ∀ r, (demand r ratings_ordered
          ≤ length (rated r (fresh_of candidates attempted_set)))%nat.
Proof.
  intros Hnd. unfold pick_strict_order.
  destruct (prepare g candidates attempted_set seed) as [st0 g2] eqn:Hprep.
  destruct (prepare_pools_unused _ _ _ _ _ _ Hnd Hprep) as [Hst0 Hsup].
  change (normalize_caps None) with (∅ : gmap string Z).
  split.
  - intros (picks & g' & [= Hrun _]) r. rewrite <- Hsup.
    apply (run_unconstrained _ _ Hst0). by exists picks.
  - intros Hall.
    destruct (proj2 (run_unconstrained ratings_ordered st0 Hst0)) as [picks Hrun].
    { intros r. rewrite Hsup. apply Hall. }
    exists picks, g2. by rewrite Hrun.
Qed.

(** X3: every pick is one of the candidates handed in. *)
Theorem picks_are_candidates {G} `{PyRandom G} (g : G) candidates attempted_set
    ratings_ordered distinct_contest distinct_tags tag_caps seed picks g' :
  pick_strict_order g candidates attempted_set ratings_ordered
    distinct_contest distinct_tags tag_caps seed = (Picked picks, g') →
  Forall (λ p, p ∈ candidates) picks.
Proof.
  intros Hpick. apply picks_from_buckets in Hpick.
  eapply Forall2_Forall_right; [|exact Hpick]. simpl. tauto.
Qed.

Lemma run_failure distinct_contest distinct_tags tag_caps ratings : ∀ st r d,
  run distinct_contest distinct_tags tag_caps st ratings = NoAvailable r d →
  d = detail distinct_contest distinct_tags tag_caps
  ∧ ∃ pre post st',
      ratings = pre ++ r :: post
      ∧ run_state distinct_contest distinct_tags tag_caps st pre = Some st'
      ∧ Forall (λ c, rejects distinct_contest distinct_tags tag_caps st' c = true)
               (default [] (bucket_get r (buckets st'))).
Proof.
  induction ratings as [|r0 ratings IH]; intros st r d; simpl; [done|].
  destruct (step distinct_contest distinct_tags tag_caps st r0) as [st1|] eqn:Hstep.
  - intros Hrun. destruct (IH _ _ _ Hrun) as (-> & pre & post & st' & -> & Hpre & Hall).
    split; [done|]. exists (r0 :: pre), post, st'. simpl. by rewrite Hstep.
  - intros [= <- <-]. split; [done|]. exists [], ratings, st. simpl.
    split; [done|]. split; [done|]. by apply step_none.
Qed.

(** X4: a failure names the first rating, in the order of the request,
    for which nothing acceptable was left: every rating before it got its
    problem, and every candidate still in its bucket was rejected. *)
Theorem pick_failure_is_first_exhausted {G} `{PyRandom G} (g : G) candidates
    attempted_set ratings_ordered distinct_contest distinct_tags tag_caps seed
    r d g' :
  pick_strict_order g candidates attempted_set ratings_ordered
    distinct_contest distinct_tags tag_caps seed = (NoAvailable r d, g') →
  ∃ pre post st0 st,
    ratings_ordered = pre ++ r :: post
    ∧ prepare g candidates attempted_set seed = (st0, g')
    ∧ run_state distinct_contest distinct_tags (normalize_caps tag_caps) st0 pre
      = Some st
    ∧ length (picked st) = length pre
    ∧ Forall (λ c, rejects distinct_contest distinct_tags
                     (normalize_caps tag_caps) st c = true)
             (default [] (bucket_get r (buckets st))).
Proof.
  unfold pick_strict_order.
  destruct (prepare g candidates attempted_set seed) as [st0 g2] eqn:Hprep.
  intros [= Hrun <-].
  destruct (run_failure _ _ _ _ _ _ _ Hrun) as (_ & pre & post & st & -> & Hpre & Hall).
  exists pre, post, st0, st. repeat split; try done.
  assert (Hlen : ∀ pre st0 st,
            run_state distinct_contest distinct_tags (normalize_caps tag_caps) st0 pre
            = Some st → length (picked st) = (length (picked st0) + length pre)%nat).
  { clear. induction pre as [|r pre IH]; intros st0 st; simpl.
    - intros [= <-]. lia.
    - destruct (step _ _ _ st0 r) as [st1|] eqn:Hstep; [|done].
      intros Hrest. rewrite (IH _ _ Hrest).
      destruct (step_some _ _ _ _ _ _ Hstep) as (c & p' & pp & _ & _ & ->).
      simpl. rewrite length_app. simpl. lia. }
  rewrite (Hlen _ _ _ Hpre).
  unfold prepare in Hprep. destruct (shuffle_all _ _) in Hprep.
  by injection Hprep as <- _.
Qed.

Lemma run_state_picked distinct_contest distinct_tags tag_caps pre : ∀ st st',
  run_state distinct_contest distinct_tags tag_caps st pre = Some st' →
  run distinct_contest distinct_tags tag_caps st pre = Picked (picked st').
Proof.
  induction pre as [|r pre IH]; intros st st'; simpl.
  - by intros [= <-].
  - destruct (step _ _ _ st r); [apply IH|done].
Qed.

Lemma run_picked_state distinct_contest distinct_tags tag_caps pre : ∀ st picks,
  run distinct_contest distinct_tags tag_caps st pre = Picked picks →
  ∃ st', run_state distinct_contest distinct_tags tag_caps st pre = Some st'
         ∧ picked st' = picks.
Proof.
  induction pre as [|r pre IH]; intros st picks; simpl.
  - intros [= <-]. by exists st.
  - destruct (step _ _ _ st r); [apply IH|done].
Qed.

(** X5: the picks for the first ratings do not depend on what is asked
    for after them: when the request [pre ++ post] succeeds, so does the
    request [pre], and its picks are the first picks of the longer
    request. *)
Theorem picks_of_prefix {G} `{PyRandom G} (g : G) candidates attempted_set
    pre post distinct_contest distinct_tags tag_caps seed picks g' :
  pick_strict_order g candidates attempted_set (pre ++ post)
    distinct_contest distinct_tags tag_caps seed = (Picked picks, g') →
  pick_strict_order g candidates attempted_set pre
    distinct_contest distinct_tags tag_caps seed
  = (Picked (take (length pre) picks), g').
Proof.
  unfold pick_strict_order.
  destruct (prepare g candidates attempted_set seed) as [st0 g2] eqn:Hprep.
  intros [= Hrun <-]. f_equal. rewrite run_app in Hrun.
  destruct (run_state _ _ _ st0 pre) as [st|] eqn:Hpre.
  - rewrite (run_state_picked _ _ _ _ _ _ Hpre). f_equal.
    destruct (run_bucket_inv distinct_contest distinct_tags (normalize_caps tag_caps)
                (λ _ _, True) post st picks) as (new & -> & _);
      [by apply Forall_forall; intros; apply Forall_forall|done|].
    assert (length (picked st) = length pre) as <-; [|by rewrite take_app_length].
    unfold prepare in Hprep. destruct (shuffle_all _ _) as [bs ?] in Hprep.
    injection Hprep as <- _. clear -Hpre.
    assert (Hlen : ∀ pre st0 st,
              run_state distinct_contest distinct_tags (normalize_caps tag_caps) st0 pre
              = Some st → length (picked st) = (length (picked st0) + length pre)%nat).
    { clear. induction pre as [|r pre IH]; intros st0 st; simpl.
      - intros [= <-]. lia.
      - destruct (step _ _ _ st0 r) as [st1|] eqn:Hstep; [|done].
        intros Hrest. rewrite (IH _ _ Hrest).
        destruct (step_some _ _ _ _ _ _ Hstep) as (c & p' & pp & _ & _ & ->).
        simpl. rewrite length_app. simpl. lia. }
    by rewrite (Hlen _ _ _ Hpre).
  - destruct (run_picked_state _ _ _ _ _ _ Hrun) as (st' & Hst' & _). congruence.
Qed.

(** * More on the fetcher *)

Lemma handle_response_escapes path res e :
  handle_response path res = Escapes e →
  e = AttributeError ∨ e = KeyError "result".
Proof.
  destruct res as [|r]; simpl; [done|].
  destruct (negb (declares_json r) && _looks_like_html (text r)); [done|].
  destruct (body_json r) as [[| | | | | |d]|]; try done;
    try (intros [= <-]; by left).
  destruct (status_ok d).
  - destruct (dict_get "result" d); [done|]. intros [= <-]. by right.
  - destruct (comment_of d) as [c|]; [|intros [= <-]; by left].
    by destruct (transient c).
Qed.

Section FetcherTrace.
Context (server : nat → string → http_result) (api_hosts : list string).

(** How the loop over the hosts leaves the world. *)
Lemma try_hosts_world path hosts : ∀ w last_err,
  match try_hosts server path hosts w last_err with
  | HostsDone _ w' =>
      trace w' = trace w ++ (Get ∘ url_of path <$> hosts)
      ∧ calls w' = (calls w + length hosts)%nat
  | HostsReturn v w' =>
      ∃ asked base,
        asked ++ [base] `prefix_of` hosts
        ∧ trace w' = trace w ++ (Get ∘ url_of path <$> asked) ++ [Get (url_of path base)]
        ∧ calls w' = S (calls w + length asked)
        ∧ handle_response path (server (calls w + length asked)%nat (url_of path base))
          = Accept v
  | HostsRaise e w' =>
      ∃ asked base,
        asked ++ [base] `prefix_of` hosts
        ∧ trace w' = trace w ++ (Get ∘ url_of path <$> asked) ++ [Get (url_of path base)]
        ∧ calls w' = S (calls w + length asked)
        ∧ handle_response path (server (calls w + length asked)%nat (url_of path base))
          = Escapes e
  end.
Proof.
  induction hosts as [|base rest IH]; intros w last_err; cbn [try_hosts].
  - simpl. split; [by rewrite app_nil_r|lia].
  - fold (url_of path base).
    set (w1 := {| calls := S (calls w); trace := trace w ++ [Get (url_of path base)] |}).
    assert (Hstep : ∀ le,
      match try_hosts server path rest w1 le with
      | HostsDone _ w' =>
          trace w' = trace w ++ (Get ∘ url_of path <$> base :: rest)
          ∧ calls w' = (calls w + length (base :: rest))%nat
      | HostsReturn v w' =>
          ∃ asked b,
            asked ++ [b] `prefix_of` base :: rest
            ∧ trace w' = trace w ++ (Get ∘ url_of path <$> asked) ++ [Get (url_of path b)]
            ∧ calls w' = S (calls w + length asked)
            ∧ handle_response path (server (calls w + length asked)%nat (url_of path b))
              = Accept v
      | HostsRaise e w' =>
          ∃ asked b,
            asked ++ [b] `prefix_of` base :: rest
            ∧ trace w' = trace w ++ (Get ∘ url_of path <$> asked) ++ [Get (url_of path b)]
            ∧ calls w' = S (calls w + length asked)
            ∧ handle_response path (server (calls w + length asked)%nat (url_of path b))
              = Escapes e
      end).
    { intros le. specialize (IH w1 le).
      destruct (try_hosts server path rest w1 le) as [v w'|e w'|le' w'].
      - destruct IH as (asked & b & [k Hk] & Htr & Hc & Hh).
        exists (base :: asked), b. split; [exists k; simpl; by rewrite Hk|].
        simpl in *. rewrite Htr, <- app_assoc. split; [done|]. split; [lia|].
        by replace (calls w + S (length asked))%nat with (S (calls w + length asked)) by lia.
      - destruct IH as (asked & b & [k Hk] & Htr & Hc & Hh).
        exists (base :: asked), b. split; [exists k; simpl; by rewrite Hk|].
        simpl in *. rewrite Htr, <- app_assoc. split; [done|]. split; [lia|].
        by replace (calls w + S (length asked))%nat with (S (calls w + length asked)) by lia.
      - destruct IH as [Htr Hc]. simpl in *. rewrite Htr, <- app_assoc.
        split; [done|lia]. }
    destruct (handle_response path (server (calls w) (url_of path base)))
      as [v|e| |e] eqn:Hh.
    + exists [], base. simpl. split; [by exists rest|]. split; [done|].
      split; [lia|]. by rewrite Nat.add_0_r.
    + apply Hstep.
    + apply Hstep.
    + exists [], base. simpl. split; [by exists rest|]. split; [done|].
      split; [lia|]. by rewrite Nat.add_0_r.
Qed.

(** What a call that gives up has done: in every round, the throttle,
    one request to every host in order, and the backoff sleep -- also
    after the last round. *)
Lemma rounds_exhausted path attempts : ∀ w last_err p last_err' w',
  rounds server api_hosts path attempts w last_err = (Exhausted p last_err', w') →
  p = path
  ∧ trace w' = trace w ++ concat (round_events path api_hosts <$> attempts)
  ∧ calls w' = (calls w + length attempts * length api_hosts)%nat.
Proof.
  induction attempts as [|i rest IH]; intros w last_err p le' w'; cbn [rounds].
  - intros [= <- <- <-]. split; [done|]. simpl. rewrite app_nil_r. split; [done|lia].
  - pose proof (try_hosts_world path api_hosts (emit Throttle w) last_err) as Hw.
    destruct (try_hosts server path api_hosts (emit Throttle w) last_err)
      as [v w1|e w1|le1 w1]; [done..|].
    destruct Hw as [Htr Hc]. intros Hrest.
    destruct (IH _ _ _ _ _ Hrest) as (-> & Htr' & Hc'). split; [done|].
    simpl in *. split.
    + rewrite Htr', Htr. unfold round_events. simpl.
      by rewrite <- !app_assoc.
    + lia.
Qed.

(** A call that hands back a payload or lets an exception out stops at
    the response that caused it: that response is the last thing in the
    trace. *)
Lemma rounds_stops path attempts : ∀ w last_err w',
  (∀ v, rounds server api_hosts path attempts w last_err = (Returned v, w') →
     ∃ n base tr, base ∈ api_hosts ∧ calls w' = S n
                  ∧ trace w' = tr ++ [Get (url_of path base)]
                  ∧ handle_response path (server n (url_of path base)) = Accept v)
  ∧ (∀ e, rounds server api_hosts path attempts w last_err = (Raised e, w') →
       ∃ n base tr, base ∈ api_hosts ∧ calls w' = S n
                    ∧ trace w' = tr ++ [Get (url_of path base)]
                    ∧ handle_response path (server n (url_of path base)) = Escapes e).
Proof.
  induction attempts as [|i rest IH]; intros w last_err w'; cbn [rounds].
  - by split.
  - pose proof (try_hosts_world path api_hosts (emit Throttle w) last_err) as Hw.
    destruct (try_hosts server path api_hosts (emit Throttle w) last_err)
      as [v w1|e w1|le1 w1].
    + split; [|done]. intros v' [= <- <-].
      destruct Hw as (asked & base & [rest' Hpre] & Htr & Hc & Hh).
      exists (calls (emit Throttle w) + length asked)%nat, base,
             (trace (emit Throttle w) ++ (Get ∘ url_of path <$> asked)).
      split.
      { rewrite Hpre, <- app_assoc. apply elem_of_app. right. apply list_elem_of_here. }
      split; [done|].
      split; [by rewrite Htr, app_assoc|done].
    + split; [done|]. intros e' [= <- <-].
      destruct Hw as (asked & base & [rest' Hpre] & Htr & Hc & Hh).
      exists (calls (emit Throttle w) + length asked)%nat, base,
             (trace (emit Throttle w) ++ (Get ∘ url_of path <$> asked)).
      split.
      { rewrite Hpre, <- app_assoc. apply elem_of_app. right. apply list_elem_of_here. }
      split; [done|].
      split; [by rewrite Htr, app_assoc|done].
    + apply IH.
Qed.

(** The number of requests of a call, however it ends. *)
Lemma rounds_calls path attempts : ∀ w last_err,
  (calls w ≤ calls (rounds server api_hosts path attempts w last_err).2
           ≤ calls w + length attempts * length api_hosts)%nat.
Proof.
  induction attempts as [|i rest IH]; intros w last_err; cbn [rounds].
  - simpl. lia.
  - pose proof (try_hosts_world path api_hosts (emit Throttle w) last_err) as Hw.
    destruct (try_hosts server path api_hosts (emit Throttle w) last_err)
      as [v w1|e w1|le1 w1].
    + destruct Hw as (asked & base & [rest' Hpre] & _ & Hc & _).
      apply (f_equal length) in Hpre. rewrite !length_app in Hpre.
      simpl in *. nia.
    + destruct Hw as (asked & base & [rest' Hpre] & _ & Hc & _).
      apply (f_equal length) in Hpre. rewrite !length_app in Hpre.
      simpl in *. nia.
    + destruct Hw as [_ Hc]. specialize (IH (emit (Sleep i) w1) le1).
      simpl in *. nia.
Qed.

Lemma try_hosts_all_transient path hosts : ∀ w last_err,
  (∀ n url, handle_response path (server n url) = Transient) →
  ∃ w', try_hosts server path hosts w last_err = HostsDone last_err w'.
Proof.
  intros w last_err Hall. revert w.
  induction hosts as [|base rest IH]; intros w; simpl; [by eexists|].
  rewrite Hall. apply IH.
Qed.

End FetcherTrace.

(** X6: [cf_get] makes at most [retries] times the number of hosts
    requests, however it ends. *)
Theorem cf_get_request_bound server api_hosts path retries w :
  (calls w ≤ calls (cf_get server api_hosts path retries w).2
           ≤ calls w + retries * length api_hosts)%nat.
Proof.
  unfold cf_get.
  pose proof (rounds_calls server api_hosts path (seq 0 retries) w None) as Hb.
  by rewrite length_seq in Hb.
Qed.

(** X7: a call that gives up has, in each of its [retries] rounds,
    throttled once, asked every host once in order, and slept for the
    backoff -- the last round included; nothing else happened. *)
Theorem cf_get_exhausted_trace server api_hosts path retries w p last_err w' :
  cf_get server api_hosts path retries w = (Exhausted p last_err, w') →
  p = path
  ∧ trace w' = trace w ++ concat (round_events path api_hosts <$> seq 0 retries)
  ∧ calls w' = (calls w + retries * length api_hosts)%nat.
Proof.
  unfold cf_get. intros Hr.
  destruct (rounds_exhausted _ _ _ _ _ _ _ _ _ Hr) as (? & ? & Hc).
  by rewrite length_seq in Hc.
Qed.

(** X8: a payload is returned at the first accepted response: that
    response answers the last request of the call, and no sleep follows
    it. *)
Theorem cf_get_returns_at_once server api_hosts path retries w v w' :
  cf_get server api_hosts path retries w = (Returned v, w') →
  ∃ n base tr,
    base ∈ api_hosts ∧ calls w' = S n
    ∧ trace w' = tr ++ [Get (url_of path base)]
    ∧ handle_response path (server n (url_of path base)) = Accept v.
Proof.
  unfold cf_get. intros Hr.
  by apply (proj1 (rounds_stops server api_hosts path (seq 0 retries) w None w')).
Qed.

(** X9: the only exceptions that leave [cf_get] other than the error of
    line 81 are the [AttributeError] of a body that is not an object (or
    of a comment without [strip]) and the [KeyError] of an OK answer
    without result; they end the call at the response that caused them,
    without any retry. *)
Theorem cf_get_escaping_exceptions server api_hosts path retries w e w' :
  cf_get server api_hosts path retries w = (Raised e, w') →
  (e = AttributeError ∨ e = KeyError "result")
  ∧ ∃ n base tr,
      base ∈ api_hosts ∧ calls w' = S n
      ∧ trace w' = tr ++ [Get (url_of path base)]
      ∧ handle_response path (server n (url_of path base)) = Escapes e.
Proof.
  unfold cf_get. intros Hr.
  destruct (proj2 (rounds_stops server api_hosts path (seq 0 retries) w None w') e Hr)
    as (n & base & tr & Hb & Hc & Htr & Hh).
  split; [by eapply handle_response_escapes|]. by exists n, base, tr.
Qed.

(** X10: when every answer is a transient failure, the call gives up with
    no last error at all: the error of line 81 reads "last error: None". *)
Theorem cf_get_all_transient server api_hosts path retries w :
  (∀ n url, handle_response path (server n url) = Transient) →
  (cf_get server api_hosts path retries w).1 = Exhausted path None.
Proof.
  intros Hall. unfold cf_get. generalize (seq 0 retries) as attempts. intros attempts.
  revert w. induction attempts as [|i rest IH]; intros w; cbn [rounds]; [done|].
  destruct (try_hosts_all_transient server path api_hosts (emit Throttle w) None Hall)
    as [w1 ->].
  apply IH.
Qed.

(** * More on the loader of the configuration *)

Lemma lower_ascii_idemp c : PyStr.lower_ascii (PyStr.lower_ascii c) = PyStr.lower_ascii c.
Proof. destruct c as [[] [] [] [] [] [] [] []]; reflexivity. Qed.

Lemma lower_idemp s : PyStr.lower (PyStr.lower s) = PyStr.lower s.
Proof. induction s as [|c s IH]; simpl; [done|]. by rewrite lower_ascii_idemp, IH. Qed.

Lemma dict_set_keys {V} (k : string) (v : V) d :
  NoDup d.*1 → NoDup (dict_set k v d).*1
  ∧ ∀ k', k' ∈ (dict_set k v d).*1 ↔ k' = k ∨ k' ∈ d.*1.
Proof.
  induction d as [|[k0 v0] d IH]; simpl.
  - intros _. split; [apply NoDup_singleton|]. intros k'.
    rewrite list_elem_of_singleton, elem_of_nil. tauto.
  - intros [Hk0 Hnd]%NoDup_cons. destruct (IH Hnd) as [IH1 IH2].
    destruct (String.eqb k0 k) eqn:Hk; simpl.
    + apply String.eqb_eq in Hk as ->. split; [by apply NoDup_cons|].
      intros k'. rewrite elem_of_cons. tauto.
    + apply String.eqb_neq in Hk. split.
      * apply NoDup_cons. split; [|done]. rewrite IH2. intros [->|?]; done.
      * intros k'. rewrite !elem_of_cons, IH2. tauto.
Qed.

Lemma dict_set_values (P : string → Z → Prop) k v d :
  P k v → Forall (λ kv, P kv.1 kv.2) d → Forall (λ kv, P kv.1 kv.2) (dict_set k v d).
Proof.
  intros Hkv. induction 1 as [|[k0 v0] d H0 Hd IH]; simpl.
  - by repeat constructor.
  - destruct (String.eqb k0 k) eqn:Hk; constructor; try done.
    apply String.eqb_eq in Hk as ->. done.
Qed.

Section ConfigMore.
Context `{PyText}.

Lemma validate_caps_wf items : ∀ _caps caps,
  NoDup _caps.*1 →
  Forall (λ kv, PyStr.lower kv.1 = kv.1 ∧ 1 ≤ kv.2) _caps →
  validate_caps items _caps = Ok caps →
  NoDup caps.*1 ∧ Forall (λ kv, PyStr.lower kv.1 = kv.1 ∧ 1 ≤ kv.2) caps.
Proof.
  induction items as [|[k v] items IH]; intros _caps caps Hnd Hall; simpl.
  - by intros [= <-].
  - destruct (py_int v) as [cap|]; [|done].
    destruct (cap <? 1) eqn:Hlt; [done|]. apply IH.
    + by apply dict_set_keys.
    + apply (dict_set_values (λ k v, PyStr.lower k = k ∧ 1 ≤ v)); [|done].
      split; [apply lower_idemp|lia].
Qed.

Lemma validate_caps_code items : ∀ _caps code msg,
  validate_caps items _caps = Die code msg → code = 2.
Proof.
  induction items as [|[k v] items IH]; intros _caps code msg; simpl; [done|].
  destruct (py_int v) as [cap|]; [|by intros [= <- _]].
  destruct (cap <? 1); [by intros [= <- _]|]. apply IH.
Qed.

Lemma validate_ids_code l code msg :
  validate_ids l = Die code msg → code = 2.
Proof.
  induction l as [|x l IH]; simpl; [done|].
  destruct (py_int x); [|by intros [= <- _]].
  destruct (validate_ids l); simpl; done.
Qed.

Lemma ints_or_raise_no_die l code msg : ints_or_raise l ≠ Die code msg.
Proof.
  induction l as [|x l IH]; simpl; [done|].
  unfold int_or_raise. destruct (py_int x); simpl; [|done].
  destruct (ints_or_raise l); simpl; done.
Qed.

Lemma ints_or_raise_length l zs : ints_or_raise l = Ok zs → length zs = length l.
Proof.
  revert zs. induction l as [|x l IH]; intros zs; simpl; [by intros [= <-]|].
  unfold int_or_raise. destruct (py_int x); simpl; [|done].
  destruct (ints_or_raise l) as [zs'| |]; simpl; try done.
  intros [= <-]. simpl. by rewrite (IH zs').
Qed.

Lemma read_settings_code path file code msg :
  read_settings path file = Die code msg → code = 2.
Proof.
  unfold read_settings. repeat case_match; try done; try (by intros [= <- _]).
  unfold float_or_raise, int_or_raise. repeat case_match; done.
Qed.

Lemma validate_max_pages_code v code msg :
  validate_max_pages v = Die code msg → code = 2.
Proof.
  unfold validate_max_pages.
  destruct v; try done; destruct (py_int _) as [n|]; try (by intros [= <- _]);
    destruct (n <? 1); try done; by intros [= <- _].
Qed.

Lemma validate_code raw code msg : validate raw = Die code msg → code = 2.
Proof.
  unfold validate.
  destruct (raw_tag_caps raw) as [| | | | | |items]; try (by intros [= <- _]).
  destruct (validate_caps items []) as [caps|c m|] eqn:Hcaps; simpl; [| |done].
  2: { intros [= <- <-]. by eapply validate_caps_code. }
  destruct (validate_max_pages (raw_max_pages_per_user raw)) as [mp|c m|] eqn:Hmp;
    simpl; [| |done].
  2: { intros [= <- <-]. by eapply validate_max_pages_code. }
  destruct (raw_exclude_name_patterns raw) as [| | | | |pats|]; try (by intros [= <- _]).
  destruct (raw_exclude_contest_ids raw) as [| | | | |ids|]; try (by intros [= <- _]).
  destruct (validate_ids ids) as [zs|c m|] eqn:Hids; simpl; [| |done].
  2: { intros [= <- <-]. by eapply validate_ids_code. }
  destruct (ints_or_raise (raw_ratings raw)) as [rs|c m|] eqn:Hints; simpl; [done| |done].
  by apply ints_or_raise_no_die in Hints.
Qed.

(** X11: whenever [load_config] ends in [die], the exit code is 2. *)
Theorem load_config_dies_with_2 S path file S' code msg :
  load_config S path file = (S', Die code msg) → code = 2.
Proof.
  unfold load_config.
  destruct (read_settings path file) as [raw|c m|] eqn:Hread; [| |done].
  - intros [= _ Hv]. by eapply validate_code.
  - intros [= _ <- <-]. by eapply read_settings_code.
Qed.

Lemma validate_fields raw r :
  validate raw = Ok r →
  (∃ items, raw_tag_caps raw = JObj items ∧ validate_caps items [] = Ok (cfg_tag_caps r))
  ∧ validate_max_pages (raw_max_pages_per_user raw) = Ok (cfg_max_pages_per_user r)
  ∧ ints_or_raise (raw_ratings raw) = Ok (cfg_ratings_list r)
  ∧ cfg_handles r = stripped_texts (raw_handles raw)
  ∧ cfg_year_min r = raw_year_min raw ∧ cfg_year_max r = raw_year_max raw
  ∧ cfg_min_interval r = py_max_float float_zero (raw_min_interval raw).
Proof.
  unfold validate. destruct (raw_tag_caps raw) as [| | | | | |items]; try done.
  destruct (validate_caps items []) as [caps| |] eqn:Hcaps; try done. simpl.
  destruct (validate_max_pages _) as [mp| |] eqn:Hmp; try done. simpl.
  destruct (raw_exclude_name_patterns raw); try done.
  destruct (raw_exclude_contest_ids raw); try done.
  destruct (validate_ids _); try done. simpl.
  destruct (ints_or_raise _) eqn:Hints; try done. simpl.
  intros [= <-]. simpl. repeat split; eauto.
Qed.

Lemma read_settings_required path cfg raw :
  read_settings path (Parsed (JObj cfg)) = Ok raw →
  raw_ratings raw ≠ []
  ∧ get_or "ratings" JNull cfg = JArr (raw_ratings raw)
  ∧ ∃ lo hi, as_int (raw_year_min raw) = Some lo
             ∧ as_int (raw_year_max raw) = Some hi ∧ lo ≤ hi.
Proof.
  unfold read_settings.
  destruct (get_or "handles" JNull cfg) as [| | | | |[|h hs]|]; try done.
  destruct (get_or "ratings" JNull cfg) as [| | | | |[|x xs]|]; try done.
  destruct (as_int (get_or "year_min" JNull cfg)) as [lo|] eqn:Hlo; try done.
  destruct (as_int (get_or "year_max" JNull cfg)) as [hi|] eqn:Hhi; try done.
  destruct (hi <? lo) eqn:Hcmp; [done|].
  unfold float_or_raise, int_or_raise.
  destruct (py_float _); simpl; [|done].
  destruct (py_int (get_or "timeout" _ _)); simpl; [|done].
  destruct (py_int (get_or "page_size" _ _)); simpl; [|done].
  intros [= <-]. simpl.
  split; [done|]. split; [done|]. exists lo, hi. repeat split; try done. lia.
Qed.

(** X12: what an accepted configuration guarantees to the rest of the
    program: the years are integers with [year_min <= year_max]; there is
    one rating per entry of [ratings], and at least one; no handle is
    empty or has blanks around it left; and a page limit, when there is
    one, is at least 1. *)
Theorem load_config_accepted_shape S path cfg S' r :
  load_config S path (Parsed (JObj cfg)) = (S', Ok r) →
  (∃ lo hi, as_int (cfg_year_min r) = Some lo ∧ as_int (cfg_year_max r) = Some hi
            ∧ lo ≤ hi)
  ∧ (∃ xs, get_or "ratings" JNull cfg = JArr xs
           ∧ length (cfg_ratings_list r) = length xs ∧ cfg_ratings_list r ≠ [])
  ∧ Forall (λ h, h ≠ "") (cfg_handles r)
  ∧ (∀ n, cfg_max_pages_per_user r = Some n → 1 ≤ n).
Proof.
  intros (raw & Hraw & Hval)%load_config_ok.
  destruct (read_settings_required _ _ _ Hraw) as (Hne & Hr & lo & hi & Hlo & Hhi & Hle).
  destruct (validate_fields _ _ Hval) as (_ & Hmp & Hints & Hh & Hmin & Hmax & _).
  split; [exists lo, hi; by rewrite Hmin, Hmax|]. split.
  - exists (raw_ratings raw). split; [done|].
    pose proof (ints_or_raise_length _ _ Hints) as Hlen. split; [done|].
    intros Hnil. rewrite Hnil in Hlen. by destruct (raw_ratings raw).
  - split.
    + rewrite Hh. unfold stripped_texts. apply Forall_forall.
      by intros h [? _]%list_elem_of_filter.
    + intros n Hn. rewrite Hn in Hmp. unfold validate_max_pages in Hmp.
      destruct (raw_max_pages_per_user raw); try done;
        destruct (py_int _) as [m|]; try done;
        destruct (m <? 1) eqn:Hm; try done; injection Hmp as ->; lia.
Qed.

(** X13: the interval an accepted configuration returns is never a NaN
    and never negative (it may be infinite). *)
Theorem load_config_min_interval_nonnegative S path file S' r :
  load_config S path file = (S', Ok r) →
  float_nonnegative (cfg_min_interval r).
Proof.
  intros (raw & _ & Hval)%load_config_ok.
  destruct (validate_fields _ _ Hval) as (_ & _ & _ & _ & _ & _ & ->).
  unfold py_max_float, float_zero.
  destruct (raw_min_interval raw) as [s|s| |[] m e]; simpl; try done; by destruct s.
Qed.

(** X14: the caps of an accepted configuration have lowercase keys, no key
    twice, and values of at least 1. *)
Theorem load_config_caps_well_formed S path file S' r :
  load_config S path file = (S', Ok r) →
  NoDup (cfg_tag_caps r).*1
  ∧ Forall (λ kv, PyStr.lower kv.1 = kv.1 ∧ 1 ≤ kv.2) (cfg_tag_caps r).
Proof.
  intros (raw & _ & Hval)%load_config_ok.
  destruct (validate_fields _ _ Hval) as ((items & _ & Hcaps) & _).
  eapply validate_caps_wf; [| |exact Hcaps]; constructor.
Qed.

(** X15: a numeric setting that [int] turns down is not reported by
    [die]: the exception leaves [load_config], whatever else the document
    holds, as long as the required fields are in order. *)
Theorem load_config_bad_timeout_escapes S path cfg S' r v :
  load_config S path (Parsed (JObj cfg)) = (S', Ok r) →
  py_int v = None →
  load_config S path (Parsed (JObj (dict_set "timeout" v cfg))) = (S, Uncaught).
Proof.
  intros (raw & Hraw & _)%load_config_ok Hv.
  unfold load_config, read_settings in *. unfold get_or in *.
  rewrite !dict_get_set_ne by done. rewrite dict_get_set_eq. simpl.
  repeat case_match; try done; simplify_eq.
  all: unfold float_or_raise, int_or_raise in *.
  all: repeat match goal with
       | Hx : context [py_float ?a] |- _ => destruct (py_float a); simpl in *
       | Hx : context [py_int ?a] |- _ => destruct (py_int a); simpl in *
       end; try done; simplify_eq.
Qed.

End ConfigMore.

(** * The catalogue *)

Section CatalogueFacts.
Context `{PyClock}.

Lemma contests_meta_from_some contests : ∀ meta meta',
  contests_meta_from contests meta = Some meta' →
  ∀ cid m, meta' !! cid = Some m →
    meta !! cid = Some m
    ∨ ∃ c ts, c ∈ contests ∧ listed c cid ts
              ∧ utc_year ts = Some (meta_year m)
              ∧ meta_name m = default "" (c_name c).
Proof.
  induction contests as [|c rest IH]; intros meta meta'; cbn [contests_meta_from].
  - intros [= <-] cid m Hm. by left.
  - assert (Hskip : contests_meta_from rest meta = Some meta' →
              ∀ cid m, meta' !! cid = Some m →
                meta !! cid = Some m
                ∨ ∃ c0 ts, c0 ∈ c :: rest ∧ listed c0 cid ts
                           ∧ utc_year ts = Some (meta_year m)
                           ∧ meta_name m = default "" (c_name c0)).
    { intros Hrest cid m Hm. destruct (IH _ _ Hrest cid m Hm) as [?|(c0 & ts & ? & ?)];
        [by left|right]. exists c0, ts. split; [by apply list_elem_of_further|done]. }
    destruct (c_gym c) as [[]|] eqn:Hgym; simpl; [done| |].
    all: destruct (c_id c) as [cid0|] eqn:Hid; [|done].
    all: destruct (c_startTimeSeconds c) as [ts0|] eqn:Hts; [|done].
    all: destruct (negb (cid0 =? 0) && negb (ts0 =? 0)) eqn:Hnz; [|done].
    all: destruct (utc_year ts0) as [y|] eqn:Hy; [|done].
    all: intros Hrest cid m Hm.
    all: destruct (IH _ _ Hrest cid m Hm) as [Hin|(c0 & ts & ? & ?)];
      [|right; exists c0, ts; split; [by apply list_elem_of_further|done]].
    all: rewrite lookup_insert in Hin; case_decide as Hc; [|by left].
    all: subst cid0; injection Hin as <-; right; exists c, ts0.
    all: apply andb_true_iff in Hnz as [Hc0 Ht0].
    all: apply negb_true_iff, Z.eqb_neq in Hc0, Ht0.
    all: split; [apply list_elem_of_here|]; split; [|done].
    all: unfold listed; rewrite Hgym, Hid, Hts; done.
Qed.

Lemma contests_meta_from_keeps contests : ∀ meta meta' cid,
  contests_meta_from contests meta = Some meta' →
  is_Some (meta !! cid) → is_Some (meta' !! cid).
Proof.
  induction contests as [|c rest IH]; intros meta meta' cid; cbn [contests_meta_from].
  - by intros [= <-].
  - repeat case_match; try done; try apply IH.
    intros Hrest Hs. eapply IH; [exact Hrest|].
    rewrite lookup_insert. case_decide; [by eexists|done].
Qed.

Lemma contests_meta_from_listed contests : ∀ meta meta' c cid ts,
  contests_meta_from contests meta = Some meta' →
  c ∈ contests → listed c cid ts → is_Some (meta' !! cid).
Proof.
  induction contests as [|c0 rest IH]; intros meta meta' c cid ts Hm Hin Hl.
  - by apply elem_of_nil in Hin.
  - apply elem_of_cons in Hin as [->|Hin].
    + destruct Hl as (Hgym & Hid & Hc & Hts & Ht). cbn [contests_meta_from] in Hm.
      rewrite Hid, Hts in Hm.
      replace (default false (c_gym c0)) with false in Hm
        by (by destruct (c_gym c0) as [[]|]).
      replace (negb (cid =? 0) && negb (ts =? 0)) with true in Hm.
      2: { symmetry. apply andb_true_iff. split; by apply negb_true_iff, Z.eqb_neq. }
      destruct (utc_year ts); [|done].
      eapply contests_meta_from_keeps; [exact Hm|].
      rewrite lookup_insert_eq. by eexists.
    + cbn [contests_meta_from] in Hm.
      repeat case_match; try done; by eapply IH.
Qed.

(** X16: the metadata has an entry exactly for the ids of the contests
    that are not gym contests and have an id and a start time other than
    0; the entry holds the year of the start and the name (the empty text
    for a contest without a name) of such a contest. *)
Theorem load_contests_meta_entries contests meta :
  load_contests_meta contests = Some meta →
  (∀ cid, is_Some (meta !! cid) ↔ ∃ c ts, c ∈ contests ∧ listed c cid ts)
  ∧ (∀ cid m, meta !! cid = Some m →
       ∃ c ts, c ∈ contests ∧ listed c cid ts
               ∧ utc_year ts = Some (meta_year m)
               ∧ meta_name m = default "" (c_name c)).
Proof.
  unfold load_contests_meta. intros Hm.
  assert (Hentry : ∀ cid m, meta !! cid = Some m →
            ∃ c ts, c ∈ contests ∧ listed c cid ts
                    ∧ utc_year ts = Some (meta_year m)
                    ∧ meta_name m = default "" (c_name c)).
  { intros cid m Hcid.
    destruct (contests_meta_from_some _ _ _ Hm cid m Hcid) as [Hin|?]; [|done].
    by rewrite lookup_empty in Hin. }
  split; [|done]. intros cid. split.
  - intros [m Hcid]. destruct (Hentry cid m Hcid) as (c & ts & ? & ? & _). eauto.
  - intros (c & ts & Hin & Hl). by eapply contests_meta_from_listed.
Qed.

(** X17: building the metadata fails exactly when the year of the start
    of some contest that would get an entry cannot be computed. *)
Theorem load_contests_meta_fails contests :
  load_contests_meta contests = None
  ↔ ∃ c cid ts, c ∈ contests ∧ listed c cid ts ∧ utc_year ts = None.
Proof.
  unfold load_contests_meta. generalize (∅ : gmap Z ContestMeta) as meta.
  induction contests as [|c rest IH]; intros meta; cbn [contests_meta_from].
  - split; [done|]. intros (c & cid & ts & Hin & _). by apply elem_of_nil in Hin.
  - assert (Hskip : (∀ cid ts, ¬ listed c cid ts) →
              (∃ c0 cid ts, c0 ∈ c :: rest ∧ listed c0 cid ts ∧ utc_year ts = None)
              ↔ ∃ c0 cid ts, c0 ∈ rest ∧ listed c0 cid ts ∧ utc_year ts = None).
    { intros Hno. split.
      - intros (c0 & cid & ts & [->|Hin]%elem_of_cons & Hl & Hy);
          [by destruct (Hno cid ts)|eauto 10].
      - intros (c0 & cid & ts & Hin & Hl & Hy). exists c0, cid, ts.
        split; [by apply list_elem_of_further|done]. }
    destruct (c_gym c) as [[]|] eqn:Hgym; simpl.
    { rewrite IH, Hskip; [done|]. intros cid ts (Hg & _). by rewrite Hgym in Hg. }
    all: destruct (c_id c) as [cid0|] eqn:Hid;
      [|rewrite IH, Hskip; [done|]; intros cid ts (_ & Hi & _); by rewrite Hid in Hi].
    all: destruct (c_startTimeSeconds c) as [ts0|] eqn:Hts;
      [|rewrite IH, Hskip; [done|]; intros cid ts (_ & _ & _ & Ht & _);
        by rewrite Hts in Ht].
    all: destruct (negb (cid0 =? 0) && negb (ts0 =? 0)) eqn:Hnz;
      [|rewrite IH, Hskip; [done|]; intros cid ts (_ & Hi & Hc & Ht & Ht0);
        rewrite Hid in Hi; rewrite Hts in Ht; simplify_eq;
        apply andb_false_iff in Hnz as [Hz|Hz];
        apply negb_false_iff, Z.eqb_eq in Hz; done].
    all: apply andb_true_iff in Hnz as [Hc0 Ht0].
    all: apply negb_true_iff, Z.eqb_neq in Hc0, Ht0.
    all: assert (Hl : listed c cid0 ts0) by (unfold listed; rewrite Hgym, Hid, Hts; done).
    all: destruct (utc_year ts0) as [y|] eqn:Hy.
    all: try (split; [intros _|done]; exists c, cid0, ts0;
              split; [apply list_elem_of_here|done]).
    all: rewrite IH; split.
    all: try (intros (c0 & cid & ts & Hin & ? & ?); exists c0, cid, ts;
              split; [by apply list_elem_of_further|done]).
    all: intros (c0 & cid & ts & [->|Hin]%elem_of_cons & Hl' & Hy'); [|eauto 10].
    all: destruct Hl' as (_ & Hi & _ & Ht & _); rewrite Hid in Hi; rewrite Hts in Ht.
    all: simplify_eq.
Qed.

End CatalogueFacts.

(** ** The filter *)

Lemma load_problemset_filtered_omap problems meta ratings_set year_min year_max
    exclude_name_patterns exclude_contest_ids :
  load_problemset_filtered problems meta ratings_set year_min year_max
    exclude_name_patterns exclude_contest_ids
  = omap (keep_problem meta
            (excluded_ids meta exclude_name_patterns exclude_contest_ids)
            ratings_set year_min year_max) problems.
Proof.
  unfold load_problemset_filtered.
  set (k := keep_problem meta _ ratings_set year_min year_max).
  assert (Hgen : ∀ l out,
            foldl (λ out p, match k p with Some q => out ++ [q] | None => out end) out l
            = out ++ omap k l).
  { induction l as [|p l IH]; intros out; simpl; [by rewrite app_nil_r|].
    rewrite IH. destruct (k p); [|done]. by rewrite <- app_assoc. }
  by rewrite Hgen.
Qed.

Lemma lower_empty s : PyStr.lower s = "" ↔ s = "".
Proof. by destruct s. Qed.

Lemma name_matches_spec pats m :
  name_matches (name_patterns pats) m = true
  ↔ ∃ pat, pat ∈ pats ∧ pat ≠ ""
           ∧ PyStr.contains (PyStr.lower pat) (PyStr.lower (meta_name m)) = true.
Proof.
  unfold name_matches, name_patterns. rewrite existsb_exists. split.
  - intros (x & Hx & Hc). apply list_elem_of_In, list_elem_of_fmap in Hx
      as (pat & -> & [Hne Hin]%list_elem_of_filter). eauto.
  - intros (pat & Hin & Hne & Hc). exists (PyStr.lower pat). split; [|done].
    apply list_elem_of_In, list_elem_of_fmap. exists pat. split; [done|].
    by apply list_elem_of_filter.
Qed.

Lemma excluded_ids_spec meta pats ids cid :
  cid ∈ excluded_ids meta pats ids
  ↔ cid ∈ ids
    ∨ ∃ m, meta !! cid = Some m ∧ name_matches (name_patterns pats) m = true.
Proof.
  unfold excluded_ids. rewrite elem_of_union, elem_of_list_to_set, elem_of_dom.
  f_equiv. split.
  - intros [m [Hm Hp]%map_lookup_filter_Some]. eauto.
  - intros (m & Hm & Hp). exists m. by apply map_lookup_filter_Some.
Qed.

Lemma keep_problem_spec meta ratings_set year_min year_max pats ids p q :
  keep_problem meta (excluded_ids meta pats ids) ratings_set year_min year_max p
  = Some q
  ↔ same_problem p q ∧ passes_filter meta ratings_set year_min year_max pats ids q.
Proof.
  unfold keep_problem, same_problem, passes_filter. split.
  - destruct (ap_contestId p) as [cid|]; [|done].
    destruct (ap_index p) as [idx|]; [|done].
    destruct (ap_rating p) as [r|]; [|done].
    destruct ((cid =? 0) || String.eqb idx "") eqn:Hz; [done|].
    apply orb_false_iff in Hz as [Hc Hi].
    apply Z.eqb_neq in Hc. apply String.eqb_neq in Hi.
    destruct (bool_decide (r ∈ ratings_set)) eqn:Hr; [|done].
    apply bool_decide_eq_true in Hr. simpl.
    destruct (meta !! cid) as [m|] eqn:Hm; [|done].
    destruct ((meta_year m <? year_min) || (year_max <? meta_year m)) eqn:Hy; [done|].
    apply orb_false_iff in Hy as [Hlo Hhi].
    destruct (bool_decide (cid ∈ excluded_ids meta pats ids)) eqn:Hex; [done|].
    apply bool_decide_eq_false in Hex. rewrite excluded_ids_spec in Hex.
    intros [= <-]. simpl. repeat split; try done.
    + intros Hin. apply Hex. by left.
    + exists m. split; [done|]. split; [lia|].
      intros pat Hin Hne.
      destruct (PyStr.contains _ _) eqn:Hcont; [|done].
      exfalso. apply Hex. right. exists m. split; [done|].
      apply name_matches_spec. eauto.
  - intros ((Hcid & Hidx & Hr & Hn & Ht) & Hc & Hi & Hrs & Hids & m & Hm & Hy & Hpat).
    rewrite Hcid, Hidx, Hr.
    replace ((contestId q =? 0) || String.eqb (index q) "") with false.
    2: { symmetry. apply orb_false_iff. split; [by apply Z.eqb_neq|by apply String.eqb_neq]. }
    rewrite bool_decide_eq_true_2 by done. simpl. rewrite Hm.
    replace ((meta_year m <? year_min) || (year_max <? meta_year m)) with false.
    2: { symmetry. apply orb_false_iff. split; lia. }
    rewrite bool_decide_eq_false_2.
    + f_equal. destruct q; simpl in *. by subst.
    + rewrite excluded_ids_spec. intros [Hin|(m' & Hm' & Hmatch)]; [done|].
      rewrite Hm in Hm'. injection Hm' as <-.
      apply name_matches_spec in Hmatch as (pat & Hin & Hne & Hcont).
      by rewrite (Hpat pat Hin Hne) in Hcont.
Qed.

(** X18: a problem is kept exactly when it is an entry of the catalogue
    that has a contest id other than 0, a non-empty index and a rating of
    the requested set, whose contest is in the metadata with a year
    within [year_min, year_max], is not among the excluded ids, and has a
    name in which no non-empty pattern occurs, letter case aside. *)
Theorem load_problemset_filtered_keeps problems meta ratings_set year_min year_max
    exclude_name_patterns exclude_contest_ids q :
  q ∈ load_problemset_filtered problems meta ratings_set year_min year_max
        exclude_name_patterns exclude_contest_ids
  ↔ ∃ p, p ∈ problems ∧ same_problem p q
         ∧ passes_filter meta ratings_set year_min year_max
             exclude_name_patterns exclude_contest_ids q.
Proof.
  rewrite load_problemset_filtered_omap, list_elem_of_omap.
  by setoid_rewrite keep_problem_spec.
Qed.

(** X19: the kept problems come in the order of the catalogue. *)
Theorem load_problemset_filtered_order problems meta ratings_set year_min year_max
    exclude_name_patterns exclude_contest_ids :
  (λ q, (Some (contestId q), Some (index q)))
    <$> load_problemset_filtered problems meta ratings_set year_min year_max
          exclude_name_patterns exclude_contest_ids
  `sublist_of` (λ p, (ap_contestId p, ap_index p)) <$> problems.
Proof.
  rewrite load_problemset_filtered_omap.
  set (k := keep_problem meta _ ratings_set year_min year_max).
  induction problems as [|p l IH]; csimpl; [done|].
  destruct (k p) as [q|] eqn:Hk; csimpl.
  - apply keep_problem_spec in Hk as [(-> & -> & _) _]. by apply sublist_skip.
  - by apply sublist_cons.
Qed.

Lemma name_patterns_case pats1 pats2 :
  Forall2 (λ a b, PyStr.lower a = PyStr.lower b) pats1 pats2 →
  name_patterns pats1 = name_patterns pats2.
Proof.
  unfold name_patterns. induction 1 as [|a b l1 l2 Hab _ IH]; [done|].
  rewrite !filter_cons.
  destruct (decide (a ≠ "")) as [Ha|Ha], (decide (b ≠ "")) as [Hb|Hb]; csimpl.
  - by rewrite Hab, IH.
  - apply dec_stable in Hb. subst b. simpl in Hab.
    by apply (proj1 (lower_empty a)) in Hab.
  - apply dec_stable in Ha. subst a. simpl in Hab. symmetry in Hab.
    by apply (proj1 (lower_empty b)) in Hab.
  - done.
Qed.

(** X20: the patterns are taken without regard to letter case, and an
    empty pattern excludes nothing. *)
Theorem load_problemset_filtered_patterns problems meta ratings_set year_min year_max
    exclude_contest_ids :
  (∀ pats1 pats2,
     Forall2 (λ a b, PyStr.lower a = PyStr.lower b) pats1 pats2 →
     load_problemset_filtered problems meta ratings_set year_min year_max
       pats1 exclude_contest_ids
     = load_problemset_filtered problems meta ratings_set year_min year_max
         pats2 exclude_contest_ids)
  ∧ (∀ pats,
       load_problemset_filtered problems meta ratings_set year_min year_max
         ("" :: pats) exclude_contest_ids
       = load_problemset_filtered problems meta ratings_set year_min year_max
           pats exclude_contest_ids).
Proof.
  split.
  - intros pats1 pats2 Hp. unfold load_problemset_filtered, excluded_ids.
    by rewrite (name_patterns_case _ _ Hp).
  - intros pats. unfold load_problemset_filtered, excluded_ids, name_patterns.
    by rewrite filter_cons, decide_False by (by intros ?).
Qed.

(** * The link of a problem and the resolver *)

Lemma pretty_N_go_no_slash x : ∀ s,
  has_slash s = false → has_slash (pretty_N_go x s) = false.
Proof.
  induction (N.lt_wf_0 x) as [x _ IH]; intros s Hs.
  assert (x = 0 ∨ 0 < x)%N as [->|Hpos] by lia.
  - by rewrite pretty_N_go_0.
  - rewrite pretty_N_go_step by done. apply IH.
    + by apply N.div_lt.
    + simpl. rewrite Hs. unfold pretty_N_char. by repeat case_match.
Qed.

Lemma pretty_Z_no_slash (z : Z) : has_slash (pretty z) = false.
Proof.
  assert (HN : ∀ n : N, has_slash (pretty n) = false).
  { intros n. unfold pretty, pretty_N. case_decide; [done|].
    by apply pretty_N_go_no_slash. }
  destruct z as [|p|p]; [done|apply HN|].
  unfold pretty, pretty_Z. simpl. apply HN.
Qed.

Lemma split_at_first_slash a1 : ∀ a2 b1 b2,
  has_slash a1 = false → has_slash a2 = false →
  a1 +:+ "/" +:+ b1 = a2 +:+ "/" +:+ b2 → a1 = a2 ∧ b1 = b2.
Proof.
  induction a1 as [|c a1 IH]; intros [|c2 a2] b1 b2 H1 H2 Heq; simpl in *.
  - by simplify_eq.
  - injection Heq as <- _. by rewrite Ascii.eqb_refl in H2.
  - injection Heq as -> _. by rewrite Ascii.eqb_refl in H1.
  - apply orb_false_iff in H1 as [_ H1]. apply orb_false_iff in H2 as [_ H2].
    injection Heq as -> Hrest. destruct (IH _ _ _ H1 H2 Hrest) as [-> ->]. done.
Qed.

(** X21: two problems have the same link exactly when they have the same
    key. *)
Theorem to_url_same_iff_same_key p q :
  to_url p = to_url q ↔ key p = key q.
Proof.
  unfold to_url, key. split.
  - intros Hurl. apply (inj (String.append _)) in Hurl.
    apply split_at_first_slash in Hurl as [Hc ->]; [|apply pretty_Z_no_slash..].
    by apply (inj pretty) in Hc as ->.
  - by intros [= -> ->].
Qed.

(** X22: the resolver that prefers IPv4 answers with the IPv4 addresses
    when there are some and with all the addresses otherwise: it keeps
    the order, and it never makes a host that resolves look unknown. *)
Theorem gai_filter_result res :
  gai_filter res `sublist_of` res
  ∧ (gai_filter res = [] ↔ res = [])
  ∧ ((∃ x, x ∈ res ∧ ai_family x = AF_INET) →
       gai_filter res = filter (λ x, ai_family x = AF_INET) res)
  ∧ ((∀ x, x ∈ res → ai_family x ≠ AF_INET) → gai_filter res = res).
Proof.
  unfold gai_filter.
  destruct (filter (λ x, ai_family x = AF_INET) res) as [|y l] eqn:Hf.
  - split; [done|]. split; [done|]. split; [|done].
    intros (x & Hx & Hfam).
    assert (x ∈ filter (λ x, ai_family x = AF_INET) res) as Hin
      by (by apply list_elem_of_filter).
    rewrite Hf in Hin. by apply elem_of_nil in Hin.
  - split; [rewrite <- Hf; apply sublist_filter|]. split.
    + split; [done|]. intros ->. by rewrite filter_nil in Hf.
    + split; [done|]. intros Hnone.
      assert (y ∈ filter (λ x, ai_family x = AF_INET) res) as Hin
        by (rewrite Hf; apply list_elem_of_here).
      apply list_elem_of_filter in Hin as [Hy Hin]. by destruct (Hnone y Hin).
Qed.

(** ** The selector at work, continued *)

Lemma unconstrained_pick_succeeds_iff_witness :
  NoDup (key <$> [pA1; pB1; pC1; pA2])
  ∧ ((∃ picks g', pick_strict_order 0%nat [pA1; pB1; pC1; pA2] ∅ [1200; 1200; 1300]
                    false false None (Some 7) = (Picked picks, g'))
     ↔ ∀ r, (demand r [1200; 1200; 1300]%Z
             ≤ length (rated r (fresh_of [pA1; pB1; pC1; pA2] ∅)))%nat).
Proof.
  assert (Hnd : NoDup (key <$> [pA1; pB1; pC1; pA2])).
  { apply (bool_decide_unpack _). vm_compute. exact I. }
  split; [exact Hnd|].
  exact (unconstrained_pick_succeeds_iff 0%nat [pA1; pB1; pC1; pA2] ∅
           [1200; 1200; 1300] (Some 7) Hnd).
Defined.

Lemma picks_are_candidates_witness :
  pick_strict_order 0%nat [pA1; pB1; pC1; pA2] ∅ [1200; 1200; 1300]
    false false None (Some 7) = (Picked [pA1; pC1; pA2], 9%nat)
  ∧ Forall (λ p, p ∈ [pA1; pB1; pC1; pA2]) [pA1; pC1; pA2].
Proof.
  assert (Hrun : pick_strict_order 0%nat [pA1; pB1; pC1; pA2] ∅ [1200; 1200; 1300]
                   false false None (Some 7) = (Picked [pA1; pC1; pA2], 9%nat))
    by (vm_compute; reflexivity).
  split; [exact Hrun|].
  exact (picks_are_candidates _ _ _ _ _ _ _ _ _ _ Hrun).
Defined.

Lemma pick_failure_is_first_exhausted_witness :
  pick_strict_order 0%nat [pA1; pB1; pC1; pA2] ∅ [1200; 1200; 1300]
    true false None (Some 7) = (NoAvailable 1200 [DistinctContest], 9%nat)
  ∧ ∃ pre post st0 st,
      [1200; 1200; 1300] = pre ++ 1200 :: post
      ∧ prepare 0%nat [pA1; pB1; pC1; pA2] ∅ (Some 7) = (st0, 9%nat)
      ∧ run_state true false (normalize_caps None) st0 pre = Some st
      ∧ length (picked st) = length pre
      ∧ Forall (λ c, rejects true false (normalize_caps None) st c = true)
               (default [] (bucket_get 1200 (buckets st))).
Proof.
  assert (Hrun : pick_strict_order 0%nat [pA1; pB1; pC1; pA2] ∅ [1200; 1200; 1300]
                   true false None (Some 7) = (NoAvailable 1200 [DistinctContest], 9%nat))
    by (vm_compute; reflexivity).
  split; [exact Hrun|].
  exact (pick_failure_is_first_exhausted _ _ _ _ _ _ _ _ _ _ _ Hrun).
Defined.

Lemma picks_of_prefix_witness :
  pick_strict_order 0%nat [pA1; pB1; pC1; pA2] ∅ ([1200] ++ [1200; 1300])
    false false None (Some 7) = (Picked [pA1; pC1; pA2], 9%nat)
  ∧ pick_strict_order 0%nat [pA1; pB1; pC1; pA2] ∅ [1200]
      false false None (Some 7)
    = (Picked (take (length [1200]) [pA1; pC1; pA2]), 9%nat).
Proof.
  assert (Hrun : pick_strict_order 0%nat [pA1; pB1; pC1; pA2] ∅ ([1200] ++ [1200; 1300])
                   false false None (Some 7) = (Picked [pA1; pC1; pA2], 9%nat))
    by (vm_compute; reflexivity).
  split; [exact Hrun|].
  exact (picks_of_prefix _ _ _ _ _ _ _ _ _ _ _ Hrun).
Defined.

(** * The parts together *)

Lemma picks_respect_caps {G} `{PyRandom G} (g : G) candidates attempted_set
    ratings_ordered distinct_contest distinct_tags tag_caps seed picks g' t c :
  pick_strict_order g candidates attempted_set ratings_ordered
    distinct_contest distinct_tags tag_caps seed = (Picked picks, g') →
  normalize_caps tag_caps !! t = Some c → tag_occurrences t picks ≤ c.
Proof.
  unfold pick_strict_order, prepare.
  destruct (shuffle_all _ _) as [bs g2]. intros [= Hrun <-] Hc.
  pose proof (init_state_inv distinct_contest distinct_tags
                (normalize_caps tag_caps) bs (normalize_caps_ge_1 tag_caps)) as Hinit.
  destruct (run_inv _ _ _ _ _ _ Hinit Hrun) as (st' & <- & [_ _ _ _ Hcap _]).
  by apply Hcap.
Qed.

(** X23: every cap of an accepted configuration is in force in the
    selector: called with the caps [load_config] returns, a successful
    selection carries each capped tag no more often than its cap. *)
Theorem loaded_caps_are_enforced `{PyText} {G} `{PyRandom G} S path file S' r
    (g : G) candidates attempted_set ratings_ordered distinct_contest
    distinct_tags seed picks g' :
  load_config S path file = (S', Ok r) →
  pick_strict_order g candidates attempted_set ratings_ordered
    distinct_contest distinct_tags (Some (cfg_tag_caps r)) seed = (Picked picks, g') →
  Forall (λ kv, tag_occurrences kv.1 picks ≤ kv.2) (cfg_tag_caps r).
Proof.
  intros Hload Hpick.
  destruct (load_config_caps_well_formed _ _ _ _ _ Hload) as [Hnd Hwf].
  apply Forall_forall. intros [k c] Hin. simpl.
  pose proof (proj1 (Forall_forall _ _) Hwf _ Hin) as [Hlow Hc]. simpl in *.
  eapply picks_respect_caps; [exact Hpick|].
  rewrite <- Hlow. apply normalize_caps_lookup; [|done|done].
  replace (PyStr.lower <$> (cfg_tag_caps r).*1) with (cfg_tag_caps r).*1; [done|].
  clear -Hwf. induction Hwf as [|[k' c'] l [Hk _] _ IH]; csimpl; [done|].
  simpl in Hk. by rewrite Hk, <- IH.
Qed.

(** X24: what the program prints when the selector is fed with the
    filtered catalogue: every pick passes the filter -- it has a requested
    rating, its contest lies within the years asked for and is not
    excluded by id or by name -- and it is an entry of the catalogue. *)
Theorem picks_pass_filter {G} `{PyRandom G} (g : G) problems meta ratings_set
    year_min year_max exclude_name_patterns exclude_contest_ids
    attempted_set ratings_ordered distinct_contest distinct_tags tag_caps seed
    picks g' :
  pick_strict_order g
    (load_problemset_filtered problems meta ratings_set year_min year_max
       exclude_name_patterns exclude_contest_ids)
    attempted_set ratings_ordered distinct_contest distinct_tags tag_caps seed
  = (Picked picks, g') →
  Forall (λ q, passes_filter meta ratings_set year_min year_max
                 exclude_name_patterns exclude_contest_ids q
               ∧ ∃ p, p ∈ problems ∧ same_problem p q) picks.
Proof.
  intros Hpick. apply picks_from_buckets in Hpick.
  eapply Forall2_Forall_right; [|exact Hpick]. simpl.
  intros r q (_ & Hin & _).
  apply load_problemset_filtered_keeps in Hin as (p & Hp & Hsame & Hpass).
  split; [done|]. by exists p.
Qed.

(** * The submission history *)

Lemma add_submission_spec attempted sub k :
  k ∈ add_submission attempted sub
  ↔ k ∈ attempted
    ∨ (sub_contestId sub = Some k.1 ∧ sub_index sub = Some k.2
       ∧ k.1 ≠ 0 ∧ k.2 ≠ "").
Proof.
  unfold add_submission. destruct k as [c i]. simpl.
  destruct (sub_contestId sub) as [cid|]; [|intuition congruence].
  destruct (sub_index sub) as [idx|]; [|intuition congruence].
  destruct (negb (cid =? 0) && negb (String.eqb idx "")) eqn:Hnz.
  - apply andb_true_iff in Hnz as [Hc Hi].
    apply negb_true_iff, Z.eqb_neq in Hc. apply negb_true_iff, String.eqb_neq in Hi.
    rewrite elem_of_union, elem_of_singleton. intuition congruence.
  - apply andb_false_iff in Hnz as [Hz|Hz]; apply negb_false_iff in Hz.
    + apply Z.eqb_eq in Hz. intuition congruence.
    + apply String.eqb_eq in Hz. intuition congruence.
Qed.

Lemma add_batch_spec batch : ∀ attempted k,
  k ∈ add_batch attempted batch
  ↔ k ∈ attempted
    ∨ ∃ sub, sub ∈ batch ∧ sub_contestId sub = Some k.1
             ∧ sub_index sub = Some k.2 ∧ k.1 ≠ 0 ∧ k.2 ≠ "".
Proof.
  unfold add_batch. induction batch as [|sub batch IH]; intros attempted k; simpl.
  - split; [by left|]. intros [?|(sub & Hin & _)]; [done|]. by apply elem_of_nil in Hin.
  - rewrite IH, add_submission_spec. split.
    + intros [[?|?]|(s & Hin & ?)]; [by left|right..].
      * exists sub. split; [apply list_elem_of_here|done].
      * exists s. split; [by apply list_elem_of_further|done].
    + intros [?|(s & [->|Hin]%elem_of_cons & ?)]; [by left; left|by left; right|].
      right. by exists s.
Qed.

Lemma seen_in_app log1 log2 k :
  seen_in (log1 ++ log2) k ↔ seen_in log1 k ∨ seen_in log2 k.
Proof.
  unfold seen_in. split.
  - intros (req & b & sub & [Hin|Hin]%elem_of_app & Hrest); [left|right];
      by exists req, b, sub.
  - intros [(req & b & sub & Hin & Hrest)|(req & b & sub & Hin & Hrest)];
      exists req, b, sub; (split; [apply elem_of_app; by eauto|done]).
Qed.

Lemma seen_in_nil k : ¬ seen_in [] k.
Proof. intros (req & _ & _ & Hin & _). by apply elem_of_nil in Hin. Qed.

Lemma seen_in_batch h from batch k :
  seen_in [mkRequest h from (Batch batch)] k
  ↔ ∃ sub, sub ∈ batch ∧ sub_contestId sub = Some k.1
           ∧ sub_index sub = Some k.2 ∧ k.1 ≠ 0 ∧ k.2 ≠ "".
Proof.
  unfold seen_in. split.
  - intros (req & b & sub & ->%list_elem_of_singleton & [= <-] & Hrest). by exists sub.
  - intros (sub & Hrest). exists (mkRequest h from (Batch batch)), batch, sub.
    split; [apply list_elem_of_here|done].
Qed.

Section AggregatorFacts.
Context {W : Type}
        (fetch : string → Z → Z → W → page_result * W)
        (pause : W → W)
        (page_size : Z)
        (max_pages_per_user : option Z).

Abbreviation pages' := (pages fetch pause page_size max_pages_per_user).
Abbreviation handles_loop' := (handles_loop fetch pause page_size max_pages_per_user).

Lemma pages_outcome_step h from batch attempted new res :
  pages_outcome h (add_batch attempted batch) new res →
  pages_outcome h attempted (mkRequest h from (Batch batch) :: new) res.
Proof.
  assert (Hans : answered (mkRequest h from (Batch batch))) by (by exists batch).
  destruct res as [att'|h' msg|msg]; simpl.
  - intros [Hall Hk]. split; [by constructor|]. intros k.
    rewrite Hk, add_batch_spec.
    change (mkRequest h from (Batch batch) :: new)
      with ([mkRequest h from (Batch batch)] ++ new).
    rewrite seen_in_app, seen_in_batch. tauto.
  - intros (-> & Hbad & earlier & from' & -> & Hall). split; [done|]. split; [done|].
    exists (mkRequest h from (Batch batch) :: earlier), from'. split; [done|].
    by constructor.
  - intros (Hbad & earlier & from' & -> & Hall). split; [done|].
    exists (mkRequest h from (Batch batch) :: earlier), from'. split; [done|].
    by constructor.
Qed.

Lemma pages_spec fuel : ∀ h start page attempted log w res log' w',
  pages' fuel h start page attempted log w = Some (res, log', w') →
  ∃ new, log' = log ++ new
         ∧ Forall (λ r, req_handle r = h) new
         ∧ pages_outcome h attempted new res.
Proof.
  induction fuel as [|fuel IH]; intros h start page attempted log w res log' w';
    cbn [pages]; [done|].
  destruct (fetch h start page_size w) as [[batch|msg] w1] eqn:Hf.
  - destruct batch as [|sub batch].
    + intros [= <- <- <-]. exists [mkRequest h start (Batch [])].
      split; [done|]. split; [by repeat constructor|]. simpl. split.
      * repeat constructor. by exists [].
      * intros k. split; [by left|]. intros [?|Hs]; [done|].
        apply seen_in_batch in Hs as (s & Hin & _). by apply elem_of_nil in Hin.
    + set (b := sub :: batch).
      assert (Hstop : ∀ res log' w',
                Some (Attempted (add_batch attempted b),
                      log ++ [mkRequest h start (Batch b)], w1)
                = Some (res, log', w') →
                ∃ new, log' = log ++ new
                       ∧ Forall (λ r, req_handle r = h) new
                       ∧ pages_outcome h attempted new res).
      { intros res0 log0 w0 [= <- <- <-]. exists [mkRequest h start (Batch b)].
        split; [done|]. split; [by repeat constructor|]. cbn [pages_outcome]. split.
        - repeat constructor. by exists b.
        - intros k. etrans; [apply (add_batch_spec b attempted k)|].
          by rewrite seen_in_batch. }
      destruct (Z.of_nat (length b) <? page_size); [apply Hstop|].
      destruct (page_limit_reached max_pages_per_user (page + 1)); [apply Hstop|].
      intros Hrec. destruct (IH _ _ _ _ _ _ _ _ _ Hrec) as (new & -> & Hh & Hout).
      exists (mkRequest h start (Batch b) :: new).
      split; [by rewrite <- app_assoc|]. split; [by constructor|].
      by apply pages_outcome_step.
  - intros [= <- <- <-]. exists [mkRequest h start (Failed msg)].
    split; [done|]. split; [by repeat constructor|].
    destruct (names_bad_handle msg) eqn:Hbad; simpl.
    + split; [done|]. split; [done|]. by exists [], start.
    + split; [done|]. by exists [], start.
Qed.

(** The loop over the handles, from any set and any log. *)
Lemma handles_loop_spec fuel handles : ∀ attempted log w res log' w',
  handles_loop' fuel handles attempted log w = Some (res, log', w') →
  ∃ new, log' = log ++ new
         ∧ Forall (λ r, req_handle r ∈ handles) new
         ∧ match res with
           | Attempted attempted' =>
               Forall answered new
               ∧ ∀ k, k ∈ attempted' ↔ k ∈ attempted ∨ seen_in new k
           | InvalidHandle h msg =>
               h ∈ handles ∧ names_bad_handle msg = true
               ∧ ∃ earlier from,
                   new = earlier ++ [mkRequest h from (Failed msg)]
                   ∧ Forall answered earlier
           | Reraised msg =>
               names_bad_handle msg = false
               ∧ ∃ earlier h from,
                   new = earlier ++ [mkRequest h from (Failed msg)]
                   ∧ Forall answered earlier
           end.
Proof.
  induction handles as [|h rest IH]; intros attempted log w res log' w';
    cbn [handles_loop].
  - intros [= <- <- <-]. exists []. rewrite app_nil_r. split; [done|].
    split; [constructor|]. split; [constructor|].
    intros k. split; [by left|]. intros [?|Hs]; [done|]. by apply seen_in_nil in Hs.
  - destruct (pages' fuel h 1 0 attempted log w) as [[[res1 log1] w1]|] eqn:Hp; [|done].
    destruct (pages_spec _ _ _ _ _ _ _ _ _ _ Hp) as (new1 & -> & Hh1 & Hout1).
    assert (Hh1' : Forall (λ r, req_handle r ∈ h :: rest) new1).
    { eapply Forall_impl; [exact Hh1|]. intros r ->. apply list_elem_of_here. }
    destruct res1 as [att1|h1 msg1|msg1].
    + intros Hrest. destruct (IH _ _ _ _ _ _ Hrest) as (new2 & -> & Hh2 & Hout2).
      exists (new1 ++ new2). split; [by rewrite <- app_assoc|]. split.
      { apply Forall_app. split; [done|].
        eapply Forall_impl; [exact Hh2|]. intros r ?. by apply list_elem_of_further. }
      destruct Hout1 as [Hans1 Hk1].
      destruct res as [att2|h2 msg2|msg2].
      * destruct Hout2 as [Hans2 Hk2]. split; [by apply Forall_app|].
        intros k. rewrite Hk2, Hk1, seen_in_app. tauto.
      * destruct Hout2 as (Hin & Hbad & earlier & from & -> & Hans2).
        split; [by apply list_elem_of_further|]. split; [done|].
        exists (new1 ++ earlier), from. split; [by rewrite <- app_assoc|].
        by apply Forall_app.
      * destruct Hout2 as (Hbad & earlier & h2 & from & -> & Hans2).
        split; [done|].
        exists (new1 ++ earlier), h2, from. split; [by rewrite <- app_assoc|].
        by apply Forall_app.
    + intros [= <- <- <-]. exists new1. split; [done|]. split; [done|].
      destruct Hout1 as (-> & Hbad & earlier & from & -> & Hans).
      split; [apply list_elem_of_here|]. split; [done|]. by exists earlier, from.
    + intros [= <- <- <-]. exists new1. split; [done|]. split; [done|].
      destruct Hout1 as (Hbad & earlier & from & -> & Hans).
      split; [done|]. by exists earlier, h, from.
Qed.

End AggregatorFacts.

Section AggregatorClaims.
Context {W : Type}
        (fetch : string → Z → Z → W → page_result * W)
        (pause : W → W)
        (page_size : Z)
        (max_pages_per_user : option Z).

(** X25: the set returned holds exactly the keys seen in the batches that
    were fetched: every submission counts, whatever its verdict, as soon
    as it has a contest id other than 0 and a non-empty index; and every
    request was made for one of the handles and went through. *)
Theorem load_user_attempted_collects fuel handles w attempted log w' :
  load_user_attempted fetch pause page_size max_pages_per_user fuel handles w
  = Some (Attempted attempted, log, w') →
  (∀ k, k ∈ attempted ↔ seen_in log k)
  ∧ Forall answered log
  ∧ Forall (λ r, req_handle r ∈ handles) log.
Proof.
  unfold load_user_attempted. intros Hl.
  destruct (handles_loop_spec _ _ _ _ _ _ _ _ _ _ _ _ Hl) as (new & -> & Hh & Hans & Hk).
  simpl. split; [|done]. intros k. rewrite Hk. split; [|by right].
  intros [Hin|?]; [|done]. by apply not_elem_of_empty in Hin.
Qed.

(** X26: a request that fails ends the whole aggregation at once: it is
    the last request made, every request before it went through, nothing
    of what was collected is returned; the call dies naming the handle
    when the message of the failure holds "not found" (in any letter
    case) or "handles:", and raises the failure again otherwise. *)
Theorem load_user_attempted_failure fuel handles w res log w' :
  load_user_attempted fetch pause page_size max_pages_per_user fuel handles w
  = Some (res, log, w') →
  (∀ attempted, res ≠ Attempted attempted) →
  ∃ earlier h from msg,
    log = earlier ++ [mkRequest h from (Failed msg)]
    ∧ Forall answered earlier
    ∧ res = (if names_bad_handle msg then InvalidHandle h msg else Reraised msg)
    ∧ (names_bad_handle msg = true → h ∈ handles).
Proof.
  unfold load_user_attempted. intros Hl Hne.
  destruct (handles_loop_spec _ _ _ _ _ _ _ _ _ _ _ _ Hl) as (new & -> & Hh & Hout).
  destruct res as [att|h msg|msg]; [by destruct (Hne att)| |].
  - destruct Hout as (Hin & Hbad & earlier & from & -> & Hans).
    exists earlier, h, from, msg. rewrite Hbad. by repeat split.
  - destruct Hout as (Hbad & earlier & h & from & -> & Hans).
    exists earlier, h, from, msg. rewrite Hbad. by repeat split.
Qed.

Lemma pages_capped n fuel : ∀ h start page attempted log w,
  max_pages_per_user = Some n →
  0 ≤ page < n → (Z.to_nat (n - page) ≤ fuel)%nat →
  ∃ res new w',
    pages fetch pause page_size max_pages_per_user fuel h start page attempted log w
    = Some (res, log ++ new, w')
    ∧ Z.of_nat (length new) ≤ n - page.
Proof.
  intros h start page attempted log w Hmax. revert h start page attempted log w.
  induction fuel as [|fuel IH]; intros h start page attempted log w Hpage Hfuel;
    [lia|]. cbn [pages].
  destruct (fetch h start page_size w) as [[batch|msg] w1] eqn:Hf.
  - destruct batch as [|sub batch].
    + eexists _, [_], _. split; [done|]. simpl. lia.
    + destruct (Z.of_nat (length (sub :: batch)) <? page_size).
      { eexists _, [_], _. split; [done|]. simpl. lia. }
      destruct (page_limit_reached max_pages_per_user (page + 1)) eqn:Hlim.
      { eexists _, [_], _. split; [done|]. simpl. lia. }
      unfold page_limit_reached in Hlim. rewrite Hmax in Hlim.
      apply andb_false_iff in Hlim as [Hz|Hle].
      { apply negb_false_iff, Z.eqb_eq in Hz. lia. }
      apply Z.leb_gt in Hle.
      edestruct (IH h (start + page_size) (page + 1)) as (res & new & w' & -> & Hlen);
        [lia|lia|].
      eexists res, (_ :: new), w'. split; [by rewrite <- app_assoc|]. simpl. lia.
  - eexists _, [_], _. split; [done|]. simpl. lia.
Qed.

(** X27: with a page limit of [n >= 1], the aggregation always comes to
    an end -- [n] turns of the loop per handle are enough -- and makes at
    most [n] requests per handle. *)
Theorem load_user_attempted_page_limit n fuel handles w :
  max_pages_per_user = Some n → 1 ≤ n → (Z.to_nat n ≤ fuel)%nat →
  ∃ res log w',
    load_user_attempted fetch pause page_size max_pages_per_user fuel handles w
    = Some (res, log, w')
    ∧ Z.of_nat (length log) ≤ n * Z.of_nat (length handles).
Proof.
  intros Hmax Hn Hfuel. unfold load_user_attempted.
  assert (Hgen : ∀ handles attempted log w,
            ∃ res new w',
              handles_loop fetch pause page_size max_pages_per_user fuel handles
                attempted log w = Some (res, log ++ new, w')
              ∧ Z.of_nat (length new) ≤ n * Z.of_nat (length handles)).
  { clear handles w. induction handles as [|h rest IH]; intros attempted log w;
      cbn [handles_loop].
    - exists (Attempted attempted), [], w. rewrite app_nil_r. split; [done|]. simpl. lia.
    - destruct (pages_capped n fuel h 1 0 attempted log w Hmax)
        as (res1 & new1 & w1 & -> & Hlen1); [lia|by rewrite Z.sub_0_r|].
      destruct res1 as [att1|h1 msg1|msg1].
      + destruct (IH att1 (log ++ new1) w1) as (res & new2 & w' & -> & Hlen2).
        exists res, (new1 ++ new2), w'. split; [by rewrite <- app_assoc|].
        rewrite length_app. simpl length. lia.
      + exists (InvalidHandle h1 msg1), new1, w1. split; [done|]. simpl length. lia.
      + exists (Reraised msg1), new1, w1. split; [done|]. simpl length. lia. }
  destruct (Hgen handles ∅ [] w) as (res & new & w' & Hl & Hlen).
  by exists res, new, w'.
Qed.

(** X28: without a page limit (none given, or 0), against a remote that
    answers every request with a full page, the loop over the pages of
    the first handle never ends: no number of turns suffices. *)
Theorem load_user_attempted_endless fuel h rest w :
  (max_pages_per_user = None ∨ max_pages_per_user = Some 0) →
  (∀ h from w, ∃ sub batch w',
     fetch h from page_size w = (Batch (sub :: batch), w')
     ∧ page_size ≤ Z.of_nat (length (sub :: batch))) →
  load_user_attempted fetch pause page_size max_pages_per_user fuel (h :: rest) w
  = None.
Proof.
  intros Hmax Hfull. unfold load_user_attempted. cbn [handles_loop].
  assert (Hnone : ∀ start page attempted log w,
            pages fetch pause page_size max_pages_per_user fuel h start page
              attempted log w = None); [|by rewrite Hnone].
  clear w. induction fuel as [|fuel IH]; intros start page attempted log w;
    cbn [pages]; [done|].
  destruct (Hfull h start w) as (sub & batch & w1 & -> & Hlen).
  replace (Z.of_nat (length (sub :: batch)) <? page_size) with false
    by (symmetry; apply Z.ltb_ge; lia).
  replace (page_limit_reached max_pages_per_user (page + 1)) with false.
  - apply IH.
  - unfold page_limit_reached. by destruct Hmax as [-> | ->].
Qed.

End AggregatorClaims.

(** * The further properties at work *)

Lemma cf_get_exhausted_trace_witness :
  let e := RuntimeError "user.status: handles: User with handle nosuchuser123 not found" in
  let w' := (cf_get (λ _ _, HttpResponse unknown_handle_response) API_HOSTS
               "user.status" 2 (mkWorld 0 [])).2 in
  cf_get (λ _ _, HttpResponse unknown_handle_response) API_HOSTS "user.status" 2
    (mkWorld 0 [])
  = (Exhausted "user.status" (Some e), w')
  ∧ ("user.status" = "user.status"
     ∧ trace w' = [] ++ concat (round_events "user.status" API_HOSTS <$> seq 0 2)
     ∧ calls w' = (0 + 2 * length API_HOSTS)%nat).
Proof.
  intros e w'.
  assert (Hget : cf_get (λ _ _, HttpResponse unknown_handle_response) API_HOSTS
                   "user.status" 2 (mkWorld 0 [])
                 = (Exhausted "user.status" (Some e), w'))
    by (vm_compute; reflexivity).
  split; [exact Hget|].
  exact (cf_get_exhausted_trace _ _ _ _ _ _ _ _ Hget).
Defined.

Lemma cf_get_returns_at_once_witness :
  let w' := mkWorld 2 [Throttle; Get "https://codeforces.com/api/contest.list";
                       Get "https://www.codeforces.com/api/contest.list"] in
  cf_get challenge_then_ok API_HOSTS "contest.list" 4 (mkWorld 0 [])
  = (Returned (JArr []), w')
  ∧ ∃ n base tr,
      base ∈ API_HOSTS ∧ calls w' = S n
      ∧ trace w' = tr ++ [Get (url_of "contest.list" base)]
      ∧ handle_response "contest.list" (challenge_then_ok n (url_of "contest.list" base))
        = Accept (JArr []).
Proof.
  intros w'.
  assert (Hget : cf_get challenge_then_ok API_HOSTS "contest.list" 4 (mkWorld 0 [])
                 = (Returned (JArr []), w'))
    by (vm_compute; reflexivity).
  split; [exact Hget|].
  exact (cf_get_returns_at_once _ _ _ _ _ _ _ Hget).
Defined.

Lemma cf_get_escaping_exceptions_witness :
  let server := λ (_ : nat) (_ : string), HttpResponse list_body_response in
  let w' := mkWorld 1 [Throttle; Get "https://codeforces.com/api/contest.list"] in
  cf_get server API_HOSTS "contest.list" 4 (mkWorld 0 []) = (Raised AttributeError, w')
  ∧ ((AttributeError = AttributeError ∨ AttributeError = KeyError "result")
     ∧ ∃ n base tr,
         base ∈ API_HOSTS ∧ calls w' = S n
         ∧ trace w' = tr ++ [Get (url_of "contest.list" base)]
         ∧ handle_response "contest.list" (server n (url_of "contest.list" base))
           = Escapes AttributeError).
Proof.
  intros server w'.
  assert (Hget : cf_get server API_HOSTS "contest.list" 4 (mkWorld 0 [])
                 = (Raised AttributeError, w'))
    by (vm_compute; reflexivity).
  split; [exact Hget|].
  exact (cf_get_escaping_exceptions _ _ _ _ _ _ _ Hget).
Defined.

Lemma cf_get_all_transient_witness :
  (cf_get (λ _ _, HttpResponse busy_response) API_HOSTS "contest.list" 4
          (mkWorld 0 [])).1
  = Exhausted "contest.list" None.
Proof.
  apply (cf_get_all_transient (λ _ _, HttpResponse busy_response) API_HOSTS
           "contest.list" 4 (mkWorld 0 [])).
  intros n url. vm_compute. reflexivity.
Defined.

Lemma load_config_dies_with_2_witness :
  load_config S_initial "cf_pick.json" (Parsed (JObj cfg_bad_cap))
  = (S_initial, Die 2 "Config: tag_caps['graphs'] must be >= 1.")
  ∧ 2 = 2.
Proof.
  assert (Hload : load_config S_initial "cf_pick.json" (Parsed (JObj cfg_bad_cap))
                  = (S_initial, Die 2 "Config: tag_caps['graphs'] must be >= 1."))
    by (vm_compute; reflexivity).
  split; [exact Hload|].
  exact (load_config_dies_with_2 _ _ _ _ _ _ Hload).
Defined.

Lemma load_config_accepted_shape_witness :
  load_config S_initial "cf_pick.json" (Parsed (JObj cfg_base))
  = (S_initial, Ok cfg_base_loaded)
  ∧ ((∃ lo hi, as_int (cfg_year_min cfg_base_loaded) = Some lo
               ∧ as_int (cfg_year_max cfg_base_loaded) = Some hi ∧ lo ≤ hi)
     ∧ (∃ xs, get_or "ratings" JNull cfg_base = JArr xs
              ∧ length (cfg_ratings_list cfg_base_loaded) = length xs
              ∧ cfg_ratings_list cfg_base_loaded ≠ [])
     ∧ Forall (λ h, h ≠ "") (cfg_handles cfg_base_loaded)
     ∧ (∀ n, cfg_max_pages_per_user cfg_base_loaded = Some n → 1 ≤ n)).
Proof.
  assert (Hload : load_config S_initial "cf_pick.json" (Parsed (JObj cfg_base))
                  = (S_initial, Ok cfg_base_loaded))
    by (vm_compute; reflexivity).
  split; [exact Hload|].
  exact (load_config_accepted_shape _ _ _ _ _ Hload).
Defined.

Lemma load_config_min_interval_nonnegative_witness :
  load_config S_initial "cf_pick.json" (Parsed (JObj cfg_base))
  = (S_initial, Ok cfg_base_loaded)
  ∧ float_nonnegative (cfg_min_interval cfg_base_loaded).
Proof.
  assert (Hload : load_config S_initial "cf_pick.json" (Parsed (JObj cfg_base))
                  = (S_initial, Ok cfg_base_loaded))
    by (vm_compute; reflexivity).
  split; [exact Hload|].
  exact (load_config_min_interval_nonnegative _ _ _ _ _ Hload).
Defined.

Lemma load_config_caps_well_formed_witness :
  load_config S_initial "cf_pick.json" (Parsed (JObj cfg_caps))
  = (S_initial, Ok cfg_caps_loaded)
  ∧ (NoDup (cfg_tag_caps cfg_caps_loaded).*1
     ∧ Forall (λ kv, PyStr.lower kv.1 = kv.1 ∧ 1 ≤ kv.2) (cfg_tag_caps cfg_caps_loaded)).
Proof.
  assert (Hload : load_config S_initial "cf_pick.json" (Parsed (JObj cfg_caps))
                  = (S_initial, Ok cfg_caps_loaded))
    by (vm_compute; reflexivity).
  split; [exact Hload|].
  exact (load_config_caps_well_formed _ _ _ _ _ Hload).
Defined.

Lemma load_config_bad_timeout_escapes_witness :
  load_config S_initial "cf_pick.json" (Parsed (JObj cfg_base))
  = (S_initial, Ok cfg_base_loaded)
  ∧ py_int (JStr "fast") = None
  ∧ load_config S_initial "cf_pick.json"
      (Parsed (JObj (dict_set "timeout" (JStr "fast") cfg_base)))
    = (S_initial, Uncaught).
Proof.
  assert (Hload : load_config S_initial "cf_pick.json" (Parsed (JObj cfg_base))
                  = (S_initial, Ok cfg_base_loaded))
    by (vm_compute; reflexivity).
  assert (Hint : py_int (JStr "fast") = None) by (vm_compute; reflexivity).
  split; [exact Hload|]. split; [exact Hint|].
  exact (load_config_bad_timeout_escapes _ _ _ _ _ _ Hload Hint).
Defined.

Lemma loaded_caps_are_enforced_witness :
  load_config S_initial "cf_pick.json" (Parsed (JObj cfg_caps))
  = (S_initial, Ok cfg_caps_loaded)
  ∧ pick_strict_order 0%nat [pA1; pB1; pC1; pA2] ∅ [1300; 1200; 1200] false false
      (Some (cfg_tag_caps cfg_caps_loaded)) (Some 7)
    = (Picked [pA2; pA1; pC1], 9%nat)
  ∧ Forall (λ kv, tag_occurrences kv.1 [pA2; pA1; pC1] ≤ kv.2)
           (cfg_tag_caps cfg_caps_loaded).
Proof.
  assert (Hload : load_config S_initial "cf_pick.json" (Parsed (JObj cfg_caps))
                  = (S_initial, Ok cfg_caps_loaded))
    by (vm_compute; reflexivity).
  assert (Hpick : pick_strict_order 0%nat [pA1; pB1; pC1; pA2] ∅ [1300; 1200; 1200]
                    false false (Some (cfg_tag_caps cfg_caps_loaded)) (Some 7)
                  = (Picked [pA2; pA1; pC1], 9%nat))
    by (vm_compute; reflexivity).
  split; [exact Hload|]. split; [exact Hpick|].
  exact (loaded_caps_are_enforced _ _ _ _ _ _ _ _ _ _ _ _ _ _ Hload Hpick).
Defined.

Lemma load_contests_meta_entries_witness :
  load_contests_meta contests_ex = Some meta_ex
  ∧ ((∀ cid, is_Some (meta_ex !! cid) ↔ ∃ c ts, c ∈ contests_ex ∧ listed c cid ts)
     ∧ (∀ cid m, meta_ex !! cid = Some m →
          ∃ c ts, c ∈ contests_ex ∧ listed c cid ts
                  ∧ utc_year ts = Some (meta_year m)
                  ∧ meta_name m = default "" (c_name c))).
Proof.
  assert (Hmeta : load_contests_meta contests_ex = Some meta_ex)
    by (vm_compute; reflexivity).
  split; [exact Hmeta|].
  exact (load_contests_meta_entries contests_ex meta_ex Hmeta).
Defined.

Lemma load_contests_meta_fails_witness :
  let late := mkContest None (Some 9) (Some 253402300800) None in
  (∃ c cid ts, c ∈ [late] ∧ listed c cid ts ∧ utc_year ts = None)
  ∧ load_contests_meta [late] = None.
Proof.
  intros late.
  assert (Hlate : ∃ c cid ts, c ∈ [late] ∧ listed c cid ts ∧ utc_year ts = None).
  { exists late, 9, 253402300800. split; [apply list_elem_of_here|].
    split; [by repeat split|]. vm_compute. reflexivity. }
  split; [exact Hlate|].
  exact (proj2 (load_contests_meta_fails [late]) Hlate).
Defined.

Lemma load_problemset_filtered_keeps_witness :
  pA2 ∈ load_problemset_filtered catalogue_ex meta_ex {[1200; 1300]} 2019 2024
          ["educational"] [5]
  ↔ ∃ p, p ∈ catalogue_ex ∧ same_problem p pA2
         ∧ passes_filter meta_ex {[1200; 1300]} 2019 2024 ["educational"] [5] pA2.
Proof.
  exact (load_problemset_filtered_keeps catalogue_ex meta_ex {[1200; 1300]} 2019 2024
           ["educational"] [5] pA2).
Defined.

Lemma load_problemset_filtered_patterns_witness :
  Forall2 (λ a b, PyStr.lower a = PyStr.lower b) ["Educational"] ["EDUCATIONAL"]
  ∧ load_problemset_filtered catalogue_ex meta_ex {[1200; 1300]} 2019 2024
      ["Educational"] [5]
    = load_problemset_filtered catalogue_ex meta_ex {[1200; 1300]} 2019 2024
        ["EDUCATIONAL"] [5].
Proof.
  assert (Hcase : Forall2 (λ a b, PyStr.lower a = PyStr.lower b)
                    ["Educational"] ["EDUCATIONAL"])
    by (repeat constructor).
  split; [exact Hcase|].
  exact (proj1 (load_problemset_filtered_patterns catalogue_ex meta_ex {[1200; 1300]}
                  2019 2024 [5]) _ _ Hcase).
Defined.

Lemma picks_pass_filter_witness :
  let picks := [pA1; pC1; pA2] in
  pick_strict_order 0%nat
    (load_problemset_filtered catalogue_ex meta_ex {[1200; 1300]} 2019 2024 ["gym"] [5])
    ∅ [1200; 1200; 1300] false false None (Some 7)
  = (Picked picks, 9%nat)
  ∧ Forall (λ q, passes_filter meta_ex {[1200; 1300]} 2019 2024 ["gym"] [5] q
                 ∧ ∃ p, p ∈ catalogue_ex ∧ same_problem p q) picks.
Proof.
  intros picks.
  assert (Hpick : pick_strict_order 0%nat
                    (load_problemset_filtered catalogue_ex meta_ex {[1200; 1300]}
                       2019 2024 ["gym"] [5])
                    ∅ [1200; 1200; 1300] false false None (Some 7)
                  = (Picked picks, 9%nat))
    by (vm_compute; reflexivity).
  split; [exact Hpick|].
  exact (picks_pass_filter _ _ _ _ _ _ _ _ _ _ _ _ _ _ _ _ Hpick).
Defined.

Lemma to_url_same_iff_same_key_witness :
  to_url pA1 = to_url pA2 ↔ key pA1 = key pA2.
Proof. exact (to_url_same_iff_same_key pA1 pA2). Defined.

Lemma gai_filter_result_witness :
  let res := [mkAddrinfo 10 "2606:4700::6812:1"; mkAddrinfo 2 "104.26.6.164";
              mkAddrinfo 2 "172.67.68.254"] in
  (∃ x, x ∈ res ∧ ai_family x = AF_INET)
  ∧ gai_filter res = filter (λ x, ai_family x = AF_INET) res.
Proof.
  intros res.
  assert (Hv4 : ∃ x, x ∈ res ∧ ai_family x = AF_INET).
  { exists (mkAddrinfo 2 "104.26.6.164").
    split; [apply list_elem_of_further, list_elem_of_here|reflexivity]. }
  split; [exact Hv4|].
  exact (proj1 (proj2 (proj2 (gai_filter_result res))) Hv4).
Defined.

Lemma load_user_attempted_collects_witness :
  let attempted : gset (Z * string) := {[ (1, "C"); (7, "A") ]} in
  let log := [mkRequest "tourist" 1 (Batch [mkSubmission (Some 1) (Some "C");
                                            mkSubmission (Some 7) (Some "A")]);
              mkRequest "tourist" 3 (Batch [mkSubmission (Some 1) (Some "C")])] in
  load_user_attempted history_ex (λ w, w) 2 None 5 ["tourist"] 0%nat
  = Some (Attempted attempted, log, 2%nat)
  ∧ ((∀ k, k ∈ attempted ↔ seen_in log k)
     ∧ Forall answered log
     ∧ Forall (λ r, req_handle r ∈ ["tourist"]) log).
Proof.
  intros attempted log.
  assert (Hl : load_user_attempted history_ex (λ w, w) 2 None 5 ["tourist"] 0%nat
               = Some (Attempted attempted, log, 2%nat))
    by (vm_compute; reflexivity).
  split; [exact Hl|].
  exact (load_user_attempted_collects _ _ _ _ _ _ _ _ _ _ Hl).
Defined.

Lemma load_user_attempted_failure_witness :
  let msg := "user.status: exhausted retries; last error: user.status: "
             +:+ "handles: User with handle nosuch not found" in
  let log := [mkRequest "tourist" 1 (Batch [mkSubmission (Some 1) (Some "C");
                                            mkSubmission (Some 7) (Some "A")]);
              mkRequest "nosuch" 1 (Failed msg)] in
  load_user_attempted history_ex (λ w, w) 2 (Some 1) 5 ["tourist"; "nosuch"; "tourist"]
    0%nat
  = Some (InvalidHandle "nosuch" msg, log, 2%nat)
  ∧ ∃ earlier h from msg',
      log = earlier ++ [mkRequest h from (Failed msg')]
      ∧ Forall answered earlier
      ∧ InvalidHandle "nosuch" msg
        = (if names_bad_handle msg' then InvalidHandle h msg' else Reraised msg')
      ∧ (names_bad_handle msg' = true → h ∈ ["tourist"; "nosuch"; "tourist"]).
Proof.
  intros msg log.
  assert (Hl : load_user_attempted history_ex (λ w, w) 2 (Some 1) 5
                 ["tourist"; "nosuch"; "tourist"] 0%nat
               = Some (InvalidHandle "nosuch" msg, log, 2%nat))
    by (vm_compute; reflexivity).
  split; [exact Hl|].
  exact (load_user_attempted_failure _ _ _ _ _ _ _ _ _ _ Hl
           (λ attempted Heq, eq_ind (InvalidHandle "nosuch" msg)
              (λ r, match r with Attempted _ => False | _ => True end) I _ Heq)).
Defined.

Lemma load_user_attempted_page_limit_witness :
  ∃ res log w',
    load_user_attempted history_full (λ w, w) 2 (Some 3) 3 ["tourist"; "Petr"] 0%nat
    = Some (res, log, w')
    ∧ Z.of_nat (length log) ≤ 3 * Z.of_nat (length ["tourist"; "Petr"]).
Proof.
  apply (load_user_attempted_page_limit history_full (λ w, w) 2 (Some 3) 3 3
           ["tourist"; "Petr"] 0%nat).
  - reflexivity.
  - lia.
  - vm_compute. lia.
Defined.

Lemma load_user_attempted_endless_witness :
  load_user_attempted history_full (λ w, w) 2 None 1000 ["tourist"; "Petr"] 0%nat
  = None.
Proof.
  apply (load_user_attempted_endless history_full (λ w, w) 2 None 1000
           "tourist" ["Petr"] 0%nat).
  - by left.
  - intros h from w. eexists _, _, _. split; [reflexivity|]. simpl. lia.
Defined.
